(** * amazon-ecs-agent: Docker client factory, ECS state-change model and
      the state-reconciliation rules, with their verified properties.

    Part I   embeds [agent/dockerclient/clientfactory/dockerclientfactory.go].
    Part II  embeds the state-change shapes and validators of
             [agent/ecs_client/model/ecs/api.go]; Part IIb the validators
             of the registration requests, Part IIc the paging loops.
    Part III models the reconciliation rules that the specification describes
             (status monotonicity, dependency resolution, cycle rejection,
             event de-duplication). *)

From Stdlib Require Import ZArith Lia Ascii.
From stdpp Require Import base option list relations gmap strings fin_maps pretty.

#[local] Set Warnings "-clear-no-such-hyp".

Open Scope string_scope.

(** * Part I: the Docker client factory *)

Module ClientFactory.

(** [dockerclient.DockerVersion] is a Go string type. *)
Abbreviation DockerVersion := string (only parsing).

(** A [dockeriface.Client] interface value.  It is nil; or it holds a
    pointer to a client object (as the implementations of this repository
    are), which Go compares by identity; or it holds a value of a dynamic
    type that is not comparable (a struct with a slice, map or function
    field): [dynType] names the type, [val] the value. *)
Inductive Client : Type :=
  | nilClient
  | clientAt (addr : positive)
  | clientValue (dynType val : positive).

#[global] Instance Client_eq_dec : EqDecision Client.
Proof. solve_decision. Defined.

(** Go's [v == client] on two interface values: equal when both are nil or
    both hold the same pointer, unequal when their dynamic types differ, and
    a run-time panic ([None]) when both hold values of one non-comparable
    dynamic type. *)
Definition clientsEqual (v client : Client) : option bool :=
  match v, client with
  | clientValue t1 _, clientValue t2 _ =>
      if decide (t1 = t2) then None else Some false
  | _, _ => Some (bool_decide (v = client))
  end.

(** The clients on which [==] cannot panic. *)
Definition comparable (c : Client) : Prop :=
  match c with
  | clientValue _ _ => False
  | _ => True
  end.

(** A [context.Context] interface value: nil, a context of the caller, or
    the context that [context.WithTimeout] derives from a parent. *)
Inductive Context : Type :=
  | nilContext
  | contextAt (addr : positive)
  | timeoutContext (parent : Context).

#[global] Instance Context_eq_dec : EqDecision Context.
Proof. solve_decision. Defined.

(** Go [error] values as built by [errors.New], [errors.Errorf] and
    [errors.Wrapf]; [None : option error] is the nil error. *)
Inductive error : Type :=
  | New (msg : string)
  | Wrapf (cause : error) (msg : string).

Definition Errorf (msg : string) : error := New msg.

(** [docker.Env], seen through its key/value view: [Exists] and [Get].
    The library hands it out as a pointer, [*docker.Env]; a nil pointer is
    [None : option Env]. *)
Definition Env := gmap string string.
Definition Exists (env : Env) (key : string) : bool :=
  bool_decide (is_Some (env !! key)).
Definition Get (env : Env) (key : string) : string :=
  default "" (env !! key).

Definition minAPIVersionKey : string := "MinAPIVersion".
Definition apiVersionKey : string := "ApiVersion".

Record factory : Type := {
  endpoint : string;
  clients : gmap string Client
}.

(** The calls the factory makes on the Docker library and daemon. *)
Inductive Call : Type :=
  | CallNewVersionedClient (endpoint version : string)
  | CallVersionWithContext (c : Client)
  | CallPing (c : Client).

(** Program state: the outside world (the daemon and the client library)
    and the trace of calls made so far. *)
Record State (World : Type) : Type := { world : World; calls : list Call }.
Arguments world {World} _.
Arguments calls {World} _.

(** ** A concrete daemon

    The definitions of the section below take the daemon, the client library
    and the version comparison as parameters.  These are concrete ones, on
    which the properties proved in general can be evaluated. *)

(** A [major.minor] version: both parts non-empty decimal numbers. *)
Definition digitValue (c : ascii) : option N :=
  let n := N_of_ascii c in
  if ((48 <=? n) && (n <=? 57))%N then Some (n - 48)%N else None.

Fixpoint parseDigits (s : string) (acc : N) : option N :=
  match s with
  | EmptyString => Some acc
  | String c rest =>
      match digitValue c with
      | Some d => parseDigits rest (10 * acc + d)%N
      | None => None
      end
  end.

Fixpoint splitAtDot (s : string) : option (string * string) :=
  match s with
  | EmptyString => None
  | String c rest =>
      if decide (c = "."%char) then Some (EmptyString, rest)
      else match splitAtDot rest with
           | Some (a, b) => Some (String c a, b)
           | None => None
           end
  end.

Definition parseDockerVersion (s : string) : option (N * N) :=
  match splitAtDot s with
  | Some (String a0 a, String b0 b) =>
      match parseDigits (String a0 a) 0, parseDigits (String b0 b) 0 with
      | Some major, Some minor => Some (major, minor)
      | _, _ => None
      end
  | _ => None
  end.

Definition compareDockerVersions (a b : N * N) : comparison :=
  match (a.1 ?= b.1)%N with
  | Eq => (a.2 ?= b.2)%N
  | c => c
  end.

(** A stand-in for [DockerAPIVersion.Matches] on the two selector forms the
    factory builds, [<x.y] and [>x.y]; a version or selector that does not
    parse is an error. *)
Definition compareWith (want : comparison) (v rhs : string) : bool * option error :=
  match parseDockerVersion v, parseDockerVersion rhs with
  | Some a, Some b =>
      (bool_decide (compareDockerVersions a b = want), None)
  | _, _ => (false, Some (New "unable to parse version"))
  end.

Definition selectorMatches (v selector : string) : bool * option error :=
  match selector with
  | String c rhs =>
      if decide (c = "<"%char) then compareWith Lt v rhs
      else if decide (c = ">"%char) then compareWith Gt v rhs
      else (false, Some (New "unsupported selector"))
  | EmptyString => (false, Some (New "unsupported selector"))
  end.

Definition parsedLt (a b : string) : Prop :=
  match parseDockerVersion a, parseDockerVersion b with
  | Some x, Some y => compareDockerVersions x y = Lt
  | _, _ => False
  end.

(** A daemon that supports API versions 1.21 to 1.30 and hands out a fresh
    client on every request; its world counts the clients made so far. *)
Definition demoNewVersionedClient (ep version : string) (w : nat)
  : (Client * option error) * nat :=
  ((clientAt (Pos.of_succ_nat w), None), S w).

Definition demoEnv : Env :=
  <[apiVersionKey := "1.30"]> (<[minAPIVersionKey := "1.21"]> ∅).

Definition demoVersionWithContext (c : Client) (ctx : Context) (w : nat)
  : (option Env * option error) * nat := ((Some demoEnv, None), w).

(** The context with which the factory is built in the examples. *)
Definition demoContext : Context := contextAt 1.

Definition demoPing (c : Client) (w : nat) : option error * nat := (None, w).

Definition demoKnownAPIVersions : list string :=
  ["1.17"; "1.18"; "1.21"; "1.25"; "1.30"; "1.32"].

Definition demoState : State nat := {| world := 0; calls := [] |}.

(** An older daemon: it answers its version, but the answer has no
    [MinAPIVersion]. *)
Definition oldDaemonEnv : Env := <[apiVersionKey := "1.24"]> ∅.

Definition oldDaemonVersionWithContext (c : Client) (ctx : Context)
    (w : nat)
  : (option Env * option error) * nat := ((Some oldDaemonEnv, None), w).

(** The clients that [demoNewVersionedClient] has handed out by the time the
    world is [w]. *)
Definition demoMade (w : nat) (c : Client) : Prop :=
  ∃ n, (n < w)%nat ∧ c = clientAt (Pos.of_succ_nat n).

Section Factory.

(** The outside world: the daemon and the client library.  Each operation
    may change it and may answer differently every time. *)
Variable World : Type.

(** [newVersionedClient] is a package variable holding a function
    [(endpoint, version) -> (Client, error)]. *)
Variable newVersionedClient :
  string → string → World → (Client * option error) * World.
(** [client.VersionWithContext(ctx)] and [client.Ping()], for a non-nil
    client.  Calls into the library are taken to return. *)
Variable VersionWithContext :
  Client → Context → World → (option Env * option error) * World.
Variable Ping : Client → World → option error * World.

(** [dockerclient.DockerAPIVersion(version).Matches(selector)]: declared in
    package [dockerclient], outside the files at hand. *)
Variable Matches : string → string → bool * option error.

(** Platform constants and tables of package [dockerclient]. *)
Variable minDockerAPIVersion : string.
Variable GetKnownAPIVersions : list string.
Variable getDefaultVersion : string.

(** A computation returns a value and a new state, or panics ([None]): on
    a method call through a nil interface value or a nil pointer, or on
    deriving a context from a nil one. *)
Definition M (A : Type) : Type := State World → option (A * State World).

Definition ret {A} (a : A) : M A := λ st, Some (a, st).
Definition panic {A} : M A := λ _, None.
Definition bind {A B} (m : M A) (k : A → M B) : M B :=
  λ st, match m st with
        | Some (a, st') => k a st'
        | None => None
        end.

Notation "'let*' x := m 'in' k" := (bind m (λ x, k))
  (at level 10, x name, k at level 200, only parsing).
Notation "'let*' ' p := m 'in' k" := (bind m (λ x, match x with p => k end))
  (at level 10, p pattern, k at level 200, only parsing).

Definition call_newVersionedClient (ep version : string)
  : M (Client * option error) :=
  λ st, let '(r, w) := newVersionedClient ep version (world st) in
        Some (r, {| world := w;
                    calls := calls st ++ [CallNewVersionedClient ep version] |}).

(** [context.WithTimeout(parent, dockerclient.VersionTimeout)]: it panics
    on a nil parent.  (The [cancel] it returns with the derived context is
    deferred and touches nothing that is modelled here.) *)
Definition WithTimeout (parent : Context) : M Context :=
  match parent with
  | nilContext => panic
  | _ => ret (timeoutContext parent)
  end.

Definition call_VersionWithContext (c : Client) (ctx : Context)
  : M (option Env * option error) :=
  λ st, match c with
        | nilClient => None
        | _ => let '(r, w) := VersionWithContext c ctx (world st) in
               Some (r, {| world := w;
                           calls := calls st ++ [CallVersionWithContext c] |})
        end.

Definition call_Ping (c : Client) : M (option error) :=
  λ st, match c with
        | nilClient => None
        | _ => let '(r, w) := Ping c (world st) in
               Some (r, {| world := w; calls := calls st ++ [CallPing c] |})
        end.

(** [getDockerClientForVersion(endpoint, version, minAPIVersion, apiVersion)] *)
Definition getDockerClientForVersion
    (ep version minAPIVersion apiVersion : string)
  : M (Client * option error) :=
  (* the error with which the range check returns early, if it does *)
  let rangeErr : option error :=
    if bool_decide (minAPIVersion ≠ "") && bool_decide (apiVersion ≠ "") then
      let lessThanMinCheck := "<" +:+ minAPIVersion in
      let moreThanMaxCheck := ">" +:+ apiVersion in
      match Matches version lessThanMinCheck with
      | (_, Some err) =>
          Some (Wrapf err
            ("version detection using MinAPIVersion: unable to get min version: "
               +:+ minAPIVersion))
      | (minVersionCheck, None) =>
          match Matches version moreThanMaxCheck with
          | (_, Some err) =>
              Some (Wrapf err
                ("version detection using MinAPIVersion: unable to get max version: "
                   +:+ apiVersion))
          | (maxVersionCheck, None) =>
              if minVersionCheck || maxVersionCheck then
                Some (Errorf
                  ("version detection using MinAPIVersion: unsupported version: "
                     +:+ version))
              else None
          end
      end
    else None in
  match rangeErr with
  | Some e => ret (nilClient, Some e)
  | None =>
      let* '(client, err) := call_newVersionedClient ep version in
      match err with
      | Some e =>
          ret (nilClient,
               Some (Wrapf e
                 ("version detection check: unable to create Docker client for version: "
                    +:+ version)))
      | None =>
          let* err := call_Ping client in
          match err with
          | Some e =>
              ret (nilClient,
                   Some (Wrapf e
                     ("version detection check: failed to ping with Docker version: "
                        +:+ version)))
          | None => ret (client, None)
          end
      end
  end.

(** The [for _, version := range dockerclient.GetKnownAPIVersions()] loop of
    [findDockerVersions], with the map [clients] built so far. *)
Fixpoint findDockerVersions_loop (ep minAPIVersion apiVersion : string)
    (versions : list string) (clients : gmap string Client)
  : M (gmap string Client) :=
  match versions with
  | [] => ret clients
  | version :: rest =>
      let* '(dockerClient, err) :=
        getDockerClientForVersion ep version minAPIVersion apiVersion in
      match err with
      | Some _ =>
          (* log.Infof(...); continue *)
          findDockerVersions_loop ep minAPIVersion apiVersion rest clients
      | None =>
          findDockerVersions_loop ep minAPIVersion apiVersion rest
            (<[version := dockerClient]> clients)
      end
  end.

(** The first half of [findDockerVersions]: ask the daemon, through a client
    of the minimum supported version, for its [MinAPIVersion] and
    [ApiVersion]; both stay empty when the client cannot be made or the
    daemon answers with an error. *)
Definition probeDaemonVersions (ctx : Context) (ep : string)
  : M (string * string) :=
  let* '(client, err) := call_newVersionedClient ep minDockerAPIVersion in
  match err with
  | None =>
      let* derivedCtx := WithTimeout ctx in
      let* '(clientVersion, err) := call_VersionWithContext client derivedCtx in
      match err with
      | None =>
          match clientVersion with
          | None =>
              (* clientVersion.Exists(...) through a nil *docker.Env *)
              panic
          | Some clientVersion =>
              let minAPIVersion :=
                if Exists clientVersion minAPIVersionKey
                then Get clientVersion minAPIVersionKey else "" in
              let apiVersion :=
                if Exists clientVersion apiVersionKey
                then Get clientVersion apiVersionKey else "" in
              ret (minAPIVersion, apiVersion)
          end
      | Some _ => ret ("", "")
      end
  | Some _ => ret ("", "")
  end.

(** [findDockerVersions(ctx, endpoint)] *)
Definition findDockerVersions (ctx : Context) (ep : string)
  : M (gmap string Client) :=
  let* '(minAPIVersion, apiVersion) := probeDaemonVersions ctx ep in
  findDockerVersions_loop ep minAPIVersion apiVersion GetKnownAPIVersions ∅.

(** [NewFactory(ctx, endpoint)] *)
Definition NewFactory (ctx : Context) (ep : string) : M factory :=
  let* cs := findDockerVersions ctx ep in
  ret {| endpoint := ep; clients := cs |}.

(** [f.getClient(version)] *)
Definition getClient (f : factory) (version : string) : Client * option error :=
  match clients f !! version with
  | Some client => (client, None)
  | None =>
      (nilClient,
       Some (New ("docker client factory: client not found for docker version: "
                    +:+ version)))
  end.

(** The body of [for k, v := range f.clients { if v == client { return k } }]
    over the sequence in which the map is visited: the key found if any,
    or [None] when the comparison panics. *)
Fixpoint rangeFind (visited : list (string * Client)) (client : Client)
  : option (option string) :=
  match visited with
  | [] => Some None
  | (k, v) :: rest =>
      match clientsEqual v client with
      | None => None
      | Some true => Some (Some k)
      | Some false => rangeFind rest client
      end
  end.

(** [f.FindClientAPIVersion(client)].  Go visits a map in an unspecified
    order; [visited] is the order of this run, a permutation of the map's
    entries.  [None] is the panic of a comparison. *)
Definition FindClientAPIVersion (visited : list (string * Client))
    (client : Client) : option string :=
  match rangeFind visited client with
  | None => None
  | Some (Some k) => Some k
  | Some None => Some getDefaultVersion
  end.

(** *** The factory's construction returns

    A panic comes from a [newVersionedClient] that answers with a nil client
    and a nil error, from a [VersionWithContext] that answers with a nil
    [*docker.Env] and a nil error, or from a nil context. *)
Definition neverNilWithoutError : Prop :=
  ∀ ep version w, (newVersionedClient ep version w).1 ≠ (nilClient, None).

Definition neverNilEnvWithoutError : Prop :=
  ∀ c ctx w, (VersionWithContext c ctx w).1 ≠ (None, None).

Lemma getDockerClientForVersion_returns ep version minV apiV st :
  neverNilWithoutError →
  is_Some (getDockerClientForVersion ep version minV apiV st).
Proof.
  intros Hlib. unfold getDockerClientForVersion.
  match goal with
  | |- is_Some (match ?guard with _ => _ end _) => destruct guard as [e|]
  end; [by eexists|].
  unfold bind, call_newVersionedClient.
  specialize (Hlib ep version (world st)).
  destruct (newVersionedClient ep version (world st)) as [[client [e|]] w];
    [by eexists|].
  destruct client as [|addr|ty val]; [done|..]; unfold call_Ping; cbn;
    destruct (Ping _ w) as [[e|] w']; by eexists.
Qed.

Lemma findDockerVersions_loop_returns ep minV apiV versions :
  neverNilWithoutError →
  ∀ acc st, is_Some (findDockerVersions_loop ep minV apiV versions acc st).
Proof.
  intros Hlib. induction versions as [|version rest IH]; intros acc st.
  - by eexists.
  - cbn [findDockerVersions_loop]. unfold bind at 1.
    destruct (getDockerClientForVersion_returns ep version minV apiV st Hlib)
      as [[[client [e|]] st'] ->]; apply IH.
Qed.

Lemma probeDaemonVersions_returns ctx ep st :
  ctx ≠ nilContext → neverNilWithoutError → neverNilEnvWithoutError →
  is_Some (probeDaemonVersions ctx ep st).
Proof.
  intros Hctx Hlib Henv. unfold probeDaemonVersions.
  unfold bind at 1. unfold call_newVersionedClient.
  pose proof (Hlib ep minDockerAPIVersion (world st)) as Hprobe.
  destruct (newVersionedClient ep minDockerAPIVersion (world st))
    as [[probe [e|]] w]; cbn; [by eexists|].
  assert (Hderived : WithTimeout ctx
                     = ret (timeoutContext ctx)) by by destruct ctx.
  rewrite Hderived. unfold bind at 1. unfold ret at 1.
  unfold bind at 1. unfold call_VersionWithContext.
  destruct probe as [|addr|ty val]; [done|..]; cbn;
    match goal with
    | |- context [VersionWithContext ?c ?d w] =>
        specialize (Henv c d w);
        destruct (VersionWithContext c d w) as [[[env|] [e|]] w']
    end; cbn in *; first [done|by eexists].
Qed.

Lemma findDockerVersions_returns ctx ep st :
  ctx ≠ nilContext → neverNilWithoutError → neverNilEnvWithoutError →
  is_Some (findDockerVersions ctx ep st).
Proof.
  intros Hctx Hlib Henv. unfold findDockerVersions. unfold bind at 1.
  destruct (probeDaemonVersions_returns ctx ep st Hctx Hlib Henv)
    as [[[minV apiV] st1] ->].
  by apply findDockerVersions_loop_returns.
Qed.

(** ** Version negotiation keeps to the daemon's range *)

(** The order on API versions behind the selectors [<x] and [>x]:
    [versionLt a b] says that [a] is a strictly earlier API version than [b],
    and [Matches] answers a [<] or [>] selector accordingly. *)
Variable versionLt : string → string → Prop.
Hypothesis Matches_less :
  ∀ v m, versionLt v m → Matches v ("<" +:+ m) = (true, None).
Hypothesis Matches_more :
  ∀ v m, versionLt m v → Matches v (">" +:+ m) = (true, None).

(** The range guard on its own, in terms of what [Matches] answers: when
    either selector is answered with an error or with true, the function
    returns a nil client and an error before it calls anything. *)
Lemma getDockerClientForVersion_guard ep version minV apiV st :
  minV ≠ "" → apiV ≠ "" →
  (Matches version ("<" +:+ minV)).2 ≠ None
  ∨ (Matches version ("<" +:+ minV)).1 = true
  ∨ (Matches version (">" +:+ apiV)).2 ≠ None
  ∨ (Matches version (">" +:+ apiV)).1 = true →
  ∃ e, getDockerClientForVersion ep version minV apiV st
       = Some ((nilClient, Some e), st).
Proof.
  intros Hmin Hapi Hguard. unfold getDockerClientForVersion.
  rewrite !bool_decide_eq_true_2 by done. cbn [andb].
  destruct (Matches version ("<" +:+ minV)) as [lt [e1|]];
    destruct (Matches version (">" +:+ apiV)) as [gt [e2|]];
    cbn in *; eauto.
  destruct lt, gt; cbn; eauto.
  by destruct Hguard as [?|[?|[?|?]]].
Qed.

Lemma getDockerClientForVersion_out_of_range ep version minV apiV st :
  minV ≠ "" → apiV ≠ "" →
  versionLt version minV ∨ versionLt apiV version →
  ∃ e, getDockerClientForVersion ep version minV apiV st
       = Some ((nilClient, Some e), st).
Proof.
  intros Hmin Hapi Hout.
  apply getDockerClientForVersion_guard; [done..|].
  destruct Hout as [Hlt | Hgt].
  - rewrite (Matches_less _ _ Hlt). auto.
  - rewrite (Matches_more _ _ Hgt). auto.
Qed.

(** A version passes the range check when both selectors are answered with
    false and no error. *)
Definition passesRangeCheck (minV apiV version : string) : Prop :=
  Matches version ("<" +:+ minV) = (false, None)
  ∧ Matches version (">" +:+ apiV) = (false, None).

(** A version for which [getDockerClientForVersion] hands back a client
    (nil error) has passed the range check. *)
Lemma getDockerClientForVersion_accepts_checked
    ep version minV apiV st client st' :
  minV ≠ "" → apiV ≠ "" →
  getDockerClientForVersion ep version minV apiV st = Some ((client, None), st') →
  passesRangeCheck minV apiV version.
Proof.
  intros Hmin Hapi Hrun. unfold passesRangeCheck.
  destruct (Matches version ("<" +:+ minV)) as [[|] [e1|]] eqn:Hlt;
    destruct (Matches version (">" +:+ apiV)) as [[|] [e2|]] eqn:Hgt;
    try done;
    destruct (getDockerClientForVersion_guard ep version minV apiV st
                Hmin Hapi) as [e He];
    try congruence; rewrite Hlt, Hgt; cbn; auto.
Qed.

Lemma passesRangeCheck_in_range minV apiV version :
  passesRangeCheck minV apiV version →
  ¬ versionLt version minV ∧ ¬ versionLt apiV version.
Proof.
  intros [Hlt Hgt]. split; intros Hbad.
  - rewrite (Matches_less _ _ Hbad) in Hlt. done.
  - rewrite (Matches_more _ _ Hbad) in Hgt. done.
Qed.

Lemma findDockerVersions_loop_checked ep minV apiV versions :
  minV ≠ "" → apiV ≠ "" →
  ∀ (acc : gmap string Client) st cs st',
    findDockerVersions_loop ep minV apiV versions acc st = Some (cs, st') →
    (∀ k c, acc !! k = Some c → passesRangeCheck minV apiV k) →
    ∀ k c, cs !! k = Some c → passesRangeCheck minV apiV k.
Proof.
  intros Hmin Hapi. induction versions as [|version rest IH];
    intros acc st cs st' Hrun Hacc.
  - cbn in Hrun. unfold ret in Hrun. by simplify_eq.
  - cbn [findDockerVersions_loop] in Hrun. unfold bind in Hrun at 1.
    destruct (getDockerClientForVersion ep version minV apiV st)
      as [[[dockerClient [e|]] st1]|] eqn:Hget; [| |done].
    + eapply IH; eauto.
    + eapply IH; [exact Hrun|].
      intros k c. rewrite lookup_insert. case_decide; [|by apply Hacc].
      intros _. subst k.
      eapply getDockerClientForVersion_accepts_checked; eauto.
Qed.

(** C8. When the daemon reports a non-empty [MinAPIVersion] and a non-empty
    [ApiVersion], [getDockerClientForVersion] answers every candidate version
    strictly below the first or strictly above the second with a nil client
    and an error, without calling [newVersionedClient] (the state, and with it
    the trace of calls, is unchanged); so it does whenever [Matches] answers
    one of the two selectors with true or with an error.  The map that
    [findDockerVersions] returns holds clients only under versions that have
    passed both checks, none under a version outside that range. *)
Theorem version_negotiation_respects_daemon_range (ep minV apiV : string) :
  minV ≠ "" → apiV ≠ "" →
  (∀ version st,
      versionLt version minV ∨ versionLt apiV version →
      ∃ e, getDockerClientForVersion ep version minV apiV st
           = Some ((nilClient, Some e), st))
  ∧ (∀ version st,
      (Matches version ("<" +:+ minV)).2 ≠ None
      ∨ (Matches version ("<" +:+ minV)).1 = true
      ∨ (Matches version (">" +:+ apiV)).2 ≠ None
      ∨ (Matches version (">" +:+ apiV)).1 = true →
      ∃ e, getDockerClientForVersion ep version minV apiV st
           = Some ((nilClient, Some e), st))
  ∧ (∀ ctx st probe w1 env w2 cs st',
      newVersionedClient ep minDockerAPIVersion (world st)
        = ((probe, None), w1) →
      VersionWithContext probe (timeoutContext ctx) w1
        = ((Some env, None), w2) →
      env !! minAPIVersionKey = Some minV →
      env !! apiVersionKey = Some apiV →
      findDockerVersions ctx ep st = Some (cs, st') →
      ∀ k c, cs !! k = Some c →
             passesRangeCheck minV apiV k
             ∧ ¬ versionLt k minV ∧ ¬ versionLt apiV k).
Proof.
  intros Hmin Hapi. split; [|split].
  - intros version st Hout.
    by apply getDockerClientForVersion_out_of_range.
  - intros version st Hguard.
    by apply getDockerClientForVersion_guard.
  - intros ctx st probe w1 env w2 cs st' Hnew Hver Hkmin Hkapi Hrun.
    unfold findDockerVersions, probeDaemonVersions in Hrun.
    unfold bind at 1 2 in Hrun. unfold call_newVersionedClient in Hrun.
    rewrite Hnew in Hrun. cbn in Hrun.
    assert (Hderived : WithTimeout ctx = ret (timeoutContext ctx))
      by (destruct ctx; [done|done..]).
    rewrite Hderived in Hrun. unfold bind at 1 in Hrun.
    unfold ret at 1 in Hrun.
    unfold bind at 1 in Hrun. unfold call_VersionWithContext in Hrun.
    assert (Hanswered :
      findDockerVersions_loop ep minV apiV GetKnownAPIVersions ∅
        {| world := w2;
           calls := (calls st ++ [CallNewVersionedClient ep minDockerAPIVersion])
                    ++ [CallVersionWithContext probe] |}
      = Some (cs, st')).
    { destruct probe as [|addr|ty val]; [done|..];
        cbn [world] in Hrun; rewrite Hver in Hrun; cbn in Hrun;
        unfold Exists, Get in Hrun; rewrite Hkmin, Hkapi in Hrun;
        rewrite !bool_decide_eq_true_2 in Hrun by eauto; exact Hrun. }
    clear Hrun. rename Hanswered into Hrun.
    intros k c Hk.
    assert (Hchecked : passesRangeCheck minV apiV k).
    { eapply findDockerVersions_loop_checked; eauto.
      intros k0 c0. by rewrite lookup_empty. }
    split; [done|]. by apply passesRangeCheck_in_range.
Qed.

(** ** Looking a client's version up *)

Lemma clientsEqual_comparable v client :
  comparable client → clientsEqual v client = Some (bool_decide (v = client)).
Proof. by destruct v, client. Qed.

Lemma clientsEqual_true v client :
  clientsEqual v client = Some true → v = client.
Proof.
  unfold clientsEqual. destruct v, client; try case_decide; intros Heq;
    try done; injection Heq as Heq; by apply bool_decide_eq_true in Heq.
Qed.

Lemma clientsEqual_false v client :
  clientsEqual v client = Some false → v ≠ client.
Proof.
  unfold clientsEqual. destruct v, client; try case_decide; intros Heq;
    try done; try (by intros [= ? ?]);
    injection Heq as Heq; by apply bool_decide_eq_false in Heq.
Qed.

Lemma rangeFind_Some visited client k :
  rangeFind visited client = Some (Some k) → (k, client) ∈ visited.
Proof.
  induction visited as [|[k' v] rest IH]; cbn; [done|].
  destruct (clientsEqual v client) as [[|]|] eqn:Heq; [| |done].
  - intros [= ->]. apply clientsEqual_true in Heq as ->. left.
  - intros H. right. by apply IH.
Qed.

Lemma rangeFind_None visited client :
  rangeFind visited client = Some None → ∀ k, (k, client) ∉ visited.
Proof.
  induction visited as [|[k' v] rest IH]; cbn; intros H k Hin.
  - by apply elem_of_nil in Hin.
  - destruct (clientsEqual v client) as [[|]|] eqn:Heq; [done| |done].
    apply clientsEqual_false in Heq.
    apply elem_of_cons in Hin as [[= -> ->]|Hin]; [done|].
    by eapply IH.
Qed.

Lemma rangeFind_comparable visited client :
  comparable client → is_Some (rangeFind visited client).
Proof.
  intros Hc. induction visited as [|[k' v] rest IH]; cbn; [by eexists|].
  rewrite clientsEqual_comparable by done. by case_bool_decide.
Qed.

Lemma rangeFind_same_type visited t v :
  (∃ k v', (k, clientValue t v') ∈ visited) →
  rangeFind visited (clientValue t v) = None.
Proof.
  intros (k & v' & Hin).
  induction visited as [|[k' c] rest IH]; [by apply elem_of_nil in Hin|].
  cbn. apply elem_of_cons in Hin as [[= <- <-]|Hin].
  - cbn. by rewrite decide_True.
  - destruct (clientsEqual c (clientValue t v)) as [[|]|] eqn:Heq;
      [|by apply IH|done].
    pose proof (clientsEqual_true _ _ Heq) as ->. cbn in Heq.
    by rewrite decide_True in Heq.
Qed.

Lemma rangeFind_other_types visited t v :
  (∀ k v', (k, clientValue t v') ∉ visited) →
  rangeFind visited (clientValue t v) = Some None.
Proof.
  induction visited as [|[k' c] rest IH]; intros Hnone; cbn; [done|].
  assert (Heq : clientsEqual c (clientValue t v) = Some false).
  { destruct c as [| |t' v0]; cbn; [done..|].
    case_decide as Ht; [|done]. subst t'. exfalso.
    apply (Hnone k' v0). left. }
  rewrite Heq. apply IH. intros k v' Hin. apply (Hnone k v'). by right.
Qed.

(** C9, amended.  [FindClientAPIVersion] returns a version, without failing,
    for every client that is nil or a pointer, whatever the order in which
    the map is visited: a version key under which that client is stored if
    it is stored (the key, when there is only one), the default version if it
    is not.  For a client whose dynamic type is not comparable the comparison
    [v == client] panics on an entry of the same dynamic type: the call
    panics when the map holds such an entry, and returns the default version
    when it holds none. *)
Theorem FindClientAPIVersion_total_on_comparable_clients (f : factory)
    (visited : list (string * Client)) (client : Client) :
  visited ≡ₚ map_to_list (clients f) →
  (comparable client →
   ∃ k, FindClientAPIVersion visited client = Some k
        ∧ ((∃ k', clients f !! k' = Some client) →
           clients f !! k = Some client)
        ∧ (∀ k', clients f !! k' = Some client →
                 (∀ k'', clients f !! k'' = Some client → k'' = k') →
                 k = k')
        ∧ ((∀ k', clients f !! k' ≠ Some client) → k = getDefaultVersion))
  ∧ (∀ t v, client = clientValue t v →
       ((∃ k v', clients f !! k = Some (clientValue t v')) →
        FindClientAPIVersion visited client = None)
       ∧ ((∀ k v', clients f !! k ≠ Some (clientValue t v')) →
          FindClientAPIVersion visited client = Some getDefaultVersion)).
Proof.
  intros Hperm.
  assert (Hin : ∀ k c, (k, c) ∈ visited ↔ clients f !! k = Some c).
  { intros k c. rewrite Hperm. apply elem_of_map_to_list. }
  split.
  - intros Hc. unfold FindClientAPIVersion.
    destruct (rangeFind_comparable visited client Hc) as [[k0|] Hfind];
      rewrite Hfind.
    + pose proof (rangeFind_Some _ _ _ Hfind) as Hk0. apply Hin in Hk0.
      exists k0. split; [done|]. split; [done|]. split.
      * intros k' _ Huniq. by apply Huniq.
      * intros Hnone. by destruct (Hnone k0).
    + pose proof (rangeFind_None _ _ Hfind) as Hnone.
      exists getDefaultVersion. split; [done|]. split; [|split; [|done]].
      * intros [k' Hk']. exfalso. apply (Hnone k'). by apply Hin.
      * intros k' Hk' _. exfalso. apply (Hnone k'). by apply Hin.
  - intros t v ->. unfold FindClientAPIVersion. split.
    + intros (k & v' & Hk). rewrite rangeFind_same_type; [done|].
      exists k, v'. by apply Hin.
    + intros Hnone. rewrite rangeFind_other_types; [done|].
      intros k v' Hk. apply (Hnone k v'). by apply Hin.
Qed.

(** Membership in a trace that is a chain of appends. *)
Ltac on_trace := rewrite ?elem_of_app, ?elem_of_cons; auto 10.

(** ** What a call of [getDockerClientForVersion] leaves behind *)

(** The four ways in which [getDockerClientForVersion] returns: refused by
    the range check; [newVersionedClient] failed; the ping failed; or the
    client was created and answered the ping. *)
Lemma getDockerClientForVersion_cases ep version minV apiV st r st' :
  getDockerClientForVersion ep version minV apiV st = Some (r, st') →
  (∃ e, r = (nilClient, Some e) ∧ st' = st
        ∧ minV ≠ "" ∧ apiV ≠ "")
  ∨ (∃ c e e' w,
       newVersionedClient ep version (world st) = ((c, Some e), w)
       ∧ r = (nilClient, Some e')
       ∧ st' = {| world := w;
                  calls := calls st ++ [CallNewVersionedClient ep version] |})
  ∨ (∃ c w e e' w',
       newVersionedClient ep version (world st) = ((c, None), w)
       ∧ c ≠ nilClient ∧ Ping c w = (Some e, w')
       ∧ r = (nilClient, Some e')
       ∧ st' = {| world := w';
                  calls := (calls st ++ [CallNewVersionedClient ep version])
                           ++ [CallPing c] |})
  ∨ (∃ c w w',
       newVersionedClient ep version (world st) = ((c, None), w)
       ∧ c ≠ nilClient ∧ Ping c w = (None, w')
       ∧ r = (c, None)
       ∧ st' = {| world := w';
                  calls := (calls st ++ [CallNewVersionedClient ep version])
                           ++ [CallPing c] |}).
Proof using Type.
  unfold getDockerClientForVersion.
  match goal with
  | |- match ?guard with _ => _ end _ = _ → _ =>
      destruct guard as [e|] eqn:Hguard
  end.
  - intros [= <- <-]. left. exists e. split; [done|]. split; [done|].
    destruct (decide (minV = "")) as [->|Hmin]; [done|].
    destruct (decide (apiV = "")) as [->|Hapi]; [|done].
    by rewrite bool_decide_eq_true_2, bool_decide_eq_false_2 in Hguard
      by (done || by intros H; apply H).
  - unfold bind, call_newVersionedClient.
    destruct (newVersionedClient ep version (world st)) as [[c [e|]] w]
      eqn:Hnew.
    + intros [= <- <-]. right. left. by eexists c, e, _, w.
    + destruct c as [|addr|ty val]; [done|..]; unfold call_Ping; cbn;
        match goal with
        | |- context [Ping ?c w] =>
            destruct (Ping c w) as [[e|] w'] eqn:Hping
        end;
        intros [= <- <-]; right; right;
        first [right; by eexists _, w, w'|left; by eexists _, w, _, _, w'].
Qed.

(** X1. Whatever [getDockerClientForVersion] returns, it returns either a
    client that is not nil and a nil error, or a nil client and an error.  A
    client it returns is the one [newVersionedClient] made for this endpoint
    and version in this very call, and it has answered the ping; the call
    leaves at most these two calls on the trace, the ping after the
    creation. *)
Theorem getDockerClientForVersion_client_xor_error
    ep version minV apiV st client err st' :
  getDockerClientForVersion ep version minV apiV st
  = Some ((client, err), st') →
  (err = None ↔ client ≠ nilClient)
  ∧ (calls st' = calls st
     ∨ calls st' = (calls st ++ [CallNewVersionedClient ep version])%list
     ∨ ∃ c, calls st' = (calls st ++ [CallNewVersionedClient ep version;
                                      CallPing c])%list)
  ∧ (err = None →
     calls st' = (calls st ++ [CallNewVersionedClient ep version;
                               CallPing client])%list
     ∧ ∃ w, newVersionedClient ep version (world st) = ((client, None), w)
            ∧ Ping client w = (None, world st')).
Proof using Type.
  intros Hrun.
  apply getDockerClientForVersion_cases in Hrun
    as [(e & [= -> ->] & -> & _)
       |[(c & e & e' & w & Hnew & [= -> ->] & ->)
        |[(c & w & e & e' & w' & Hnew & Hc & Hping & [= -> ->] & ->)
         |(c & w & w' & Hnew & Hc & Hping & [= -> ->] & ->)]]]; cbn.
  - split; [by split|]. split; [by left|done].
  - split; [by split|]. split; [by right; left|done].
  - split; [by split|]. split; [|done].
    right. right. exists c. by rewrite <- app_assoc.
  - split; [by split|]. rewrite <- app_assoc. split; [by right; right; eexists|].
    intros _. split; [done|]. by exists w.
Qed.


(** ** What [findDockerVersions] builds *)

Lemma Get_if_Exists (env : Env) key :
  (if Exists env key then Get env key else "") = Get env key.
Proof using Type.
  unfold Exists, Get. destruct (env !! key); [|done].
  by rewrite bool_decide_eq_true_2 by eauto.
Qed.

(** The three ways in which the probe of the daemon returns: the probing
    client cannot be made; the daemon answers the version call with an
    error; or it answers with its [docker.Env]. *)
Lemma probeDaemonVersions_cases ctx ep st r st1 :
  probeDaemonVersions ctx ep st = Some (r, st1) →
  (∃ c e w,
     newVersionedClient ep minDockerAPIVersion (world st) = ((c, Some e), w)
     ∧ r = ("", "")
     ∧ st1 = {| world := w;
                calls := calls st
                         ++ [CallNewVersionedClient ep minDockerAPIVersion] |})
  ∨ (∃ c w env e w',
       newVersionedClient ep minDockerAPIVersion (world st) = ((c, None), w)
       ∧ c ≠ nilClient ∧ ctx ≠ nilContext
       ∧ VersionWithContext c (timeoutContext ctx) w = ((env, Some e), w')
       ∧ r = ("", "")
       ∧ st1 = {| world := w';
                  calls := (calls st
                            ++ [CallNewVersionedClient ep minDockerAPIVersion])
                           ++ [CallVersionWithContext c] |})
  ∨ (∃ c w env w',
       newVersionedClient ep minDockerAPIVersion (world st) = ((c, None), w)
       ∧ c ≠ nilClient ∧ ctx ≠ nilContext
       ∧ VersionWithContext c (timeoutContext ctx) w = ((Some env, None), w')
       ∧ r = (Get env minAPIVersionKey, Get env apiVersionKey)
       ∧ st1 = {| world := w';
                  calls := (calls st
                            ++ [CallNewVersionedClient ep minDockerAPIVersion])
                           ++ [CallVersionWithContext c] |}).
Proof using Type.
  unfold probeDaemonVersions. unfold bind at 1.
  unfold call_newVersionedClient.
  destruct (newVersionedClient ep minDockerAPIVersion (world st))
    as [[c [e|]] w] eqn:Hnew; cbn.
  { intros [= <- <-]. left. by exists c, e, w. }
  destruct (decide (ctx = nilContext)) as [->|Hctx]; [done|].
  assert (Hderived : WithTimeout ctx = ret (timeoutContext ctx))
    by by destruct ctx.
  rewrite Hderived. unfold bind at 1. unfold ret at 1.
  unfold bind at 1. unfold call_VersionWithContext.
  destruct (decide (c = nilClient)) as [->|Hc]; [done|].
  assert (Hcall :
    ∀ k : option Env * option error → M (string * string),
      match
        match c with
        | nilClient => None
        | _ =>
            let '(r0, w0) := VersionWithContext c (timeoutContext ctx) w in
            Some (r0, {| world := w0;
                         calls := (calls st
                                   ++ [CallNewVersionedClient ep
                                         minDockerAPIVersion])
                                  ++ [CallVersionWithContext c] |})
        end
      with
      | Some (a, st') => k a st'
      | None => None
      end
      = k (VersionWithContext c (timeoutContext ctx) w).1
          {| world := (VersionWithContext c (timeoutContext ctx) w).2;
             calls := (calls st
                       ++ [CallNewVersionedClient ep minDockerAPIVersion])
                      ++ [CallVersionWithContext c] |}).
  { intros k. destruct c; [done|..];
      by destruct (VersionWithContext _ _ w). }
  cbn [world calls]. rewrite Hcall. clear Hcall.
  destruct (VersionWithContext c (timeoutContext ctx) w)
    as [[env [e|]] w'] eqn:Hver; cbn.
  { intros [= <- <-]. right. left. by exists c, w, env, e, w'. }
  destruct env as [env|]; [|done]. rewrite !Get_if_Exists.
  intros [= <- <-]. right. right. by exists c, w, env, w'.
Qed.

Lemma getDockerClientForVersion_trace_grows ep version minV apiV st r st' :
  getDockerClientForVersion ep version minV apiV st = Some (r, st') →
  ∀ call, call ∈ calls st → call ∈ calls st'.
Proof using Type.
  intros Hrun call Hin.
  apply getDockerClientForVersion_cases in Hrun
    as [(e & _ & -> & _)
       |[(c & e & e' & w & _ & _ & ->)
        |[(c & w & e & e' & w' & _ & _ & _ & _ & ->)
         |(c & w & w' & _ & _ & _ & _ & ->)]]]; cbn; on_trace.
Qed.

Lemma findDockerVersions_loop_trace_grows ep minV apiV versions :
  ∀ acc st cs st',
    findDockerVersions_loop ep minV apiV versions acc st = Some (cs, st') →
    ∀ call, call ∈ calls st → call ∈ calls st'.
Proof using Type.
  induction versions as [|version rest IH]; intros acc st cs st' Hrun.
  - cbn in Hrun. unfold ret in Hrun. by simplify_eq.
  - cbn [findDockerVersions_loop] in Hrun. unfold bind in Hrun at 1.
    destruct (getDockerClientForVersion ep version minV apiV st)
      as [[[dockerClient err] st1]|] eqn:Hget; [|done].
    intros call Hin.
    eapply getDockerClientForVersion_trace_grows in Hin; [|exact Hget].
    destruct err; eapply IH; eauto.
Qed.

(** A client stored under a version: the version is one of the known ones,
    the client is not nil, and both its creation for that version and its
    ping are on the trace. *)
Definition storedAfterPing (ep : string) (known : list string)
    (trace : list Call) (k : string) (c : Client) : Prop :=
  k ∈ known ∧ c ≠ nilClient
  ∧ CallNewVersionedClient ep k ∈ trace ∧ CallPing c ∈ trace.

Lemma findDockerVersions_loop_stored ep minV apiV known versions :
  ∀ acc st cs st',
    (∀ v, v ∈ versions → v ∈ known) →
    findDockerVersions_loop ep minV apiV versions acc st = Some (cs, st') →
    (∀ k c, acc !! k = Some c → storedAfterPing ep known (calls st) k c) →
    ∀ k c, cs !! k = Some c → storedAfterPing ep known (calls st') k c.
Proof using Type.
  induction versions as [|version rest IH];
    intros acc st cs st' Hknown Hrun Hacc.
  - cbn in Hrun. unfold ret in Hrun. by simplify_eq.
  - cbn [findDockerVersions_loop] in Hrun. unfold bind in Hrun at 1.
    destruct (getDockerClientForVersion ep version minV apiV st)
      as [[[dockerClient err] st1]|] eqn:Hget; [|done].
    assert (Hgrow := getDockerClientForVersion_trace_grows _ _ _ _ _ _ _ Hget).
    assert (Hold : ∀ k c, acc !! k = Some c →
                          storedAfterPing ep known (calls st1) k c).
    { intros k c Hk. destruct (Hacc k c Hk) as (? & ? & ? & ?).
      repeat split; auto. }
    destruct err as [e|].
    + eapply IH; [|exact Hrun|exact Hold]. intros v Hv. apply Hknown. by right.
    + eapply IH; [|exact Hrun|]. { intros v Hv. apply Hknown. by right. }
      intros k c. rewrite lookup_insert. case_decide as Hk; [|by apply Hold].
      intros [= <-]. subst k.
      apply getDockerClientForVersion_cases in Hget
        as [(e & [= _ ?] & _)
           |[(c & e & e' & w & _ & [= _ ?] & _)
            |[(c & w & e & e' & w' & _ & _ & _ & [= _ ?] & _)
             |(c & w & w' & _ & Hc & _ & [= ->] & ->)]]]; try done.
      split; [apply Hknown; left|]. split; [done|]. cbn. on_trace.
Qed.

(** X2. In the map that [findDockerVersions] returns, every key is one of
    the known API versions and no client is nil; for every entry, the
    creation of a client for that endpoint and version and the ping of the
    stored client are on the trace of calls.  Nothing is taken off the
    trace, and the first call made is the creation of the probing client for
    the minimum API version. *)
Theorem findDockerVersions_stores_pinged_clients ctx ep st cs st' :
  findDockerVersions ctx ep st = Some (cs, st') →
  (∀ k c, cs !! k = Some c →
          k ∈ GetKnownAPIVersions ∧ c ≠ nilClient
          ∧ CallNewVersionedClient ep k ∈ calls st'
          ∧ CallPing c ∈ calls st')
  ∧ ∃ later,
      calls st'
      = (calls st ++ CallNewVersionedClient ep minDockerAPIVersion :: later)%list.
Proof using Type.
  unfold findDockerVersions. unfold bind at 1.
  destruct (probeDaemonVersions ctx ep st) as [[[minV apiV] st1]|] eqn:Hprobe;
    [|done].
  intros Hloop. split.
  - intros k c Hk.
    eapply (findDockerVersions_loop_stored ep minV apiV GetKnownAPIVersions);
      [done|exact Hloop| |exact Hk].
    intros k0 c0. by rewrite lookup_empty.
  - assert (Hprefix : ∃ l, calls st1
              = (calls st ++ CallNewVersionedClient ep minDockerAPIVersion :: l)%list).
    { apply probeDaemonVersions_cases in Hprobe
        as [(c & e & w & _ & _ & ->)
           |[(c & w & env & e & w' & _ & _ & _ & _ & _ & ->)
            |(c & w & env & w' & _ & _ & _ & _ & _ & ->)]]; cbn;
        [by exists []|rewrite <- app_assoc; by eexists..]. }
    destruct Hprefix as [l Hl].
    assert (Hext : ∀ versions acc s0 cs0 s1,
               findDockerVersions_loop ep minV apiV versions acc s0
               = Some (cs0, s1) → ∃ l', calls s1 = (calls s0 ++ l')%list).
    { clear. induction versions as [|version rest IH];
        intros acc s0 cs0 s1 Hrun.
      - cbn in Hrun. unfold ret in Hrun. simplify_eq. exists [].
        by rewrite app_nil_r.
      - cbn [findDockerVersions_loop] in Hrun. unfold bind in Hrun at 1.
        destruct (getDockerClientForVersion ep version minV apiV s0)
          as [[[dockerClient err] s2]|] eqn:Hget; [|done].
        assert (∃ l2, calls s2 = (calls s0 ++ l2)%list) as [l2 Hl2].
        { apply getDockerClientForVersion_cases in Hget
            as [(e & _ & -> & _)
               |[(c & e & e' & w & _ & _ & ->)
                |[(c & w & e & e' & w' & _ & _ & _ & _ & ->)
                 |(c & w & w' & _ & _ & _ & _ & ->)]]]; cbn;
            [exists []; by rewrite app_nil_r
            |by eexists
            |rewrite <- app_assoc; by eexists..]. }
        assert (∃ l3, calls s1 = (calls s2 ++ l3)%list) as [l3 Hl3]
          by (destruct err; eapply IH; eauto).
        exists (l2 ++ l3)%list. by rewrite Hl3, Hl2, app_assoc. }
    destruct (Hext _ _ _ _ _ Hloop) as [l' Hl'].
    exists (l ++ l')%list. rewrite Hl', Hl. by rewrite <- !app_assoc.
Qed.

(** The daemon's range is unknown: the probing client could not be made, or
    the daemon did not answer its version, or the answer has no (or an
    empty) [MinAPIVersion] or [ApiVersion]. *)
Definition daemonRangeUnknown (ctx : Context) (ep : string)
    (st : State World) : Prop :=
  (∃ c e w,
     newVersionedClient ep minDockerAPIVersion (world st) = ((c, Some e), w))
  ∨ (∃ c w env e w',
       newVersionedClient ep minDockerAPIVersion (world st) = ((c, None), w)
       ∧ VersionWithContext c (timeoutContext ctx) w = ((env, Some e), w'))
  ∨ (∃ c w env w',
       newVersionedClient ep minDockerAPIVersion (world st) = ((c, None), w)
       ∧ VersionWithContext c (timeoutContext ctx) w = ((Some env, None), w')
       ∧ (Get env minAPIVersionKey = "" ∨ Get env apiVersionKey = "")).

Lemma probeDaemonVersions_unknown ctx ep st minV apiV st1 :
  daemonRangeUnknown ctx ep st →
  probeDaemonVersions ctx ep st = Some ((minV, apiV), st1) →
  minV = "" ∨ apiV = "".
Proof using Type.
  intros Hunknown Hprobe.
  apply probeDaemonVersions_cases in Hprobe
    as [(c & e & w & _ & [= -> ->] & _)
       |[(c & w & env & e & w' & _ & _ & _ & _ & [= -> ->] & _)
        |(c & w & env & w' & Hnew & _ & _ & Hver & [= -> ->] & _)]];
    [by left..|].
  destruct Hunknown
    as [(c0 & e & w0 & Hnew0)
       |[(c0 & w0 & env0 & e & w0' & Hnew0 & Hver0)
        |(c0 & w0 & env0 & w0' & Hnew0 & Hver0 & Hempty)]];
    rewrite Hnew in Hnew0; simplify_eq.
  - rewrite Hver in Hver0. by simplify_eq.
  - rewrite Hver in Hver0. by simplify_eq.
Qed.

Lemma findDockerVersions_loop_attempts_all ep minV apiV versions :
  minV = "" ∨ apiV = "" →
  ∀ acc st cs st',
    findDockerVersions_loop ep minV apiV versions acc st = Some (cs, st') →
    ∀ v, v ∈ versions → CallNewVersionedClient ep v ∈ calls st'.
Proof using Type.
  intros Hoff. induction versions as [|version rest IH];
    intros acc st cs st' Hrun v Hv.
  - by apply elem_of_nil in Hv.
  - cbn [findDockerVersions_loop] in Hrun. unfold bind in Hrun at 1.
    destruct (getDockerClientForVersion ep version minV apiV st)
      as [[[dockerClient err] st1]|] eqn:Hget; [|done].
    assert (Hloop : ∃ acc', findDockerVersions_loop ep minV apiV rest acc' st1
                            = Some (cs, st'))
      by (destruct err; eauto).
    destruct Hloop as [acc' Hloop].
    apply elem_of_cons in Hv as [->|Hv]; [|by eapply IH].
    eapply findDockerVersions_loop_trace_grows; [exact Hloop|].
    apply getDockerClientForVersion_cases in Hget
      as [(e & _ & _ & Hmin & Hapi)
         |[(c & e & e' & w & _ & _ & ->)
          |[(c & w & e & e' & w' & _ & _ & _ & _ & ->)
           |(c & w & w' & _ & _ & _ & _ & ->)]]]; cbn;
      [by destruct Hoff|on_trace..].
Qed.

(** X3. When the daemon's range is unknown -- the probing client cannot be
    made, the daemon does not answer its version, or the answer lacks
    [MinAPIVersion] or [ApiVersion] or has one of them empty --
    [findDockerVersions] filters nothing: it asks [newVersionedClient] for a
    client of every known API version, whatever [Matches] would say. *)
Theorem findDockerVersions_tries_every_version_without_range
    ctx ep st cs st' :
  daemonRangeUnknown ctx ep st →
  findDockerVersions ctx ep st = Some (cs, st') →
  ∀ v, v ∈ GetKnownAPIVersions → CallNewVersionedClient ep v ∈ calls st'.
Proof using Type.
  intros Hunknown. unfold findDockerVersions. unfold bind at 1.
  destruct (probeDaemonVersions ctx ep st) as [[[minV apiV] st1]|] eqn:Hprobe;
    [|done].
  intros Hloop.
  eapply findDockerVersions_loop_attempts_all; [|exact Hloop].
  by eapply probeDaemonVersions_unknown.
Qed.


(** ** The factory's queries *)

(** [f.GetClient(version)] is declared per platform, outside the files at
    hand ([getClient] is "wrapped by GetClient so that it can do
    platform-specific magic"); [getAgentVersions()] is a table of package
    [clientfactory], declared per platform as well. *)
Variable GetClient : factory → string → Client * option error.
Variable getAgentVersions : list string.

(** [f.GetDefaultClient()] *)
Definition GetDefaultClient (f : factory) : Client * option error :=
  GetClient f getDefaultVersion.

(** The loop [for _, testVersion := range ...] shared by
    [FindSupportedAPIVersions] and [FindKnownAPIVersions], with the slice
    appended to so far. *)
Fixpoint appendVersionsWithClient (f : factory) (testVersions : list string)
    (found : list string) : list string :=
  match testVersions with
  | [] => found
  | testVersion :: rest =>
      match GetClient f testVersion with
      | (_, Some _) => (* continue *) appendVersionsWithClient f rest found
      | (_, None) => appendVersionsWithClient f rest (found ++ [testVersion])
      end
  end.

(** [f.FindSupportedAPIVersions()] *)
Definition FindSupportedAPIVersions (f : factory) : list string :=
  appendVersionsWithClient f getAgentVersions [].

(** [f.FindKnownAPIVersions()] *)
Definition FindKnownAPIVersions (f : factory) : list string :=
  appendVersionsWithClient f GetKnownAPIVersions [].

Lemma appendVersionsWithClient_filter f testVersions :
  ∀ found,
    appendVersionsWithClient f testVersions found
    = (found ++ filter (λ v, (GetClient f v).2 = None) testVersions)%list.
Proof using Type.
  induction testVersions as [|v rest IH]; intros found;
    cbn [appendVersionsWithClient].
  - by rewrite filter_nil, app_nil_r.
  - destruct (GetClient f v) as [c [e|]] eqn:Hget.
    + rewrite IH, filter_cons_False; [done|]. by rewrite Hget.
    + rewrite IH, filter_cons_True, <- app_assoc; [done|]. by rewrite Hget.
Qed.

(** X4. [FindSupportedAPIVersions] returns the agent's versions for which
    [GetClient] gives no error, and [FindKnownAPIVersions] the known API
    versions for which it gives none: each of them in the order of its
    table, each version as often as the table has it, and none that the
    table does not have. *)
Theorem Find_APIVersions_filters_its_table (f : factory) :
  FindSupportedAPIVersions f
  = filter (λ v, (GetClient f v).2 = None) getAgentVersions
  ∧ FindKnownAPIVersions f
    = filter (λ v, (GetClient f v).2 = None) GetKnownAPIVersions
  ∧ FindSupportedAPIVersions f `sublist_of` getAgentVersions
  ∧ FindKnownAPIVersions f `sublist_of` GetKnownAPIVersions
  ∧ (∀ v, v ∈ FindSupportedAPIVersions f
          ↔ v ∈ getAgentVersions ∧ (GetClient f v).2 = None).
Proof using Type.
  unfold FindSupportedAPIVersions, FindKnownAPIVersions.
  rewrite !appendVersionsWithClient_filter. cbn.
  split; [done|]. split; [done|].
  split; [apply sublist_filter|]. split; [apply sublist_filter|].
  intros v. rewrite list_elem_of_filter. apply and_comm.
Qed.

Lemma getClient_None_iff (f : factory) v :
  (getClient f v).2 = None ↔ is_Some (clients f !! v).
Proof using Type.
  unfold getClient. destruct (clients f !! v); cbn; split; eauto.
  - by intros [=].
  - by intros [? [=]].
Qed.

(** X5. On a platform whose [GetClient] is the lookup [getClient], the
    factory that [findDockerVersions] builds answers [FindKnownAPIVersions]
    with exactly the versions it holds a client for, in the order of the
    known API versions; [getClient] then hands that client out, and fails,
    with a nil client, for every other version. *)
Theorem FindKnownAPIVersions_lists_the_stored_versions ctx ep st cs st' :
  (∀ f v, GetClient f v = getClient f v) →
  findDockerVersions ctx ep st = Some (cs, st') →
  (∀ v, v ∈ FindKnownAPIVersions {| endpoint := ep; clients := cs |}
        ↔ is_Some (cs !! v))
  ∧ (∀ v c, cs !! v = Some c →
            getClient {| endpoint := ep; clients := cs |} v = (c, None))
  ∧ (∀ v, cs !! v = None →
          ∃ e, getClient {| endpoint := ep; clients := cs |} v
               = (nilClient, Some e)).
Proof using Type.
  intros Hplatform Hbuilt. split; [|split].
  - intros v. unfold FindKnownAPIVersions.
    rewrite appendVersionsWithClient_filter. cbn.
    rewrite list_elem_of_filter, Hplatform, getClient_None_iff. cbn.
    split; [by intros [? _]|]. intros [c Hc]. split; [by eexists|].
    unfold findDockerVersions in Hbuilt. unfold bind at 1 in Hbuilt.
    destruct (probeDaemonVersions ctx ep st) as [[[minV apiV] st1]|]; [|done].
    eapply (findDockerVersions_loop_stored ep minV apiV GetKnownAPIVersions);
      [done|exact Hbuilt| |exact Hc].
    intros k0 c0. by rewrite lookup_empty.
  - intros v c Hv. unfold getClient. cbn. by rewrite Hv.
  - intros v Hv. unfold getClient. cbn. rewrite Hv. by eexists.
Qed.


(** ** Fresh clients make the version lookup exact *)

Lemma findDockerVersions_loop_injective ep minV apiV
    (made : World → Client → Prop) versions :
  (∀ e v w c err w',
     newVersionedClient e v w = ((c, err), w') →
     (∀ c', made w c' → made w' c')
     ∧ (err = None → ¬ made w c ∧ made w' c)) →
  (∀ c w r w', Ping c w = (r, w') → ∀ c', made w c' → made w' c') →
  ∀ (acc : gmap string Client) st cs st',
    findDockerVersions_loop ep minV apiV versions acc st = Some (cs, st') →
    (∀ k c, acc !! k = Some c → made (world st) c) →
    (∀ k1 k2 c, acc !! k1 = Some c → acc !! k2 = Some c → k1 = k2) →
    ∀ k1 k2 c, cs !! k1 = Some c → cs !! k2 = Some c → k1 = k2.
Proof using Type.
  intros Hnew Hping. induction versions as [|version rest IH];
    intros acc st cs st' Hrun Hmade Hinj.
  - cbn in Hrun. unfold ret in Hrun. by simplify_eq.
  - cbn [findDockerVersions_loop] in Hrun. unfold bind in Hrun at 1.
    destruct (getDockerClientForVersion ep version minV apiV st)
      as [[r st1]|] eqn:Hget; [|done].
    apply getDockerClientForVersion_cases in Hget
      as [(e & -> & -> & _)
         |[(c & e & e' & w & Hn & -> & ->)
          |[(c & w & e & e' & w' & Hn & Hc & Hp & -> & ->)
           |(c & w & w' & Hn & Hc & Hp & -> & ->)]]]; cbn in Hrun.
    + eapply IH; eauto.
    + eapply IH; [exact Hrun| |exact Hinj]. cbn. intros k c0 Hk.
      destruct (Hnew _ _ _ _ _ _ Hn) as [Hmono _]. eauto.
    + eapply IH; [exact Hrun| |exact Hinj]. cbn. intros k c0 Hk.
      destruct (Hnew _ _ _ _ _ _ Hn) as [Hmono _].
      eapply Hping; [exact Hp|]. eauto.
    + destruct (Hnew _ _ _ _ _ _ Hn) as [Hmono Hfresh].
      destruct (Hfresh eq_refl) as [Hnotyet Hnow].
      eapply IH; [exact Hrun| |]; cbn.
      * intros k c0. rewrite lookup_insert. case_decide.
        -- intros [= <-]. eapply Hping; eauto.
        -- intros Hk. eapply Hping; [exact Hp|]. eauto.
      * intros k1 k2 c0. rewrite !lookup_insert.
        repeat case_decide; subst; try done.
        -- intros [= <-] Hk2. exfalso. apply Hnotyet. eauto.
        -- intros Hk1 [= <-]. exfalso. apply Hnotyet. eauto.
        -- apply Hinj.
Qed.

(** X6. When [newVersionedClient] never hands out a client it has handed out
    before, the factory that [findDockerVersions] builds holds every client
    under one version only, and [FindClientAPIVersion] undoes the lookup:
    for a client stored under a version, nil or a pointer, it returns that
    version, whatever the order in which the map is visited, and [getClient]
    gives the client back for it.  For a stored client of a dynamic type
    that is not comparable the lookup panics, on the comparison of the
    client with its own entry if not before.  ([made w c]: client [c] has
    been handed out by the time the world is [w].) *)
Theorem FindClientAPIVersion_inverts_lookup_of_fresh_clients
    ctx ep st cs st' (made : World → Client → Prop) :
  (∀ e v w c err w',
     newVersionedClient e v w = ((c, err), w') →
     (∀ c', made w c' → made w' c')
     ∧ (err = None → ¬ made w c ∧ made w' c)) →
  (∀ c w r w', Ping c w = (r, w') → ∀ c', made w c' → made w' c') →
  findDockerVersions ctx ep st = Some (cs, st') →
  (∀ k1 k2 c, cs !! k1 = Some c → cs !! k2 = Some c → k1 = k2)
  ∧ (∀ visited k c,
       visited ≡ₚ map_to_list cs → cs !! k = Some c →
       (comparable c →
        FindClientAPIVersion visited c = Some k
        ∧ getClient {| endpoint := ep; clients := cs |} k = (c, None))
       ∧ (∀ t v, c = clientValue t v →
                 FindClientAPIVersion visited c = None)).
Proof using Type.
  intros Hnew Hping Hbuilt.
  assert (Hinj : ∀ k1 k2 c, cs !! k1 = Some c → cs !! k2 = Some c → k1 = k2).
  { unfold findDockerVersions in Hbuilt. unfold bind at 1 in Hbuilt.
    destruct (probeDaemonVersions ctx ep st) as [[[minV apiV] st1]|]; [|done].
    eapply findDockerVersions_loop_injective; eauto.
    - intros k c. by rewrite lookup_empty.
    - intros k1 k2 c. by rewrite lookup_empty. }
  split; [exact Hinj|].
  intros visited k c Hperm Hk.
  assert (Hin : ∀ k0 c0, (k0, c0) ∈ visited ↔ cs !! k0 = Some c0).
  { intros k0 c0. rewrite Hperm. apply elem_of_map_to_list. }
  split.
  - intros Hc. split; [|unfold getClient; cbn; by rewrite Hk].
    unfold FindClientAPIVersion.
    destruct (rangeFind_comparable visited c Hc) as [[k0|] Hfind];
      rewrite Hfind.
    + apply rangeFind_Some, Hin in Hfind. f_equal. by eapply Hinj.
    + exfalso. eapply rangeFind_None; [exact Hfind|]. by apply Hin.
  - intros t v ->. unfold FindClientAPIVersion.
    rewrite rangeFind_same_type; [done|]. exists k, v. by apply Hin.
Qed.


(** ** Where the construction can panic *)

(** X14. Building the factory panics only on a nil value.  With a context
    that is not nil, a [newVersionedClient] that never answers with a nil
    client and a nil error and a [VersionWithContext] that never answers
    with a nil [*docker.Env] and a nil error, [findDockerVersions] returns
    (calls into the client library are taken to return); it also returns
    with a nil context when the probing client cannot be made, the context
    being used only after that.  It panics when the probing client comes
    back nil with a nil error, when the probing client is made and the
    context is nil, and when the daemon's answer is a nil [*docker.Env] with
    a nil error.  [getDockerClientForVersion] panics, on [client.Ping], when
    the client for a version that is not filtered out comes back nil with a
    nil error.  Neither function checks these values against nil. *)
Theorem findDockerVersions_panics_only_on_nil_values ctx ep st :
  (ctx ≠ nilContext → neverNilWithoutError → neverNilEnvWithoutError →
   is_Some (findDockerVersions ctx ep st))
  ∧ (∀ c e w,
       newVersionedClient ep minDockerAPIVersion (world st)
       = ((c, Some e), w) →
       neverNilWithoutError →
       is_Some (findDockerVersions ctx ep st))
  ∧ (∀ w,
       newVersionedClient ep minDockerAPIVersion (world st)
       = ((nilClient, None), w) →
       findDockerVersions ctx ep st = None)
  ∧ (∀ c w,
       newVersionedClient ep minDockerAPIVersion (world st)
       = ((c, None), w) →
       ctx = nilContext →
       findDockerVersions ctx ep st = None)
  ∧ (∀ c w w',
       newVersionedClient ep minDockerAPIVersion (world st)
       = ((c, None), w) →
       VersionWithContext c (timeoutContext ctx) w = ((None, None), w') →
       findDockerVersions ctx ep st = None)
  ∧ (∀ version minV apiV w,
       minV = "" ∨ apiV = "" ∨ passesRangeCheck minV apiV version →
       newVersionedClient ep version (world st) = ((nilClient, None), w) →
       getDockerClientForVersion ep version minV apiV st = None).
Proof using Type.
  split; [apply findDockerVersions_returns|].
  split; [|split; [|split; [|split]]].
  - intros c e w Hnew Hlib. unfold findDockerVersions, probeDaemonVersions.
    unfold bind at 1 2. unfold call_newVersionedClient. rewrite Hnew. cbn.
    by apply findDockerVersions_loop_returns.
  - intros w Hnew. unfold findDockerVersions, probeDaemonVersions.
    unfold bind at 1 2. unfold call_newVersionedClient. rewrite Hnew. cbn.
    by destruct ctx.
  - intros c w Hnew ->. unfold findDockerVersions, probeDaemonVersions.
    unfold bind at 1 2. unfold call_newVersionedClient. by rewrite Hnew.
  - intros c w w' Hnew Hver.
    destruct (findDockerVersions ctx ep st) as [[cs st']|] eqn:Hrun; [|done].
    exfalso. unfold findDockerVersions in Hrun. unfold bind at 1 in Hrun.
    destruct (probeDaemonVersions ctx ep st) as [[r st1]|] eqn:Hprobe;
      [|done].
    apply probeDaemonVersions_cases in Hprobe
      as [(c0 & e & w0 & Hnew0 & _)
         |[(c0 & w0 & env & e & w0' & Hnew0 & _ & _ & Hver0 & _)
          |(c0 & w0 & env & w0' & Hnew0 & _ & _ & Hver0 & _)]];
      rewrite Hnew in Hnew0; simplify_eq;
      rewrite Hver in Hver0; by simplify_eq.
  - intros version minV apiV w Hopen Hnew. unfold getDockerClientForVersion.
    match goal with
    | |- match ?guard with _ => _ end _ = _ =>
        assert (Hguard : guard = None)
    end.
    { destruct Hopen as [-> | [-> | [Hlt Hgt]]].
      - done.
      - by rewrite andb_false_r.
      - rewrite Hlt, Hgt. by destruct (_ && _). }
    rewrite Hguard. unfold bind, call_newVersionedClient. by rewrite Hnew.
Qed.


End Factory.

(** ** The general statements at the concrete daemon *)

Lemma compareDockerVersions_flip a b :
  compareDockerVersions a b = Lt → compareDockerVersions b a = Gt.
Proof.
  unfold compareDockerVersions. intros H.
  rewrite (N.compare_antisym a.1 b.1), (N.compare_antisym a.2 b.2).
  destruct (a.1 ?= b.1)%N; cbn in *; try done. by rewrite H.
Qed.

Lemma selectorMatches_less v m :
  parsedLt v m → selectorMatches v ("<" +:+ m) = (true, None).
Proof.
  change ("<" +:+ m) with (String "<" m).
  unfold parsedLt, selectorMatches. cbv iota beta.
  rewrite decide_True by done. unfold compareWith.
  destruct (parseDockerVersion v), (parseDockerVersion m); try done.
  intros H. by rewrite bool_decide_eq_true_2.
Qed.

Lemma selectorMatches_more v m :
  parsedLt m v → selectorMatches v (">" +:+ m) = (true, None).
Proof.
  change (">" +:+ m) with (String ">" m).
  unfold parsedLt, selectorMatches. cbv iota beta.
  rewrite decide_False, decide_True by done. unfold compareWith.
  destruct (parseDockerVersion v), (parseDockerVersion m); try done.
  intros H. by rewrite (compareDockerVersions_flip _ _ H).
Qed.

Lemma version_negotiation_daemon_1_21_to_1_30 :
  (∃ e, getDockerClientForVersion nat demoNewVersionedClient demoPing
          selectorMatches "unix:///var/run/docker.sock" "1.17" "1.21" "1.30"
          demoState
        = Some ((nilClient, Some e), demoState))
  ∧ (∃ cs st',
       findDockerVersions nat demoNewVersionedClient demoVersionWithContext
         demoPing selectorMatches "1.17" demoKnownAPIVersions
         demoContext "unix:///var/run/docker.sock" demoState = Some (cs, st')
       ∧ dom cs = {["1.21"; "1.25"; "1.30"]}
       ∧ ∀ k c, cs !! k = Some c → ¬ parsedLt k "1.21" ∧ ¬ parsedLt "1.30" k).
Proof.
  destruct (version_negotiation_respects_daemon_range nat
              demoNewVersionedClient demoVersionWithContext demoPing
              selectorMatches "1.17" demoKnownAPIVersions parsedLt
              selectorMatches_less selectorMatches_more
              "unix:///var/run/docker.sock" "1.21" "1.30")
    as (Hrefuse & _ & Hrange); [done|done|].
  split.
  - apply Hrefuse. left. vm_compute. reflexivity.
  - eexists _, _. split; [vm_compute; reflexivity|]. split.
    + vm_compute. reflexivity.
    + intros k c Hk.
      eapply (Hrange demoContext demoState);
        [reflexivity|reflexivity|vm_compute; reflexivity..|exact Hk].
Defined.

(** C9, as the claim states it, fails: a client whose dynamic type is not
    comparable is stored under ["1.21"], and looking it up panics instead of
    returning that key; so does looking up another client of that dynamic
    type, which is not stored, instead of falling back to the default
    version. *)
Lemma FindClientAPIVersion_panics_on_a_client_that_is_not_comparable :
  let f := {| endpoint := "unix:///var/run/docker.sock";
              clients := <["1.21" := clientValue 1 1]> ∅ |} in
  let visited := [("1.21", clientValue 1 1)] in
  visited ≡ₚ map_to_list (clients f)
  ∧ clients f !! "1.21" = Some (clientValue 1 1)
  ∧ FindClientAPIVersion "1.17" visited (clientValue 1 1) = None
  ∧ (∀ k, clients f !! k ≠ Some (clientValue 1 2))
  ∧ FindClientAPIVersion "1.17" visited (clientValue 1 2) = None.
Proof.
  intros f visited.
  split; [by vm_compute|]. split; [reflexivity|]. split; [reflexivity|].
  split; [|reflexivity].
  intros k. cbn [clients f]. rewrite lookup_insert, lookup_empty.
  by case_decide.
Qed.

Lemma FindClientAPIVersion_two_clients :
  let f := {| endpoint := "unix:///var/run/docker.sock";
              clients := <["1.25" := clientAt 2]> (<["1.21" := clientAt 1]> ∅) |} in
  let visited := [("1.21", clientAt 1); ("1.25", clientAt 2)] in
  visited ≡ₚ map_to_list (clients f)
  ∧ FindClientAPIVersion "1.21" visited (clientAt 1) = Some "1.21"
  ∧ FindClientAPIVersion "1.21" visited (clientAt 2) = Some "1.25"
  ∧ FindClientAPIVersion "1.21" visited nilClient = Some "1.21"
  ∧ FindClientAPIVersion "1.21" visited (clientAt 7) = Some "1.21"
  ∧ FindClientAPIVersion "1.21" visited (clientValue 1 1) = Some "1.21".
Proof.
  intros f visited.
  assert (Hperm : visited ≡ₚ map_to_list (clients f)).
  { vm_compute. apply perm_swap. }
  destruct (FindClientAPIVersion_total_on_comparable_clients "1.21" f visited
              (clientAt 2) Hperm)
    as [Hptr _].
  destruct (Hptr I) as (k & Hk & _ & Hkey & _).
  destruct (FindClientAPIVersion_total_on_comparable_clients "1.21" f visited
              (clientValue 1 1) Hperm)
    as [_ Hval].
  destruct (Hval 1%positive 1%positive eq_refl) as [_ Hdefault].
  split; [exact Hperm|]. split; [reflexivity|].
  split; [|split; [reflexivity|split; [reflexivity|]]].
  - rewrite Hk. f_equal. apply Hkey; [reflexivity|].
    intros k'. cbn [clients f]. rewrite !lookup_insert, lookup_empty.
    repeat case_decide; congruence.
  - apply Hdefault.
    intros k0 v'. cbn [clients f]. rewrite !lookup_insert, lookup_empty.
    repeat case_decide; congruence.
Defined.


Lemma getDockerClientForVersion_daemon_accepts_1_25 :
  ∃ st',
    getDockerClientForVersion nat demoNewVersionedClient demoPing
      selectorMatches "unix:///var/run/docker.sock" "1.25" "1.21" "1.30"
      demoState
    = Some ((clientAt 1, None), st')
    ∧ calls st'
      = [CallNewVersionedClient "unix:///var/run/docker.sock" "1.25";
         CallPing (clientAt 1)].
Proof.
  edestruct (getDockerClientForVersion_client_xor_error nat
               demoNewVersionedClient demoPing selectorMatches
               "unix:///var/run/docker.sock" "1.25" "1.21" "1.30" demoState
               (clientAt 1) None)
    as (_ & _ & Hsucc); [vm_compute; reflexivity|].
  eexists. split; [vm_compute; reflexivity|].
  destruct (Hsucc eq_refl) as [Htrace _]. exact Htrace.
Defined.

Lemma findDockerVersions_daemon_1_21_to_1_30_trace :
  ∃ cs st',
    findDockerVersions nat demoNewVersionedClient demoVersionWithContext
      demoPing selectorMatches "1.17" demoKnownAPIVersions
      demoContext "unix:///var/run/docker.sock" demoState = Some (cs, st')
    ∧ cs !! "1.25" = Some (clientAt 3)
    ∧ CallNewVersionedClient "unix:///var/run/docker.sock" "1.25" ∈ calls st'
    ∧ CallPing (clientAt 3) ∈ calls st'.
Proof.
  edestruct (findDockerVersions_stores_pinged_clients nat
               demoNewVersionedClient demoVersionWithContext demoPing
               selectorMatches "1.17" demoKnownAPIVersions
               demoContext "unix:///var/run/docker.sock" demoState)
    as [Hstored _]; [vm_compute; reflexivity|].
  eexists _, _. split; [vm_compute; reflexivity|].
  split; [vm_compute; reflexivity|].
  destruct (Hstored "1.25" (clientAt 3)) as (_ & _ & Hnew & Hping);
    [vm_compute; reflexivity|].
  split; [exact Hnew|exact Hping].
Defined.

Lemma findDockerVersions_old_daemon_tries_1_32 :
  ∃ cs st',
    findDockerVersions nat demoNewVersionedClient oldDaemonVersionWithContext
      demoPing selectorMatches "1.17" demoKnownAPIVersions
      demoContext "unix:///var/run/docker.sock" demoState = Some (cs, st')
    ∧ CallNewVersionedClient "unix:///var/run/docker.sock" "1.32" ∈ calls st'
    ∧ is_Some (cs !! "1.32").
Proof.
  eexists _, _. split; [vm_compute; reflexivity|]. split.
  - eapply (findDockerVersions_tries_every_version_without_range nat
              demoNewVersionedClient oldDaemonVersionWithContext demoPing
              selectorMatches "1.17" demoKnownAPIVersions
              demoContext "unix:///var/run/docker.sock" demoState).
    + right. right. eexists _, _, _, _.
      split; [reflexivity|]. split; [reflexivity|]. left. reflexivity.
    + vm_compute. reflexivity.
    + unfold demoKnownAPIVersions. rewrite !elem_of_cons. auto 10.
  - eexists. vm_compute. reflexivity.
Defined.

Lemma FindKnownAPIVersions_daemon_1_21_to_1_30 :
  ∃ cs st',
    findDockerVersions nat demoNewVersionedClient demoVersionWithContext
      demoPing selectorMatches "1.17" demoKnownAPIVersions
      demoContext "unix:///var/run/docker.sock" demoState = Some (cs, st')
    ∧ FindKnownAPIVersions demoKnownAPIVersions getClient
        {| endpoint := "unix:///var/run/docker.sock"; clients := cs |}
      = ["1.21"; "1.25"; "1.30"]
    ∧ ∀ v, v ∈ ["1.21"; "1.25"; "1.30"] ↔ is_Some (cs !! v).
Proof.
  edestruct (FindKnownAPIVersions_lists_the_stored_versions nat
               demoNewVersionedClient demoVersionWithContext demoPing
               selectorMatches "1.17" demoKnownAPIVersions getClient
               demoContext "unix:///var/run/docker.sock" demoState)
    as (Hlisted & _ & _); [reflexivity|vm_compute; reflexivity|].
  eexists _, _. split; [vm_compute; reflexivity|].
  split; [vm_compute; reflexivity|].
  intros v. rewrite <- Hlisted. vm_compute FindKnownAPIVersions. done.
Defined.

Lemma demoNewVersionedClient_fresh e v w c err w' :
  demoNewVersionedClient e v w = ((c, err), w') →
  (∀ c', demoMade w c' → demoMade w' c')
  ∧ (err = None → ¬ demoMade w c ∧ demoMade w' c).
Proof.
  unfold demoNewVersionedClient. intros [= <- <- <-]. split.
  - intros c' (n & Hn & ->). exists n. split; [lia|done].
  - intros _. split.
    + intros (n & Hn & [= Heq]). apply SuccNat2Pos.inj in Heq. lia.
    + exists w. split; [lia|done].
Qed.

Lemma FindClientAPIVersion_daemon_1_21_to_1_30 :
  ∃ cs st',
    findDockerVersions nat demoNewVersionedClient demoVersionWithContext
      demoPing selectorMatches "1.17" demoKnownAPIVersions
      demoContext "unix:///var/run/docker.sock" demoState = Some (cs, st')
    ∧ ∀ visited, visited ≡ₚ map_to_list cs →
        FindClientAPIVersion "1.17" visited (clientAt 3) = Some "1.25".
Proof.
  epose proof (FindClientAPIVersion_inverts_lookup_of_fresh_clients nat
                 demoNewVersionedClient demoVersionWithContext demoPing
                 selectorMatches "1.17" demoKnownAPIVersions "1.17"
                 demoContext "unix:///var/run/docker.sock" demoState _ _
                 demoMade)
    as Hfresh.
  edestruct Hfresh as [_ Hround];
    [exact demoNewVersionedClient_fresh
    |by intros c w r w' [= _ <-]
    |vm_compute; reflexivity|].
  eexists _, _. split; [vm_compute; reflexivity|].
  intros visited Hperm.
  destruct (Hround visited "1.25" (clientAt 3) Hperm) as [Hptr _];
    [vm_compute; reflexivity|].
  destruct (Hptr I) as [Hfound _]. exact Hfound.
Defined.


End ClientFactory.

(** * Part II: the ECS state-change model *)

Module ECS.

(** ** Invalid-parameter errors (package [request] of the AWS SDK) *)

(** One invalid parameter: the field concerned, the context of the value
    that has it, and the path of nested contexts above it. *)
Record ErrInvalidParam : Type := {
  code : string;
  field : string;
  context : string;
  nestedContext : string
}.

(** [request.NewErrParamRequired(field)] *)
Definition NewErrParamRequired (f : string) : ErrInvalidParam :=
  {| code := "ParamRequiredError"; field := f;
     context := ""; nestedContext := "" |}.

Definition SetContext (ctx : string) (e : ErrInvalidParam) : ErrInvalidParam :=
  {| code := code e; field := field e;
     context := ctx; nestedContext := nestedContext e |}.

Definition AddNestedContext (ctx : string) (e : ErrInvalidParam) : ErrInvalidParam :=
  {| code := code e; field := field e; context := context e;
     nestedContext :=
       if decide (nestedContext e = "") then ctx
       else ctx +:+ "." +:+ nestedContext e |}.

(** [request.ErrInvalidParams]: a context and the errors collected so far. *)
Record ErrInvalidParams : Type := {
  Context : string;
  errs : list ErrInvalidParam
}.

Definition Add (err : ErrInvalidParam) (e : ErrInvalidParams) : ErrInvalidParams :=
  {| Context := Context e;
     errs := errs e ++ [SetContext (Context e) err] |}.

Definition AddNested (nestedCtx : string) (nested e : ErrInvalidParams)
  : ErrInvalidParams :=
  {| Context := Context e;
     errs := errs e ++
             map (λ err, AddNestedContext nestedCtx (SetContext (Context e) err))
                 (errs nested) |}.

Definition Len (e : ErrInvalidParams) : nat := length (errs e).

(** ** Values on the wire

    Every field of the structures below carries a [locationName] tag; a value
    is sent as the members that are set, each under the name of its tag.  A
    nil pointer or nil slice contributes no member. *)
#[warnings="-register-all"]
Inductive Value : Type :=
  | VNull
  | VString (s : string)
  | VInteger (n : Z)
  | VTimestamp (unix : Z)
  | VList (elems : list Value)
  | VStructure (members : list (string * Value)).

Definition member {A} (name : string) (inj : A → Value) (fld : option A)
  : list (string * Value) :=
  match fld with
  | Some v => [(name, inj v)]
  | None => []
  end.

(** A slice of pointers to structures. *)
Definition structures {A} (members : A → list (string * Value))
    (l : list (option A)) : Value :=
  VList (map (λ p, match p with
                   | Some v => VStructure (members v)
                   | None => VNull
                   end) l).

(** ** [NetworkBinding] *)
Module NetworkBinding.

Record t : Type := {
  BindIP : option string;
  ContainerPort : option Z;
  HostPort : option Z;
  Protocol : option string
}.

Definition members (s : t) : list (string * Value) :=
  member "bindIP" VString (BindIP s)
  ++ member "containerPort" VInteger (ContainerPort s)
  ++ member "hostPort" VInteger (HostPort s)
  ++ member "protocol" VString (Protocol s).

End NetworkBinding.

(** ** [AttachmentStateChange] *)
Module AttachmentStateChange.

Record t : Type := {
  AttachmentArn : option string;
  Status : option string
}.

(** [func (s *AttachmentStateChange) Validate() error] *)
Definition Validate (s : t) : option ErrInvalidParams :=
  let invalidParams := {| Context := "AttachmentStateChange"; errs := [] |} in
  let invalidParams :=
    if decide (AttachmentArn s = None)
    then Add (NewErrParamRequired "AttachmentArn") invalidParams
    else invalidParams in
  let invalidParams :=
    if decide (Status s = None)
    then Add (NewErrParamRequired "Status") invalidParams
    else invalidParams in
  if decide (0 < Len invalidParams) then Some invalidParams else None.

Definition SetAttachmentArn (v : string) (s : t) : t :=
  {| AttachmentArn := Some v; Status := Status s |}.
Definition SetStatus (v : string) (s : t) : t :=
  {| AttachmentArn := AttachmentArn s; Status := Some v |}.

Definition members (s : t) : list (string * Value) :=
  member "attachmentArn" VString (AttachmentArn s)
  ++ member "status" VString (Status s).

End AttachmentStateChange.

(** ** [ContainerStateChange] *)
Module ContainerStateChange.

Record t : Type := {
  ContainerName : option string;
  ExitCode : option Z;
  NetworkBindings : option (list (option NetworkBinding.t));
  Reason : option string;
  Status : option string
}.

Definition SetContainerName (v : string) (s : t) : t :=
  {| ContainerName := Some v; ExitCode := ExitCode s;
     NetworkBindings := NetworkBindings s; Reason := Reason s;
     Status := Status s |}.
Definition SetExitCode (v : Z) (s : t) : t :=
  {| ContainerName := ContainerName s; ExitCode := Some v;
     NetworkBindings := NetworkBindings s; Reason := Reason s;
     Status := Status s |}.
Definition SetNetworkBindings (v : option (list (option NetworkBinding.t)))
    (s : t) : t :=
  {| ContainerName := ContainerName s; ExitCode := ExitCode s;
     NetworkBindings := v; Reason := Reason s; Status := Status s |}.
Definition SetReason (v : string) (s : t) : t :=
  {| ContainerName := ContainerName s; ExitCode := ExitCode s;
     NetworkBindings := NetworkBindings s; Reason := Some v;
     Status := Status s |}.
Definition SetStatus (v : string) (s : t) : t :=
  {| ContainerName := ContainerName s; ExitCode := ExitCode s;
     NetworkBindings := NetworkBindings s; Reason := Reason s;
     Status := Some v |}.

Definition members (s : t) : list (string * Value) :=
  member "containerName" VString (ContainerName s)
  ++ member "exitCode" VInteger (ExitCode s)
  ++ member "networkBindings" (structures NetworkBinding.members)
       (NetworkBindings s)
  ++ member "reason" VString (Reason s)
  ++ member "status" VString (Status s).

End ContainerStateChange.

(** ** [SubmitTaskStateChangeInput] *)
Module SubmitTaskStateChangeInput.

Record t : Type := {
  Attachments : option (list (option AttachmentStateChange.t));
  Cluster : option string;
  Containers : option (list (option ContainerStateChange.t));
  ExecutionStoppedAt : option Z;
  PullStartedAt : option Z;
  PullStoppedAt : option Z;
  Reason : option string;
  Status : option string;
  Task : option string
}.

(** The body of [for i, v := range s.Attachments], from index [i] on. *)
Fixpoint validateAttachments (i : nat)
    (attachments : list (option AttachmentStateChange.t))
    (invalidParams : ErrInvalidParams) : ErrInvalidParams :=
  match attachments with
  | [] => invalidParams
  | None :: rest =>
      (* if v == nil { continue } *)
      validateAttachments (S i) rest invalidParams
  | Some v :: rest =>
      match AttachmentStateChange.Validate v with
      | Some err =>
          validateAttachments (S i) rest
            (AddNested ("Attachments" +:+ "[" +:+ pretty i +:+ "]") err
               invalidParams)
      | None => validateAttachments (S i) rest invalidParams
      end
  end.

(** [func (s *SubmitTaskStateChangeInput) Validate() error] *)
Definition Validate (s : t) : option ErrInvalidParams :=
  let invalidParams :=
    {| Context := "SubmitTaskStateChangeInput"; errs := [] |} in
  let invalidParams :=
    match Attachments s with
    | Some attachments => validateAttachments 0 attachments invalidParams
    | None => invalidParams
    end in
  if decide (0 < Len invalidParams) then Some invalidParams else None.

Definition SetAttachments (v : option (list (option AttachmentStateChange.t)))
    (s : t) : t :=
  {| Attachments := v; Cluster := Cluster s; Containers := Containers s;
     ExecutionStoppedAt := ExecutionStoppedAt s;
     PullStartedAt := PullStartedAt s; PullStoppedAt := PullStoppedAt s;
     Reason := Reason s; Status := Status s; Task := Task s |}.
Definition SetContainers (v : option (list (option ContainerStateChange.t)))
    (s : t) : t :=
  {| Attachments := Attachments s; Cluster := Cluster s; Containers := v;
     ExecutionStoppedAt := ExecutionStoppedAt s;
     PullStartedAt := PullStartedAt s; PullStoppedAt := PullStoppedAt s;
     Reason := Reason s; Status := Status s; Task := Task s |}.
Definition SetStatus (v : string) (s : t) : t :=
  {| Attachments := Attachments s; Cluster := Cluster s;
     Containers := Containers s;
     ExecutionStoppedAt := ExecutionStoppedAt s;
     PullStartedAt := PullStartedAt s; PullStoppedAt := PullStoppedAt s;
     Reason := Reason s; Status := Some v; Task := Task s |}.
Definition SetTask (v : string) (s : t) : t :=
  {| Attachments := Attachments s; Cluster := Cluster s;
     Containers := Containers s;
     ExecutionStoppedAt := ExecutionStoppedAt s;
     PullStartedAt := PullStartedAt s; PullStoppedAt := PullStoppedAt s;
     Reason := Reason s; Status := Status s; Task := Some v |}.

Definition members (s : t) : list (string * Value) :=
  member "attachments" (structures AttachmentStateChange.members)
    (Attachments s)
  ++ member "cluster" VString (Cluster s)
  ++ member "containers" (structures ContainerStateChange.members)
       (Containers s)
  ++ member "executionStoppedAt" VTimestamp (ExecutionStoppedAt s)
  ++ member "pullStartedAt" VTimestamp (PullStartedAt s)
  ++ member "pullStoppedAt" VTimestamp (PullStoppedAt s)
  ++ member "reason" VString (Reason s)
  ++ member "status" VString (Status s)
  ++ member "task" VString (Task s).

End SubmitTaskStateChangeInput.

(** ** Member names

    A member meant to carry a token is recognised by its name, as the
    [clientToken] and [nextToken] members of other structures of this API
    are. *)
Fixpoint isPrefixOf (p s : string) : bool :=
  match p, s with
  | EmptyString, _ => true
  | String a p', String b s' => bool_decide (a = b) && isPrefixOf p' s'
  | String _ _, EmptyString => false
  end.

Fixpoint isInfixOf (p s : string) : bool :=
  isPrefixOf p s
  || match s with
     | String _ s' => isInfixOf p s'
     | EmptyString => false
     end.

Definition namesToken (name : string) : bool := isInfixOf "oken" name.

Definition taskStateChangeMemberNames : list string :=
  ["attachments"; "cluster"; "containers"; "executionStoppedAt";
   "pullStartedAt"; "pullStoppedAt"; "reason"; "status"; "task"].

Definition containerStateChangeMemberNames : list string :=
  ["containerName"; "exitCode"; "networkBindings"; "reason"; "status"].

(** A report with every field set: task [t1] stopped after its container
    [web] exited with code 137. *)
Definition stoppedTaskReport : SubmitTaskStateChangeInput.t :=
  {| SubmitTaskStateChangeInput.Attachments :=
       Some [Some {| AttachmentStateChange.AttachmentArn := Some "arn:eni-1";
                     AttachmentStateChange.Status := Some "DETACHED" |}];
     SubmitTaskStateChangeInput.Cluster := Some "default";
     SubmitTaskStateChangeInput.Containers :=
       Some [Some {| ContainerStateChange.ContainerName := Some "web";
                     ContainerStateChange.ExitCode := Some 137%Z;
                     ContainerStateChange.NetworkBindings :=
                       Some [Some {| NetworkBinding.BindIP := Some "0.0.0.0";
                                     NetworkBinding.ContainerPort := Some 80%Z;
                                     NetworkBinding.HostPort := Some 8080%Z;
                                     NetworkBinding.Protocol := Some "tcp" |}];
                     ContainerStateChange.Reason := Some "OutOfMemory";
                     ContainerStateChange.Status := Some "STOPPED" |}];
     SubmitTaskStateChangeInput.ExecutionStoppedAt := Some 1540000300%Z;
     SubmitTaskStateChangeInput.PullStartedAt := Some 1540000000%Z;
     SubmitTaskStateChangeInput.PullStoppedAt := Some 1540000100%Z;
     SubmitTaskStateChangeInput.Reason := Some "Essential container in task exited";
     SubmitTaskStateChangeInput.Status := Some "STOPPED";
     SubmitTaskStateChangeInput.Task := Some "t1" |}.

(** ** What [Validate] checks *)

Definition missingRequired (a : AttachmentStateChange.t) : Prop :=
  AttachmentStateChange.AttachmentArn a = None
  ∨ AttachmentStateChange.Status a = None.

Lemma AttachmentStateChange_Validate_error (a : AttachmentStateChange.t) :
  is_Some (AttachmentStateChange.Validate a) ↔ missingRequired a.
Proof.
  unfold AttachmentStateChange.Validate, missingRequired.
  destruct a as [[arn|] [status|]]; cbn; split;
    try (intros [? [=]]); try (intros [[=]|[=]]); eauto.
Qed.

Lemma AttachmentStateChange_Validate_nonempty (a : AttachmentStateChange.t) err :
  AttachmentStateChange.Validate a = Some err → 0 < Len err.
Proof.
  unfold AttachmentStateChange.Validate.
  case_decide as Hlen; [|done]. intros [= <-]. lia.
Qed.

Lemma AddNested_Len ctx nested e :
  Len (AddNested ctx nested e) = Len e + Len nested.
Proof. unfold Len, AddNested. cbn. by rewrite length_app, length_map. Qed.

Lemma validateAttachments_Len attachments :
  ∀ i invalidParams,
    0 < Len (SubmitTaskStateChangeInput.validateAttachments i attachments
               invalidParams)
    ↔ 0 < Len invalidParams
      ∨ ∃ a, Some a ∈ attachments ∧ missingRequired a.
Proof.
  induction attachments as [|[v|] rest IH]; intros i invalidParams; cbn.
  - split; [auto|]. intros [H|(a & Hin & _)]; [done|].
    by apply elem_of_nil in Hin.
  - destruct (AttachmentStateChange.Validate v) as [err|] eqn:Hv.
    + rewrite IH, AddNested_Len.
      pose proof (AttachmentStateChange_Validate_nonempty _ _ Hv).
      split; [|intros _; left; lia].
      intros _. right. exists v. split; [left|].
      apply AttachmentStateChange_Validate_error. by rewrite Hv.
    + rewrite IH. split; intros [H|(a & Hin & Ha)]; auto.
      * right. exists a. split; [by right|done].
      * apply elem_of_cons in Hin as [[= <-]|Hin]; [|by eauto].
        apply AttachmentStateChange_Validate_error in Ha.
        rewrite Hv in Ha. by destruct Ha.
  - rewrite IH. split; intros [H|(a & Hin & Ha)]; auto.
    + right. exists a. split; [by right|done].
    + apply elem_of_cons in Hin as [[=]|Hin]. eauto.
Qed.

Lemma SubmitTaskStateChangeInput_Validate_error
    (s : SubmitTaskStateChangeInput.t) :
  is_Some (SubmitTaskStateChangeInput.Validate s)
  ↔ ∃ attachments a,
      SubmitTaskStateChangeInput.Attachments s = Some attachments
      ∧ Some a ∈ attachments ∧ missingRequired a.
Proof.
  unfold SubmitTaskStateChangeInput.Validate.
  destruct (SubmitTaskStateChangeInput.Attachments s) as [attachments|].
  - case_decide as Hlen.
    + split; [|eauto]. intros _.
      apply validateAttachments_Len in Hlen as [Hlen|(a & Hin & Ha)];
        [cbn in Hlen; lia|eauto].
    + split; [by intros [? [=]]|].
      intros (atts & a & [= <-] & Hin & Ha). exfalso. apply Hlen.
      apply validateAttachments_Len. eauto.
  - cbn. split; [by intros [? [=]]|]. by intros (? & ? & [=] & _).
Qed.

(** A nil entry is passed over; the entry after it lacks its status, and the
    error names it by its index in the list. *)
Example Validate_reports_the_attachment_without_status :
  SubmitTaskStateChangeInput.Validate
    (SubmitTaskStateChangeInput.SetAttachments
       (Some [None;
              Some {| AttachmentStateChange.AttachmentArn := Some "arn:eni-1";
                      AttachmentStateChange.Status := None |}])
       stoppedTaskReport)
  = Some {| Context := "SubmitTaskStateChangeInput";
            errs := [{| code := "ParamRequiredError"; field := "Status";
                        context := "SubmitTaskStateChangeInput";
                        nestedContext := "Attachments[1]" |}] |}
  ∧ SubmitTaskStateChangeInput.Validate stoppedTaskReport = None.
Proof. split; vm_compute; reflexivity. Qed.

(** C10. [SubmitTaskStateChangeInput.Validate] returns an error exactly when
    some non-nil element of [Attachments] lacks its [AttachmentArn] or its
    [Status].  Nothing else is looked at: two inputs with the same
    [Attachments] validate alike; an input with nil or empty [Attachments]
    validates, whatever its [Task] and [Status]; and nil entries of the list
    are passed over, so removing them does not change whether the input
    validates, and a list of nil entries only validates. *)
Theorem SubmitTaskStateChangeInput_Validate_checks_attachments_only
    (s : SubmitTaskStateChangeInput.t) :
  (is_Some (SubmitTaskStateChangeInput.Validate s)
   ↔ ∃ attachments a,
       SubmitTaskStateChangeInput.Attachments s = Some attachments
       ∧ Some a ∈ attachments
       ∧ (AttachmentStateChange.AttachmentArn a = None
          ∨ AttachmentStateChange.Status a = None))
  ∧ (∀ s', SubmitTaskStateChangeInput.Attachments s'
           = SubmitTaskStateChangeInput.Attachments s →
           SubmitTaskStateChangeInput.Validate s'
           = SubmitTaskStateChangeInput.Validate s)
  ∧ (SubmitTaskStateChangeInput.Attachments s = None
     ∨ SubmitTaskStateChangeInput.Attachments s = Some [] →
     SubmitTaskStateChangeInput.Validate s = None)
  ∧ (∀ attachments,
       SubmitTaskStateChangeInput.Attachments s = Some attachments →
       (Forall (λ v, v = None) attachments →
        SubmitTaskStateChangeInput.Validate s = None)
       ∧ (is_Some (SubmitTaskStateChangeInput.Validate s)
          ↔ is_Some (SubmitTaskStateChangeInput.Validate
                       (SubmitTaskStateChangeInput.SetAttachments
                          (Some (filter (λ v, is_Some v) attachments)) s)))).
Proof.
  split; [apply SubmitTaskStateChangeInput_Validate_error|].
  split; [|split].
  - intros s' Hsame. unfold SubmitTaskStateChangeInput.Validate.
    by rewrite Hsame.
  - unfold SubmitTaskStateChangeInput.Validate. by intros [-> | ->].
  - intros attachments Hatts. split.
    + intros Hnil.
      destruct (SubmitTaskStateChangeInput.Validate s) as [err|] eqn:Hv;
        [|done].
      assert (Herr : is_Some (SubmitTaskStateChangeInput.Validate s))
        by (rewrite Hv; eauto).
      apply SubmitTaskStateChangeInput_Validate_error in Herr
        as (atts & a & Heq & Hin & _).
      rewrite Hatts in Heq. injection Heq as <-.
      rewrite Forall_forall in Hnil. by specialize (Hnil _ Hin).
    + rewrite !SubmitTaskStateChangeInput_Validate_error. cbn.
      rewrite Hatts. split.
      * intros (atts & a & [= <-] & Hin & Ha).
        exists (filter (λ v, is_Some v) attachments), a.
        split; [done|]. split; [|done].
        apply list_elem_of_filter. eauto.
      * intros (atts & a & [= <-] & Hin & Ha).
        exists attachments, a. split; [done|]. split; [|done].
        by apply list_elem_of_filter in Hin as [_ Hin].
Qed.

(** ** What a task state-change report carries *)

Lemma member_elem {A} name (inj : A → Value) fld n v :
  (n, v) ∈ member name inj fld ↔ n = name ∧ ∃ x, fld = Some x ∧ v = inj x.
Proof.
  destruct fld as [x|]; cbn.
  - rewrite list_elem_of_singleton. split.
    + intros [= -> ->]. eauto.
    + intros (-> & y & [= <-] & ->). done.
  - split; [by intros ?%elem_of_nil|]. by intros (_ & ? & [=] & _).
Qed.

Lemma SubmitTaskStateChangeInput_member_names
    (s : SubmitTaskStateChangeInput.t) n v :
  (n, v) ∈ SubmitTaskStateChangeInput.members s →
  n ∈ taskStateChangeMemberNames.
Proof.
  unfold SubmitTaskStateChangeInput.members, taskStateChangeMemberNames.
  rewrite !elem_of_app, !member_elem.
  intros H. repeat destruct H as [H|H]; destruct H as [-> _];
    repeat first [by left | right].
Qed.

Lemma ContainerStateChange_member_names (c : ContainerStateChange.t) n v :
  (n, v) ∈ ContainerStateChange.members c →
  n ∈ containerStateChangeMemberNames.
Proof.
  unfold ContainerStateChange.members, containerStateChangeMemberNames.
  rewrite !elem_of_app, !member_elem.
  intros H. repeat destruct H as [H|H]; destruct H as [-> _];
    repeat first [by left | right].
Qed.

Lemma no_token_among_member_names n :
  n ∈ taskStateChangeMemberNames ∨ n ∈ containerStateChangeMemberNames →
  namesToken n = false.
Proof.
  unfold taskStateChangeMemberNames, containerStateChangeMemberNames.
  intros [H|H];
    repeat (apply elem_of_cons in H as [->|H]; [reflexivity|]);
    by apply elem_of_nil in H.
Qed.

(** C2, as the claim states it, fails: the report [stoppedTaskReport] has
    every field of the type set and still carries no member for a message
    token. *)
Lemma task_state_change_report_without_token :
  ¬ ∃ n v, (n, v) ∈ SubmitTaskStateChangeInput.members stoppedTaskReport
           ∧ namesToken n = true.
Proof.
  intros (n & v & Hin & Htoken).
  apply SubmitTaskStateChangeInput_member_names in Hin.
  rewrite no_token_among_member_names in Htoken by auto. done.
Qed.

(** C2, amended.  A task state-change report carries, each when set, the
    task id ([task]), the task status ([status]), the list of changed
    containers ([containers]) and three timestamps ([pullStartedAt],
    [pullStoppedAt], [executionStoppedAt]); a container's entry carries, each
    when set, its status, exit code, reason and network bindings.  The members
    of a report are among [attachments], [cluster], [containers],
    [executionStoppedAt], [pullStartedAt], [pullStoppedAt], [reason],
    [status] and [task], those of a container entry among [containerName],
    [exitCode], [networkBindings], [reason] and [status]: neither has a
    member for a client-generated message token. *)
Theorem task_state_change_report_members (s : SubmitTaskStateChangeInput.t) :
  (∀ x, SubmitTaskStateChangeInput.Task s = Some x →
        ("task", VString x) ∈ SubmitTaskStateChangeInput.members s)
  ∧ (∀ x, SubmitTaskStateChangeInput.Status s = Some x →
          ("status", VString x) ∈ SubmitTaskStateChangeInput.members s)
  ∧ (∀ cs, SubmitTaskStateChangeInput.Containers s = Some cs →
           ("containers", structures ContainerStateChange.members cs)
           ∈ SubmitTaskStateChangeInput.members s)
  ∧ (∀ x, SubmitTaskStateChangeInput.PullStartedAt s = Some x →
          ("pullStartedAt", VTimestamp x) ∈ SubmitTaskStateChangeInput.members s)
  ∧ (∀ x, SubmitTaskStateChangeInput.PullStoppedAt s = Some x →
          ("pullStoppedAt", VTimestamp x) ∈ SubmitTaskStateChangeInput.members s)
  ∧ (∀ x, SubmitTaskStateChangeInput.ExecutionStoppedAt s = Some x →
          ("executionStoppedAt", VTimestamp x)
          ∈ SubmitTaskStateChangeInput.members s)
  ∧ (∀ c : ContainerStateChange.t,
       (∀ x, ContainerStateChange.Status c = Some x →
             ("status", VString x) ∈ ContainerStateChange.members c)
       ∧ (∀ x, ContainerStateChange.ExitCode c = Some x →
               ("exitCode", VInteger x) ∈ ContainerStateChange.members c)
       ∧ (∀ x, ContainerStateChange.Reason c = Some x →
               ("reason", VString x) ∈ ContainerStateChange.members c)
       ∧ (∀ bs, ContainerStateChange.NetworkBindings c = Some bs →
                ("networkBindings", structures NetworkBinding.members bs)
                ∈ ContainerStateChange.members c)
       ∧ (∀ n v, (n, v) ∈ ContainerStateChange.members c →
                 n ∈ containerStateChangeMemberNames ∧ namesToken n = false))
  ∧ (∀ n v, (n, v) ∈ SubmitTaskStateChangeInput.members s →
            n ∈ taskStateChangeMemberNames ∧ namesToken n = false).
Proof.
  repeat split;
    try (intros x Hx; unfold SubmitTaskStateChangeInput.members,
           ContainerStateChange.members;
         rewrite !elem_of_app, !member_elem; naive_solver).
  - by eapply ContainerStateChange_member_names.
  - apply no_token_among_member_names. right.
    by eapply ContainerStateChange_member_names.
  - by eapply SubmitTaskStateChangeInput_member_names.
  - apply no_token_among_member_names. left.
    by eapply SubmitTaskStateChangeInput_member_names.
Qed.

End ECS.

(** * Part IIb: the validators of the request shapes

    [api.go] gives a [Validate] method to every request shape that has a
    required member, a member with a minimum length, or a member whose own
    shape has a [Validate].  The methods are made of the same few steps. *)

Module ECSValidation.

Import ECS.

(** ** The steps of a [Validate] method *)

(** [request.NewErrParamMinLen(field, min)] of the AWS SDK.  The minimum goes
    into the message of the error, which [ErrInvalidParam] does not carry. *)
Definition NewErrParamMinLen (f : string) (min : nat) : ErrInvalidParam :=
  {| code := "ParamMinLenError"; field := f;
     context := ""; nestedContext := "" |}.

(** [fmt.Sprintf("%s[%v]", name, i)] *)
Definition indexed (name : string) (i : nat) : string :=
  name +:+ "[" +:+ pretty i +:+ "]".

(** [if s.F == nil { invalidParams.Add(request.NewErrParamRequired("F")) }] *)
Definition required {A} (name : string) (fld : option A)
    (invalidParams : ErrInvalidParams) : ErrInvalidParams :=
  match fld with
  | None => Add (NewErrParamRequired name) invalidParams
  | Some _ => invalidParams
  end.

(** The body of [for i, v := range s.F], from index [i] on:
    [if v == nil { continue }] and then
    [if err := v.Validate(); err != nil { invalidParams.AddNested(
       fmt.Sprintf("%s[%v]", "F", i), err.(request.ErrInvalidParams)) }]. *)
Fixpoint validateElements {A} (Validate : A → option ErrInvalidParams)
    (name : string) (i : nat) (l : list (option A))
    (invalidParams : ErrInvalidParams) : ErrInvalidParams :=
  match l with
  | [] => invalidParams
  | None :: rest => validateElements Validate name (S i) rest invalidParams
  | Some v :: rest =>
      match Validate v with
      | Some err =>
          validateElements Validate name (S i) rest
            (AddNested (indexed name i) err invalidParams)
      | None => validateElements Validate name (S i) rest invalidParams
      end
  end.

(** [if s.F != nil { for i, v := range s.F { ... } }] *)
Definition validateList {A} (Validate : A → option ErrInvalidParams)
    (name : string) (fld : option (list (option A)))
    (invalidParams : ErrInvalidParams) : ErrInvalidParams :=
  match fld with
  | Some l => validateElements Validate name 0 l invalidParams
  | None => invalidParams
  end.

(** [if s.F != nil { if err := s.F.Validate(); err != nil {
      invalidParams.AddNested("F", err.(request.ErrInvalidParams)) } }] *)
Definition validateNested {A} (Validate : A → option ErrInvalidParams)
    (name : string) (fld : option A)
    (invalidParams : ErrInvalidParams) : ErrInvalidParams :=
  match fld with
  | Some v =>
      match Validate v with
      | Some err => AddNested name err invalidParams
      | None => invalidParams
      end
  | None => invalidParams
  end.

(** [if invalidParams.Len() > 0 { return invalidParams }; return nil] *)
Definition result (invalidParams : ErrInvalidParams)
  : option ErrInvalidParams :=
  if decide (0 < Len invalidParams) then Some invalidParams else None.

(** ** Attributes and tags *)

Module Attribute.

Record t : Type := {
  Name : option string;
  TargetId : option string;
  TargetType : option string;
  Value : option string
}.

(** [func (s *Attribute) Validate() error] *)
Definition Validate (s : t) : option ErrInvalidParams :=
  let invalidParams := {| Context := "Attribute"; errs := [] |} in
  let invalidParams := required "Name" (Name s) invalidParams in
  result invalidParams.

End Attribute.

Module Tag.

Record t : Type := {
  Key : option string;
  Value : option string
}.

(** [func (s *Tag) Validate() error] *)
Definition Validate (s : t) : option ErrInvalidParams :=
  let invalidParams := {| Context := "Tag"; errs := [] |} in
  let invalidParams :=
    match Key s with
    | Some key =>
        if decide (String.length key < 1)%nat
        then Add (NewErrParamMinLen "Key" 1) invalidParams
        else invalidParams
    | None => invalidParams
    end in
  result invalidParams.

End Tag.

Module PlatformDevice.

Record t : Type := {
  Id : option string;
  Type_ : option string
}.

End PlatformDevice.

Module Resource.

(** [DoubleValue] is a [*float64]; it is kept as the 64 bits of the
    number. *)
Record t : Type := {
  DoubleValue : option Z;
  IntegerValue : option Z;
  LongValue : option Z;
  Name : option string;
  StringSetValue : option (list (option string));
  Type_ : option string
}.

End Resource.

Module VersionInfo.

Record t : Type := {
  AgentHash : option string;
  AgentVersion : option string;
  DockerVersion : option string
}.

End VersionInfo.

Module RegisterContainerInstanceInput.

Record t : Type := {
  Attributes : option (list (option Attribute.t));
  ClientToken : option string;
  Cluster : option string;
  ContainerInstanceArn : option string;
  InstanceIdentityDocument : option string;
  InstanceIdentityDocumentSignature : option string;
  PlatformDevices : option (list (option PlatformDevice.t));
  Tags : option (list (option Tag.t));
  TotalResources : option (list (option Resource.t));
  VersionInfo : option VersionInfo.t
}.

(** [func (s *RegisterContainerInstanceInput) Validate() error] *)
Definition Validate (s : t) : option ErrInvalidParams :=
  let invalidParams :=
    {| Context := "RegisterContainerInstanceInput"; errs := [] |} in
  let invalidParams :=
    validateList Attribute.Validate "Attributes" (Attributes s)
      invalidParams in
  let invalidParams :=
    validateList Tag.Validate "Tags" (Tags s) invalidParams in
  result invalidParams.

End RegisterContainerInstanceInput.

Module PutAttributesInput.

Record t : Type := {
  Attributes : option (list (option Attribute.t));
  Cluster : option string
}.

(** [func (s *PutAttributesInput) Validate() error] *)
Definition Validate (s : t) : option ErrInvalidParams :=
  let invalidParams := {| Context := "PutAttributesInput"; errs := [] |} in
  let invalidParams := required "Attributes" (Attributes s) invalidParams in
  let invalidParams :=
    validateList Attribute.Validate "Attributes" (Attributes s)
      invalidParams in
  result invalidParams.

End PutAttributesInput.

Module DeleteAttributesInput.

Record t : Type := {
  Attributes : option (list (option Attribute.t));
  Cluster : option string
}.

(** [func (s *DeleteAttributesInput) Validate() error] *)
Definition Validate (s : t) : option ErrInvalidParams :=
  let invalidParams := {| Context := "DeleteAttributesInput"; errs := [] |} in
  let invalidParams := required "Attributes" (Attributes s) invalidParams in
  let invalidParams :=
    validateList Attribute.Validate "Attributes" (Attributes s)
      invalidParams in
  result invalidParams.

End DeleteAttributesInput.

(** ** Task definitions *)

Module HostEntry.

Record t : Type := {
  Hostname : option string;
  IpAddress : option string
}.

(** [func (s *HostEntry) Validate() error] *)
Definition Validate (s : t) : option ErrInvalidParams :=
  let invalidParams := {| Context := "HostEntry"; errs := [] |} in
  let invalidParams := required "Hostname" (Hostname s) invalidParams in
  let invalidParams := required "IpAddress" (IpAddress s) invalidParams in
  result invalidParams.

End HostEntry.

Module HealthCheck.

Record t : Type := {
  Command : option (list (option string));
  Interval : option Z;
  Retries : option Z;
  StartPeriod : option Z;
  Timeout : option Z
}.

(** [func (s *HealthCheck) Validate() error] *)
Definition Validate (s : t) : option ErrInvalidParams :=
  let invalidParams := {| Context := "HealthCheck"; errs := [] |} in
  let invalidParams := required "Command" (Command s) invalidParams in
  result invalidParams.

End HealthCheck.

Module KernelCapabilities.

Record t : Type := {
  Add : option (list (option string));
  Drop : option (list (option string))
}.

End KernelCapabilities.

Module Device.

Record t : Type := {
  ContainerPath : option string;
  HostPath : option string;
  Permissions : option (list (option string))
}.

(** [func (s *Device) Validate() error] *)
Definition Validate (s : t) : option ErrInvalidParams :=
  let invalidParams := {| Context := "Device"; errs := [] |} in
  let invalidParams := required "HostPath" (HostPath s) invalidParams in
  result invalidParams.

End Device.

Module Tmpfs.

Record t : Type := {
  ContainerPath : option string;
  MountOptions : option (list (option string));
  Size : option Z
}.

(** [func (s *Tmpfs) Validate() error] *)
Definition Validate (s : t) : option ErrInvalidParams :=
  let invalidParams := {| Context := "Tmpfs"; errs := [] |} in
  let invalidParams :=
    required "ContainerPath" (ContainerPath s) invalidParams in
  let invalidParams := required "Size" (Size s) invalidParams in
  result invalidParams.

End Tmpfs.

Module LinuxParameters.

Record t : Type := {
  Capabilities : option KernelCapabilities.t;
  Devices : option (list (option Device.t));
  InitProcessEnabled : option bool;
  SharedMemorySize : option Z;
  Tmpfs : option (list (option Tmpfs.t))
}.

(** [func (s *LinuxParameters) Validate() error] *)
Definition Validate (s : t) : option ErrInvalidParams :=
  let invalidParams := {| Context := "LinuxParameters"; errs := [] |} in
  let invalidParams :=
    validateList Device.Validate "Devices" (Devices s) invalidParams in
  let invalidParams :=
    validateList Tmpfs.Validate "Tmpfs" (Tmpfs s) invalidParams in
  result invalidParams.

End LinuxParameters.

Module LogConfiguration.

Record t : Type := {
  LogDriver : option string;
  Options : option (gmap string (option string))
}.

(** [func (s *LogConfiguration) Validate() error] *)
Definition Validate (s : t) : option ErrInvalidParams :=
  let invalidParams := {| Context := "LogConfiguration"; errs := [] |} in
  let invalidParams := required "LogDriver" (LogDriver s) invalidParams in
  result invalidParams.

End LogConfiguration.

Module RepositoryCredentials.

Record t : Type := {
  CredentialsParameter : option string
}.

(** [func (s *RepositoryCredentials) Validate() error] *)
Definition Validate (s : t) : option ErrInvalidParams :=
  let invalidParams := {| Context := "RepositoryCredentials"; errs := [] |} in
  let invalidParams :=
    required "CredentialsParameter" (CredentialsParameter s) invalidParams in
  result invalidParams.

End RepositoryCredentials.

Module Secret.

Record t : Type := {
  Name : option string;
  ValueFrom : option string
}.

(** [func (s *Secret) Validate() error] *)
Definition Validate (s : t) : option ErrInvalidParams :=
  let invalidParams := {| Context := "Secret"; errs := [] |} in
  let invalidParams := required "Name" (Name s) invalidParams in
  let invalidParams := required "ValueFrom" (ValueFrom s) invalidParams in
  result invalidParams.

End Secret.

Module Ulimit.

Record t : Type := {
  HardLimit : option Z;
  Name : option string;
  SoftLimit : option Z
}.

(** [func (s *Ulimit) Validate() error] *)
Definition Validate (s : t) : option ErrInvalidParams :=
  let invalidParams := {| Context := "Ulimit"; errs := [] |} in
  let invalidParams := required "HardLimit" (HardLimit s) invalidParams in
  let invalidParams := required "Name" (Name s) invalidParams in
  let invalidParams := required "SoftLimit" (SoftLimit s) invalidParams in
  result invalidParams.

End Ulimit.

Module KeyValuePair.

Record t : Type := {
  Name : option string;
  Value : option string
}.

End KeyValuePair.

Module MountPoint.

Record t : Type := {
  ContainerPath : option string;
  ReadOnly : option bool;
  SourceVolume : option string
}.

End MountPoint.

Module PortMapping.

Record t : Type := {
  ContainerPort : option Z;
  HostPort : option Z;
  Protocol : option string
}.

End PortMapping.

Module ResourceRequirement.

Record t : Type := {
  Type_ : option string;
  Value : option string
}.

End ResourceRequirement.

Module SystemControl.

Record t : Type := {
  Namespace : option string;
  Value : option string
}.

End SystemControl.

Module VolumeFrom.

Record t : Type := {
  ReadOnly : option bool;
  SourceContainer : option string
}.

End VolumeFrom.

Module ContainerDefinition.

Record t : Type := {
  Command : option (list (option string));
  Cpu : option Z;
  DisableNetworking : option bool;
  DnsSearchDomains : option (list (option string));
  DnsServers : option (list (option string));
  DockerLabels : option (gmap string (option string));
  DockerSecurityOptions : option (list (option string));
  EntryPoint : option (list (option string));
  Environment : option (list (option KeyValuePair.t));
  Essential : option bool;
  ExtraHosts : option (list (option HostEntry.t));
  HealthCheck : option HealthCheck.t;
  Hostname : option string;
  Image : option string;
  Interactive : option bool;
  Links : option (list (option string));
  LinuxParameters : option LinuxParameters.t;
  LogConfiguration : option LogConfiguration.t;
  Memory : option Z;
  MemoryReservation : option Z;
  MountPoints : option (list (option MountPoint.t));
  Name : option string;
  PortMappings : option (list (option PortMapping.t));
  Privileged : option bool;
  PseudoTerminal : option bool;
  ReadonlyRootFilesystem : option bool;
  RepositoryCredentials : option RepositoryCredentials.t;
  ResourceRequirements : option (list (option ResourceRequirement.t));
  Secrets : option (list (option Secret.t));
  SystemControls : option (list (option SystemControl.t));
  Ulimits : option (list (option Ulimit.t));
  User : option string;
  VolumesFrom : option (list (option VolumeFrom.t));
  WorkingDirectory : option string
}.

(** [func (s *ContainerDefinition) Validate() error] *)
Definition Validate (s : t) : option ErrInvalidParams :=
  let invalidParams := {| Context := "ContainerDefinition"; errs := [] |} in
  let invalidParams :=
    validateList HostEntry.Validate "ExtraHosts" (ExtraHosts s)
      invalidParams in
  let invalidParams :=
    validateNested HealthCheck.Validate "HealthCheck" (HealthCheck s)
      invalidParams in
  let invalidParams :=
    validateNested LinuxParameters.Validate "LinuxParameters"
      (LinuxParameters s) invalidParams in
  let invalidParams :=
    validateNested LogConfiguration.Validate "LogConfiguration"
      (LogConfiguration s) invalidParams in
  let invalidParams :=
    validateNested RepositoryCredentials.Validate "RepositoryCredentials"
      (RepositoryCredentials s) invalidParams in
  let invalidParams :=
    validateList Secret.Validate "Secrets" (Secrets s) invalidParams in
  let invalidParams :=
    validateList Ulimit.Validate "Ulimits" (Ulimits s) invalidParams in
  result invalidParams.

End ContainerDefinition.

Module TaskDefinitionPlacementConstraint.

Record t : Type := {
  Expression : option string;
  Type_ : option string
}.

End TaskDefinitionPlacementConstraint.

Module DockerVolumeConfiguration.

Record t : Type := {
  Autoprovision : option bool;
  Driver : option string;
  DriverOpts : option (gmap string (option string));
  Labels : option (gmap string (option string));
  Scope : option string
}.

End DockerVolumeConfiguration.

Module HostVolumeProperties.

Record t : Type := {
  SourcePath : option string
}.

End HostVolumeProperties.

Module Volume.

Record t : Type := {
  DockerVolumeConfiguration : option DockerVolumeConfiguration.t;
  Host : option HostVolumeProperties.t;
  Name : option string
}.

End Volume.

Module RegisterTaskDefinitionInput.

Record t : Type := {
  ContainerDefinitions : option (list (option ContainerDefinition.t));
  Cpu : option string;
  ExecutionRoleArn : option string;
  Family : option string;
  IpcMode : option string;
  Memory : option string;
  NetworkMode : option string;
  PidMode : option string;
  PlacementConstraints :
    option (list (option TaskDefinitionPlacementConstraint.t));
  RequiresCompatibilities : option (list (option string));
  Tags : option (list (option Tag.t));
  TaskRoleArn : option string;
  Volumes : option (list (option Volume.t))
}.

(** [func (s *RegisterTaskDefinitionInput) Validate() error] *)
Definition Validate (s : t) : option ErrInvalidParams :=
  let invalidParams :=
    {| Context := "RegisterTaskDefinitionInput"; errs := [] |} in
  let invalidParams :=
    required "ContainerDefinitions" (ContainerDefinitions s) invalidParams in
  let invalidParams := required "Family" (Family s) invalidParams in
  let invalidParams :=
    validateList ContainerDefinition.Validate "ContainerDefinitions"
      (ContainerDefinitions s) invalidParams in
  let invalidParams :=
    validateList Tag.Validate "Tags" (Tags s) invalidParams in
  result invalidParams.

End RegisterTaskDefinitionInput.

(** ** Requests that carry a network configuration *)

Module AwsVpcConfiguration.

Record t : Type := {
  AssignPublicIp : option string;
  SecurityGroups : option (list (option string));
  Subnets : option (list (option string))
}.

(** [func (s *AwsVpcConfiguration) Validate() error] *)
Definition Validate (s : t) : option ErrInvalidParams :=
  let invalidParams := {| Context := "AwsVpcConfiguration"; errs := [] |} in
  let invalidParams := required "Subnets" (Subnets s) invalidParams in
  result invalidParams.

End AwsVpcConfiguration.

Module NetworkConfiguration.

Record t : Type := {
  AwsvpcConfiguration : option AwsVpcConfiguration.t
}.

(** [func (s *NetworkConfiguration) Validate() error] *)
Definition Validate (s : t) : option ErrInvalidParams :=
  let invalidParams := {| Context := "NetworkConfiguration"; errs := [] |} in
  let invalidParams :=
    validateNested AwsVpcConfiguration.Validate "AwsvpcConfiguration"
      (AwsvpcConfiguration s) invalidParams in
  result invalidParams.

End NetworkConfiguration.

Module ContainerOverride.

Record t : Type := {
  Command : option (list (option string));
  Cpu : option Z;
  Environment : option (list (option KeyValuePair.t));
  Memory : option Z;
  MemoryReservation : option Z;
  Name : option string;
  ResourceRequirements : option (list (option ResourceRequirement.t))
}.

End ContainerOverride.

Module TaskOverride.

Record t : Type := {
  ContainerOverrides : option (list (option ContainerOverride.t));
  ExecutionRoleArn : option string;
  TaskRoleArn : option string
}.

End TaskOverride.

Module PlacementConstraint.

Record t : Type := {
  Expression : option string;
  Type_ : option string
}.

End PlacementConstraint.

Module PlacementStrategy.

Record t : Type := {
  Field : option string;
  Type_ : option string
}.

End PlacementStrategy.

Module DeploymentConfiguration.

Record t : Type := {
  MaximumPercent : option Z;
  MinimumHealthyPercent : option Z
}.

End DeploymentConfiguration.

Module LoadBalancer.

Record t : Type := {
  ContainerName : option string;
  ContainerPort : option Z;
  LoadBalancerName : option string;
  TargetGroupArn : option string
}.

End LoadBalancer.

Module ServiceRegistry.

Record t : Type := {
  ContainerName : option string;
  ContainerPort : option Z;
  Port : option Z;
  RegistryArn : option string
}.

End ServiceRegistry.

Module RunTaskInput.

Record t : Type := {
  Cluster : option string;
  Count : option Z;
  Group : option string;
  LaunchType : option string;
  NetworkConfiguration : option NetworkConfiguration.t;
  Overrides : option TaskOverride.t;
  PlacementConstraints : option (list (option PlacementConstraint.t));
  PlacementStrategy : option (list (option PlacementStrategy.t));
  PlatformVersion : option string;
  StartedBy : option string;
  TaskDefinition : option string
}.

(** [func (s *RunTaskInput) Validate() error] *)
Definition Validate (s : t) : option ErrInvalidParams :=
  let invalidParams := {| Context := "RunTaskInput"; errs := [] |} in
  let invalidParams :=
    required "TaskDefinition" (TaskDefinition s) invalidParams in
  let invalidParams :=
    validateNested NetworkConfiguration.Validate "NetworkConfiguration"
      (NetworkConfiguration s) invalidParams in
  result invalidParams.

End RunTaskInput.

Module StartTaskInput.

Record t : Type := {
  Cluster : option string;
  ContainerInstances : option (list (option string));
  Group : option string;
  NetworkConfiguration : option NetworkConfiguration.t;
  Overrides : option TaskOverride.t;
  StartedBy : option string;
  TaskDefinition : option string
}.

(** [func (s *StartTaskInput) Validate() error] *)
Definition Validate (s : t) : option ErrInvalidParams :=
  let invalidParams := {| Context := "StartTaskInput"; errs := [] |} in
  let invalidParams :=
    required "ContainerInstances" (ContainerInstances s) invalidParams in
  let invalidParams :=
    required "TaskDefinition" (TaskDefinition s) invalidParams in
  let invalidParams :=
    validateNested NetworkConfiguration.Validate "NetworkConfiguration"
      (NetworkConfiguration s) invalidParams in
  result invalidParams.

End StartTaskInput.

Module CreateServiceInput.

Record t : Type := {
  ClientToken : option string;
  Cluster : option string;
  DeploymentConfiguration : option DeploymentConfiguration.t;
  DesiredCount : option Z;
  HealthCheckGracePeriodSeconds : option Z;
  LaunchType : option string;
  LoadBalancers : option (list (option LoadBalancer.t));
  NetworkConfiguration : option NetworkConfiguration.t;
  PlacementConstraints : option (list (option PlacementConstraint.t));
  PlacementStrategy : option (list (option PlacementStrategy.t));
  PlatformVersion : option string;
  Role : option string;
  SchedulingStrategy : option string;
  ServiceName : option string;
  ServiceRegistries : option (list (option ServiceRegistry.t));
  TaskDefinition : option string
}.

(** [func (s *CreateServiceInput) Validate() error] *)
Definition Validate (s : t) : option ErrInvalidParams :=
  let invalidParams := {| Context := "CreateServiceInput"; errs := [] |} in
  let invalidParams := required "ServiceName" (ServiceName s) invalidParams in
  let invalidParams :=
    required "TaskDefinition" (TaskDefinition s) invalidParams in
  let invalidParams :=
    validateNested NetworkConfiguration.Validate "NetworkConfiguration"
      (NetworkConfiguration s) invalidParams in
  result invalidParams.

End CreateServiceInput.

Module UpdateServiceInput.

Record t : Type := {
  Cluster : option string;
  DeploymentConfiguration : option DeploymentConfiguration.t;
  DesiredCount : option Z;
  ForceNewDeployment : option bool;
  HealthCheckGracePeriodSeconds : option Z;
  NetworkConfiguration : option NetworkConfiguration.t;
  PlatformVersion : option string;
  Service : option string;
  TaskDefinition : option string
}.

(** [func (s *UpdateServiceInput) Validate() error] *)
Definition Validate (s : t) : option ErrInvalidParams :=
  let invalidParams := {| Context := "UpdateServiceInput"; errs := [] |} in
  let invalidParams := required "Service" (Service s) invalidParams in
  let invalidParams :=
    validateNested NetworkConfiguration.Validate "NetworkConfiguration"
      (NetworkConfiguration s) invalidParams in
  result invalidParams.

End UpdateServiceInput.

(** ** A task definition to register

    One container, [web], with two devices in its Linux parameters; the
    second device has no host path.  The list of container definitions
    starts with a nil entry. *)
Definition demoLinuxParameters : LinuxParameters.t :=
  {| LinuxParameters.Capabilities := None;
     LinuxParameters.Devices :=
       Some [Some {| Device.ContainerPath := Some "/dev/xvdc";
                     Device.HostPath := Some "/dev/sdc";
                     Device.Permissions := None |};
             Some {| Device.ContainerPath := Some "/dev/xvdd";
                     Device.HostPath := None;
                     Device.Permissions := None |}];
     LinuxParameters.InitProcessEnabled := Some true;
     LinuxParameters.SharedMemorySize := None;
     LinuxParameters.Tmpfs := None |}.

Definition demoContainerDefinition : ContainerDefinition.t :=
  {| ContainerDefinition.Command := None;
     ContainerDefinition.Cpu := Some 256%Z;
     ContainerDefinition.DisableNetworking := None;
     ContainerDefinition.DnsSearchDomains := None;
     ContainerDefinition.DnsServers := None;
     ContainerDefinition.DockerLabels := None;
     ContainerDefinition.DockerSecurityOptions := None;
     ContainerDefinition.EntryPoint := None;
     ContainerDefinition.Environment := None;
     ContainerDefinition.Essential := Some true;
     ContainerDefinition.ExtraHosts := None;
     ContainerDefinition.HealthCheck := None;
     ContainerDefinition.Hostname := None;
     ContainerDefinition.Image := Some "nginx:latest";
     ContainerDefinition.Interactive := None;
     ContainerDefinition.Links := None;
     ContainerDefinition.LinuxParameters := Some demoLinuxParameters;
     ContainerDefinition.LogConfiguration := None;
     ContainerDefinition.Memory := Some 512%Z;
     ContainerDefinition.MemoryReservation := None;
     ContainerDefinition.MountPoints := None;
     ContainerDefinition.Name := Some "web";
     ContainerDefinition.PortMappings := None;
     ContainerDefinition.Privileged := None;
     ContainerDefinition.PseudoTerminal := None;
     ContainerDefinition.ReadonlyRootFilesystem := None;
     ContainerDefinition.RepositoryCredentials := None;
     ContainerDefinition.ResourceRequirements := None;
     ContainerDefinition.Secrets := None;
     ContainerDefinition.SystemControls := None;
     ContainerDefinition.Ulimits := None;
     ContainerDefinition.User := None;
     ContainerDefinition.VolumesFrom := None;
     ContainerDefinition.WorkingDirectory := None |}.

Definition demoTaskDefinition : RegisterTaskDefinitionInput.t :=
  {| RegisterTaskDefinitionInput.ContainerDefinitions :=
       Some [None; Some demoContainerDefinition];
     RegisterTaskDefinitionInput.Cpu := None;
     RegisterTaskDefinitionInput.ExecutionRoleArn := None;
     RegisterTaskDefinitionInput.Family := Some "web";
     RegisterTaskDefinitionInput.IpcMode := None;
     RegisterTaskDefinitionInput.Memory := None;
     RegisterTaskDefinitionInput.NetworkMode := None;
     RegisterTaskDefinitionInput.PidMode := None;
     RegisterTaskDefinitionInput.PlacementConstraints := None;
     RegisterTaskDefinitionInput.RequiresCompatibilities := None;
     RegisterTaskDefinitionInput.Tags := None;
     RegisterTaskDefinitionInput.TaskRoleArn := None;
     RegisterTaskDefinitionInput.Volumes := None |}.

(** ** What the steps do to the collected errors *)

Lemma result_None p : result p = None ↔ errs p = [].
Proof.
  unfold result, Len. destruct (errs p); cbn; case_decide; split;
    try done; lia.
Qed.

Lemma result_Some p err : result p = Some err ↔ err = p ∧ errs p ≠ [].
Proof.
  unfold result, Len. destruct (errs p); cbn; case_decide; split;
    try done; try lia; try (by intros [= <-]); try (by intros [-> _]);
    by intros [_ ?].
Qed.

(** A validator that, like every [Validate], returns an error only with
    something in it. *)
Definition reportsErrors {A} (Validate : A → option ErrInvalidParams) : Prop :=
  ∀ a err, Validate a = Some err → errs err ≠ [].

Ltac solve_reports :=
  let H := fresh in
  intros ? ? H; apply result_Some in H as [-> H]; exact H.

Lemma required_Context {A} name (fld : option A) p :
  Context (required name fld p) = Context p.
Proof. by destruct fld. Qed.

Lemma validateElements_Context {A} (V : A → option ErrInvalidParams) name l :
  ∀ i p, Context (validateElements V name i l p) = Context p.
Proof.
  induction l as [|[v|] rest IH]; intros i p; cbn; [done| |by rewrite IH].
  destruct (V v); by rewrite IH.
Qed.

Lemma validateList_Context {A} (V : A → option ErrInvalidParams) name fld p :
  Context (validateList V name fld p) = Context p.
Proof. destruct fld; [apply validateElements_Context|done]. Qed.

Lemma validateNested_Context {A} (V : A → option ErrInvalidParams) name fld p :
  Context (validateNested V name fld p) = Context p.
Proof. destruct fld as [v|]; [|done]. cbn. by destruct (V v). Qed.

Lemma required_elem {A} name (fld : option A) p e :
  e ∈ errs (required name fld p)
  ↔ e ∈ errs p
    ∨ (fld = None ∧ e = SetContext (Context p) (NewErrParamRequired name)).
Proof.
  destruct fld; cbn.
  - split; [by left|]. by intros [?|[[=] _]].
  - rewrite elem_of_app, list_elem_of_singleton. naive_solver.
Qed.

Lemma AddNested_elem name nested p e :
  e ∈ errs (AddNested name nested p)
  ↔ e ∈ errs p
    ∨ ∃ e0, e0 ∈ errs nested
            ∧ e = AddNestedContext name (SetContext (Context p) e0).
Proof.
  cbn. rewrite elem_of_app, list_elem_of_fmap.
  split; (intros [?|(e0 & ? & ?)]; [by left|right; by exists e0]).
Qed.

Lemma validateElements_elem {A} (V : A → option ErrInvalidParams) name l :
  ∀ i p e,
    e ∈ errs (validateElements V name i l p)
    ↔ e ∈ errs p
      ∨ ∃ j a err e0,
          l !! j = Some (Some a) ∧ V a = Some err ∧ e0 ∈ errs err
          ∧ e = AddNestedContext (indexed name (i + j))
                  (SetContext (Context p) e0).
Proof.
  induction l as [|[v|] rest IH]; intros i p e; cbn.
  - split; [by left|]. by intros [?|(j & a & err & e0 & [=] & _)].
  - destruct (V v) as [errv|] eqn:Hv; rewrite IH.
    + rewrite AddNested_elem. cbn [Context AddNested]. split.
      * intros [[?|(e0 & He0 & ->)]|(j & a & err & e0 & Hj & Ha & He0 & ->)].
        -- by left.
        -- right. exists 0, v, errv, e0. by rewrite Nat.add_0_r.
        -- right. exists (S j), a, err, e0. by rewrite Nat.add_succ_r.
      * intros [?|(j & a & err & e0 & Hj & Ha & He0 & ->)]; [by left; left|].
        destruct j as [|j]; cbn in Hj.
        -- injection Hj as <-. rewrite Hv in Ha. injection Ha as <-.
           left. right. exists e0. by rewrite Nat.add_0_r.
        -- right. exists j, a, err, e0. by rewrite Nat.add_succ_r.
    + split.
      * intros [?|(j & a & err & e0 & Hj & Ha & He0 & ->)]; [by left|].
        right. exists (S j), a, err, e0. by rewrite Nat.add_succ_r.
      * intros [?|(j & a & err & e0 & Hj & Ha & He0 & ->)]; [by left|].
        destruct j as [|j]; cbn in Hj.
        -- injection Hj as <-. by rewrite Hv in Ha.
        -- right. exists j, a, err, e0. by rewrite Nat.add_succ_r.
  - rewrite IH. split.
    + intros [?|(j & a & err & e0 & Hj & Ha & He0 & ->)]; [by left|].
      right. exists (S j), a, err, e0. by rewrite Nat.add_succ_r.
    + intros [?|(j & a & err & e0 & Hj & Ha & He0 & ->)]; [by left|].
      destruct j as [|j]; cbn in Hj; [done|].
      right. exists j, a, err, e0. by rewrite Nat.add_succ_r.
Qed.

Lemma validateList_elem {A} (V : A → option ErrInvalidParams) name fld p e :
  e ∈ errs (validateList V name fld p)
  ↔ e ∈ errs p
    ∨ ∃ l j a err e0,
        fld = Some l ∧ l !! j = Some (Some a) ∧ V a = Some err
        ∧ e0 ∈ errs err
        ∧ e = AddNestedContext (indexed name j) (SetContext (Context p) e0).
Proof.
  destruct fld as [l|]; cbn.
  - rewrite validateElements_elem. split.
    + intros [?|(j & a & err & e0 & ? & ? & ? & ->)]; [by left|].
      right. by exists l, j, a, err, e0.
    + intros [?|(l' & j & a & err & e0 & [= <-] & ? & ? & ? & ->)];
        [by left|].
      right. by exists j, a, err, e0.
  - split; [by left|]. by intros [?|(l' & j & a & err & e0 & [=] & _)].
Qed.

Lemma validateNested_elem {A} (V : A → option ErrInvalidParams) name fld p e :
  e ∈ errs (validateNested V name fld p)
  ↔ e ∈ errs p
    ∨ ∃ a err e0,
        fld = Some a ∧ V a = Some err ∧ e0 ∈ errs err
        ∧ e = AddNestedContext name (SetContext (Context p) e0).
Proof.
  destruct fld as [v|]; cbn.
  - destruct (V v) as [errv|] eqn:Hv.
    + rewrite AddNested_elem. split.
      * intros [?|(e0 & ? & ->)]; [by left|]. right. by exists v, errv, e0.
      * intros [?|(a & err & e0 & [= <-] & Ha & ? & ->)]; [by left|].
        rewrite Hv in Ha. injection Ha as <-. right. by exists e0.
    + split; [by left|].
      intros [?|(a & err & e0 & [= <-] & Ha & _)]; [done|].
      by rewrite Hv in Ha.
  - split; [by left|]. by intros [?|(a & err & e0 & [=] & _)].
Qed.

(** Every non-nil element of a list member, or the value of a pointer member
    if it is set, has a property. *)
Definition allOf {A} (P : A → Prop) (fld : option (list (option A))) : Prop :=
  ∀ l a, fld = Some l → Some a ∈ l → P a.

Definition ifSet {A} (P : A → Prop) (fld : option A) : Prop :=
  ∀ a, fld = Some a → P a.

Lemma allOf_iff {A} (P Q : A → Prop) fld :
  (∀ a, P a ↔ Q a) → allOf P fld ↔ allOf Q fld.
Proof. intros H. unfold allOf. by setoid_rewrite H. Qed.

Lemma ifSet_iff {A} (P Q : A → Prop) (fld : option A) :
  (∀ a, P a ↔ Q a) → ifSet P fld ↔ ifSet Q fld.
Proof. intros H. unfold ifSet. by setoid_rewrite H. Qed.

Lemma no_errors_iff (l : list ErrInvalidParam) : l = [] ↔ ∀ e, e ∉ l.
Proof.
  split; [intros -> e; apply not_elem_of_nil|apply elem_of_nil_inv].
Qed.

Lemma some_error (l : list ErrInvalidParam) : l ≠ [] → ∃ e, e ∈ l.
Proof. destruct l as [|e l]; [done|]. intros _. exists e. by left. Qed.

Lemma required_clean {A} name (fld : option A) p :
  errs (required name fld p) = [] ↔ errs p = [] ∧ is_Some fld.
Proof.
  destruct fld; cbn.
  - split; [eauto|by intros [? _]].
  - split; [|by intros [_ [? [=]]]].
    intros H. by apply app_eq_nil in H as [_ [=]].
Qed.

Lemma validateList_clean {A} (V : A → option ErrInvalidParams) name fld p :
  reportsErrors V →
  errs (validateList V name fld p) = []
  ↔ errs p = [] ∧ allOf (λ a, V a = None) fld.
Proof.
  intros HV. rewrite !no_errors_iff. setoid_rewrite validateList_elem.
  split.
  - intros H. split; [intros e He; apply (H e); by left|].
    intros l a -> Hin. destruct (V a) as [err|] eqn:Ha; [|done].
    apply list_elem_of_lookup in Hin as [j Hj].
    destruct (some_error _ (HV _ _ Ha)) as [e0 He0].
    exfalso. eapply H. right. by exists l, j, a, err, e0.
  - intros [Hp Hall] e [?|(l & j & a & err & e0 & -> & Hj & Ha & _)];
      [by eapply Hp|].
    rewrite (Hall l a) in Ha; [done..|]. by eapply list_elem_of_lookup_2.
Qed.

Lemma validateNested_clean {A} (V : A → option ErrInvalidParams) name fld p :
  reportsErrors V →
  errs (validateNested V name fld p) = []
  ↔ errs p = [] ∧ ifSet (λ a, V a = None) fld.
Proof.
  intros HV. rewrite !no_errors_iff. setoid_rewrite validateNested_elem.
  split.
  - intros H. split; [intros e He; apply (H e); by left|].
    intros a ->. destruct (V a) as [err|] eqn:Ha; [|done].
    destruct (some_error _ (HV _ _ Ha)) as [e0 He0].
    exfalso. eapply H. right. by exists a, err, e0.
  - intros [Hp Hset] e [?|(a & err & e0 & -> & Ha & _)]; [by eapply Hp|].
    by rewrite (Hset a) in Ha.
Qed.

Lemma validateList_reports {A} (V : A → option ErrInvalidParams)
    name fld p l j a err e0 :
  fld = Some l → l !! j = Some (Some a) → V a = Some err → e0 ∈ errs err →
  AddNestedContext (indexed name j) (SetContext (Context p) e0)
  ∈ errs (validateList V name fld p).
Proof.
  intros. apply validateList_elem. right. by exists l, j, a, err, e0.
Qed.

Lemma validateNested_reports {A} (V : A → option ErrInvalidParams)
    name fld p a err e0 :
  fld = Some a → V a = Some err → e0 ∈ errs err →
  AddNestedContext name (SetContext (Context p) e0)
  ∈ errs (validateNested V name fld p).
Proof. intros. apply validateNested_elem. right. by exists a, err, e0. Qed.

Lemma validateList_keeps {A} (V : A → option ErrInvalidParams) name fld p e :
  e ∈ errs p → e ∈ errs (validateList V name fld p).
Proof. intros. apply validateList_elem. by left. Qed.

Lemma validateNested_keeps {A} (V : A → option ErrInvalidParams) name fld p e :
  e ∈ errs p → e ∈ errs (validateNested V name fld p).
Proof. intros. apply validateNested_elem. by left. Qed.

Lemma result_reports p e : e ∈ errs p → result p = Some p.
Proof.
  intros He. apply result_Some. split; [done|]. intros Hnil.
  rewrite Hnil in He. by apply elem_of_nil in He.
Qed.

Lemma AddNestedContext_context ctx e :
  context (AddNestedContext ctx e) = context e.
Proof. done. Qed.

Lemma AddNestedContext_nested ctx e :
  nestedContext e ≠ "" →
  nestedContext (AddNestedContext ctx e) = ctx +:+ "." +:+ nestedContext e.
Proof. intros H. unfold AddNestedContext. cbn. by rewrite decide_False. Qed.

(** The errors collected carry the context of the collection. *)
Definition carryContext (p : ErrInvalidParams) : Prop :=
  ∀ e, e ∈ errs p → context e = Context p.

Lemma required_carryContext {A} name (fld : option A) p :
  carryContext p → carryContext (required name fld p).
Proof.
  intros Hp e. rewrite required_elem, required_Context.
  intros [?|[_ ->]]; [by apply Hp|done].
Qed.

Lemma validateList_carryContext {A} (V : A → option ErrInvalidParams)
    name fld p :
  carryContext p → carryContext (validateList V name fld p).
Proof.
  intros Hp e. rewrite validateList_elem, validateList_Context.
  intros [?|(l & j & a & err & e0 & _ & _ & _ & _ & ->)]; [by apply Hp|done].
Qed.

Lemma validateNested_carryContext {A} (V : A → option ErrInvalidParams)
    name fld p :
  carryContext p → carryContext (validateNested V name fld p).
Proof.
  intros Hp e. rewrite validateNested_elem, validateNested_Context.
  intros [?|(a & err & e0 & _ & _ & _ & ->)]; [by apply Hp|done].
Qed.

(** ** The leaves *)

Lemma Attribute_Validate_Some a err :
  Attribute.Validate a = Some err
  ↔ Attribute.Name a = None
    ∧ err = {| Context := "Attribute";
               errs := [{| code := "ParamRequiredError"; field := "Name";
                           context := "Attribute"; nestedContext := "" |}] |}.
Proof.
  unfold Attribute.Validate. destruct (Attribute.Name a); cbn.
  - split; [done|by intros [[=] _]].
  - split; [by intros [= <-]|by intros [_ ->]].
Qed.

Lemma Attribute_Validate_None a :
  Attribute.Validate a = None ↔ is_Some (Attribute.Name a).
Proof.
  unfold Attribute.Validate. destruct (Attribute.Name a); cbn.
  - split; eauto.
  - split; [done|by intros [? [=]]].
Qed.

Lemma Tag_Validate_Some t err :
  Tag.Validate t = Some err
  ↔ Tag.Key t = Some ""
    ∧ err = {| Context := "Tag";
               errs := [{| code := "ParamMinLenError"; field := "Key";
                           context := "Tag"; nestedContext := "" |}] |}.
Proof.
  unfold Tag.Validate. destruct (Tag.Key t) as [[|c key]|]; cbn.
  - split; [by intros [= <-]|by intros [_ ->]].
  - split; [done|by intros [[=] _]].
  - split; [done|by intros [[=] _]].
Qed.

Lemma Tag_Validate_None t : Tag.Validate t = None ↔ Tag.Key t ≠ Some "".
Proof.
  destruct (Tag.Validate t) as [err|] eqn:Hv.
  - apply Tag_Validate_Some in Hv as [-> _]. split; [done|]. by intros [].
  - split; [|done]. intros _ Hkey.
    assert (is_Some (Tag.Validate t)) as [? ?]; [|congruence].
    eexists. apply Tag_Validate_Some. eauto.
Qed.

Lemma Attribute_reportsErrors : reportsErrors Attribute.Validate.
Proof. solve_reports. Qed.

Lemma Tag_reportsErrors : reportsErrors Tag.Validate.
Proof. solve_reports. Qed.

Lemma AttachmentStateChange_Validate_Some a err e0 :
  AttachmentStateChange.Validate a = Some err →
  e0 ∈ errs err
  ↔ ∃ fld,
      (fld = "AttachmentArn" ∧ AttachmentStateChange.AttachmentArn a = None
       ∨ fld = "Status" ∧ AttachmentStateChange.Status a = None)
      ∧ e0 = {| code := "ParamRequiredError"; field := fld;
                context := "AttachmentStateChange"; nestedContext := "" |}.
Proof.
  unfold AttachmentStateChange.Validate.
  destruct a as [[arn|] [status|]]; cbn; intros [= <-]; cbn;
    rewrite ?elem_of_cons, ?elem_of_nil; naive_solver.
Qed.

Lemma validateAttachments_validateElements attachments :
  ∀ i p,
    SubmitTaskStateChangeInput.validateAttachments i attachments p
    = validateElements AttachmentStateChange.Validate "Attachments" i
        attachments p.
Proof.
  induction attachments as [|[v|] rest IH]; intros i p; cbn; [done| |done].
  destruct (AttachmentStateChange.Validate v); by rewrite IH.
Qed.

(** ** How often an entry occurs *)

Lemma append_char_inj c s1 s2 :
  s1 +:+ String c "" = s2 +:+ String c "" → s1 = s2.
Proof.
  revert s2. induction s1 as [|a s1 IH]; intros [|b s2]; cbn; intros H;
    try done.
  - injection H as _ H. by destruct s2.
  - injection H as _ H. by destruct s1.
  - injection H as -> H. f_equal. by apply IH.
Qed.

(** [fmt.Sprintf("%s[%v]", name, i)] tells the indices apart. *)
Lemma indexed_inj name i j : indexed name i = indexed name j → i = j.
Proof.
  unfold indexed. intros H. apply (inj (String.app name)) in H.
  apply (inj (String.app "[")) in H. apply append_char_inj in H.
  by apply (inj pretty) in H.
Qed.

(** A validator of a leaf: the entries of its error differ in their fields
    and have no nested context. *)
Definition leafErrors {A} (V : A → option ErrInvalidParams) : Prop :=
  ∀ a err, V a = Some err →
    NoDup (field <$> errs err) ∧ ∀ e, e ∈ errs err → nestedContext e = "".

Lemma validateElements_NoDup {A} (V : A → option ErrInvalidParams) name l :
  leafErrors V →
  ∀ i p,
    NoDup (errs p) →
    (∀ e j, e ∈ errs p → (i ≤ j)%nat → nestedContext e ≠ indexed name j) →
    NoDup (errs (validateElements V name i l p)).
Proof.
  intros HV. induction l as [|[v|] rest IH]; intros i p Hp Hold; cbn;
    [done| |].
  - destruct (V v) as [err|] eqn:Hv.
    + destruct (HV _ _ Hv) as [Hfields Hflat]. apply IH.
      * cbn. apply NoDup_app. split; [done|]. split.
        -- intros e He (e0 & -> & He0)%list_elem_of_fmap.
           apply (Hold _ i He); [lia|]. cbn.
           by rewrite (Hflat _ He0), decide_True.
        -- apply (NoDup_fmap_1 field). by rewrite <- list_fmap_compose.
      * intros e j [He|(e0 & -> & He0)%list_elem_of_fmap]%elem_of_app Hj.
        -- apply Hold; [done|lia].
        -- cbn. rewrite (Hflat _ He0), decide_True by done.
           intros Heq%indexed_inj. lia.
    + apply IH; [done|]. intros e j He Hj. apply Hold; [done|lia].
  - apply IH; [done|]. intros e j He Hj. apply Hold; [done|lia].
Qed.

Lemma validateList_NoDup {A} (V : A → option ErrInvalidParams) name fld p :
  leafErrors V →
  NoDup (errs p) →
  (∀ e j, e ∈ errs p → nestedContext e ≠ indexed name j) →
  NoDup (errs (validateList V name fld p)).
Proof.
  intros HV Hp Hold. destruct fld as [l|]; [|done].
  apply validateElements_NoDup; [done..|]. intros e j He _. by apply Hold.
Qed.

Lemma AttachmentStateChange_leafErrors :
  leafErrors AttachmentStateChange.Validate.
Proof.
  unfold AttachmentStateChange.Validate.
  intros [[arn|] [status|]] err; cbn; intros [= <-]; cbn;
    (split; [apply (bool_decide_unpack _); by vm_compute|]);
    intros e; rewrite ?elem_of_cons, ?elem_of_nil; naive_solver.
Qed.

Lemma Attribute_leafErrors : leafErrors Attribute.Validate.
Proof.
  intros a err [_ ->]%Attribute_Validate_Some. cbn.
  split; [apply NoDup_singleton|]. by intros e ->%list_elem_of_singleton.
Qed.

Lemma Tag_leafErrors : leafErrors Tag.Validate.
Proof.
  intros t err [_ ->]%Tag_Validate_Some. cbn.
  split; [apply NoDup_singleton|]. by intros e ->%list_elem_of_singleton.
Qed.

(** ** The state-change and registration requests of the agent *)

(** X7. An error of [SubmitTaskStateChangeInput.Validate] has the context
    [SubmitTaskStateChangeInput] and holds exactly one entry for every
    required field that a non-nil attachment lacks, and no other entry: no
    entry occurs twice in it; its entries are those with the code
    [ParamRequiredError], the name of a missing field, and as nested context
    [Attachments[i]], where [i] is the index of the attachment in the list,
    nil entries counted; and the nested contexts of two indices differ, so
    that the entries of two missing fields do. *)
Theorem SubmitTaskStateChangeInput_Validate_names_each_missing_field
    (s : SubmitTaskStateChangeInput.t) attachments err :
  SubmitTaskStateChangeInput.Attachments s = Some attachments →
  SubmitTaskStateChangeInput.Validate s = Some err →
  Context err = "SubmitTaskStateChangeInput"
  ∧ NoDup (errs err)
  ∧ (∀ e,
       e ∈ errs err
       ↔ ∃ i a fld,
           attachments !! i = Some (Some a)
           ∧ (fld = "AttachmentArn"
              ∧ AttachmentStateChange.AttachmentArn a = None
              ∨ fld = "Status" ∧ AttachmentStateChange.Status a = None)
           ∧ e = {| code := "ParamRequiredError"; field := fld;
                    context := "SubmitTaskStateChangeInput";
                    nestedContext := indexed "Attachments" i |})
  ∧ (∀ i j, indexed "Attachments" i = indexed "Attachments" j → i = j).
Proof.
  intros Hatts. unfold SubmitTaskStateChangeInput.Validate. rewrite Hatts.
  rewrite validateAttachments_validateElements.
  case_decide as Hlen; [|done]. intros [= <-].
  split; [by rewrite validateElements_Context|].
  split.
  { apply validateElements_NoDup;
      [apply AttachmentStateChange_leafErrors|apply NoDup_nil_2|].
    by intros e j He%elem_of_nil. }
  split; [|apply indexed_inj].
  intros e. rewrite validateElements_elem. cbn [errs Context]. split.
  - intros [He|(i & a & erra & e0 & Hi & Ha & He0 & ->)];
      [by apply elem_of_nil in He|].
    apply (AttachmentStateChange_Validate_Some _ _ _ Ha) in He0
      as (fld & Hfld & ->).
    by exists i, a, fld.
  - intros (i & a & fld & Hi & Hfld & ->). right.
    destruct (AttachmentStateChange.Validate a) as [erra|] eqn:Ha.
    + exists i, a, erra, {| code := "ParamRequiredError"; field := fld;
                           context := "AttachmentStateChange";
                           nestedContext := "" |}.
      split; [done|]. split; [done|]. split; [|done].
      apply (AttachmentStateChange_Validate_Some _ _ _ Ha). by exists fld.
    + exfalso.
      assert (is_Some (AttachmentStateChange.Validate a)) as [? ?];
        [|congruence].
      apply AttachmentStateChange_Validate_error. unfold missingRequired.
      naive_solver.
Qed.

(** X8. [RegisterContainerInstanceInput.Validate] returns nil exactly when
    every non-nil attribute has a name and no non-nil tag has an empty key;
    a tag without a key passes.  An error holds exactly one entry for every
    attribute without a name ([ParamRequiredError] on [Name], under
    [Attributes[i]]) and exactly one for every tag with an empty key
    ([ParamMinLenError] on [Key], under [Tags[i]]), and no other entry: no
    entry occurs twice in it, its entries are these, and the nested contexts
    of two indices differ, so that the entries of two attributes, or of two
    tags, do. *)
Theorem RegisterContainerInstanceInput_Validate_checks_names_and_keys
    (s : RegisterContainerInstanceInput.t) :
  (RegisterContainerInstanceInput.Validate s = None
   ↔ allOf (λ a, is_Some (Attribute.Name a))
       (RegisterContainerInstanceInput.Attributes s)
     ∧ allOf (λ t, Tag.Key t ≠ Some "")
         (RegisterContainerInstanceInput.Tags s))
  ∧ (∀ err,
       RegisterContainerInstanceInput.Validate s = Some err →
       Context err = "RegisterContainerInstanceInput"
       ∧ NoDup (errs err)
       ∧ (∀ e,
            e ∈ errs err
            ↔ (∃ l i a,
                 RegisterContainerInstanceInput.Attributes s = Some l
                 ∧ l !! i = Some (Some a) ∧ Attribute.Name a = None
                 ∧ e = {| code := "ParamRequiredError"; field := "Name";
                          context := "RegisterContainerInstanceInput";
                          nestedContext := indexed "Attributes" i |})
              ∨ (∃ l i t,
                   RegisterContainerInstanceInput.Tags s = Some l
                   ∧ l !! i = Some (Some t) ∧ Tag.Key t = Some ""
                   ∧ e = {| code := "ParamMinLenError"; field := "Key";
                            context := "RegisterContainerInstanceInput";
                            nestedContext := indexed "Tags" i |})))
  ∧ (∀ name i j, indexed name i = indexed name j → i = j).
Proof.
  unfold RegisterContainerInstanceInput.Validate.
  split; [|split; [|apply indexed_inj]].
  - rewrite result_None.
    rewrite validateList_clean by apply Tag_reportsErrors.
    rewrite validateList_clean by apply Attribute_reportsErrors.
    rewrite (allOf_iff _ _ _ Attribute_Validate_None).
    rewrite (allOf_iff _ _ _ Tag_Validate_None). cbn. naive_solver.
  - intros err [-> _]%result_Some.
    split; [by rewrite !validateList_Context|].
    split.
    { apply validateList_NoDup; [apply Tag_leafErrors| |].
      - apply validateList_NoDup;
          [apply Attribute_leafErrors|apply NoDup_nil_2|].
        by intros e j He%elem_of_nil.
      - intros e j. rewrite validateList_elem. cbn [errs Context].
        intros [He|(l & i & a & erra & e0 & _ & _ & Ha & He0 & ->)];
          [by apply elem_of_nil in He|].
        apply Attribute_Validate_Some in Ha as [_ ->].
        by apply list_elem_of_singleton in He0 as ->. }
    intros e. rewrite !validateList_elem, !validateList_Context.
    cbn [errs Context]. split.
    + intros [[He|(l & i & a & erra & e0 & Hl & Hi & Ha & He0 & ->)]
             |(l & i & t & errt & e0 & Hl & Hi & Ht & He0 & ->)].
      * by apply elem_of_nil in He.
      * apply Attribute_Validate_Some in Ha as [Hname ->].
        apply list_elem_of_singleton in He0 as ->.
        left. by exists l, i, a.
      * apply Tag_Validate_Some in Ht as [Hkey ->].
        apply list_elem_of_singleton in He0 as ->.
        right. by exists l, i, t.
    + intros [(l & i & a & Hl & Hi & Hname & ->)
             |(l & i & t & Hl & Hi & Hkey & ->)].
      * left. right. eexists l, i, a, _, _. split; [done|]. split; [done|].
        split; [by apply Attribute_Validate_Some|].
        split; [by apply list_elem_of_singleton|done].
      * right. eexists l, i, t, _, _. split; [done|]. split; [done|].
        split; [by apply Tag_Validate_Some|].
        split; [by apply list_elem_of_singleton|done].
Qed.

(** X9. [PutAttributesInput.Validate] and [DeleteAttributesInput.Validate]
    tell a nil list of attributes from an empty one: they return nil exactly
    when the list is not nil and every non-nil attribute in it has a name,
    so an empty list passes; for a nil list the error is the single entry
    [ParamRequiredError] on [Attributes]. *)
Theorem AttributesInput_Validate_wants_a_list_that_may_be_empty :
  (∀ s, PutAttributesInput.Validate s = None
        ↔ is_Some (PutAttributesInput.Attributes s)
          ∧ allOf (λ a, is_Some (Attribute.Name a))
              (PutAttributesInput.Attributes s))
  ∧ (∀ s, DeleteAttributesInput.Validate s = None
          ↔ is_Some (DeleteAttributesInput.Attributes s)
            ∧ allOf (λ a, is_Some (Attribute.Name a))
                (DeleteAttributesInput.Attributes s))
  ∧ (∀ s, PutAttributesInput.Attributes s = None →
          PutAttributesInput.Validate s
          = Some {| Context := "PutAttributesInput";
                    errs := [{| code := "ParamRequiredError";
                                field := "Attributes";
                                context := "PutAttributesInput";
                                nestedContext := "" |}] |})
  ∧ (∀ s, DeleteAttributesInput.Attributes s = None →
          DeleteAttributesInput.Validate s
          = Some {| Context := "DeleteAttributesInput";
                    errs := [{| code := "ParamRequiredError";
                                field := "Attributes";
                                context := "DeleteAttributesInput";
                                nestedContext := "" |}] |})
  ∧ (∀ s, PutAttributesInput.Attributes s = Some [] →
          PutAttributesInput.Validate s = None)
  ∧ (∀ s, DeleteAttributesInput.Attributes s = Some [] →
          DeleteAttributesInput.Validate s = None).
Proof.
  assert (Hput : ∀ s, PutAttributesInput.Validate s = None
                      ↔ is_Some (PutAttributesInput.Attributes s)
                        ∧ allOf (λ a, is_Some (Attribute.Name a))
                            (PutAttributesInput.Attributes s)).
  { intros s. unfold PutAttributesInput.Validate. rewrite result_None.
    rewrite validateList_clean by apply Attribute_reportsErrors.
    rewrite required_clean, (allOf_iff _ _ _ Attribute_Validate_None).
    cbn. naive_solver. }
  assert (Hdel : ∀ s, DeleteAttributesInput.Validate s = None
                      ↔ is_Some (DeleteAttributesInput.Attributes s)
                        ∧ allOf (λ a, is_Some (Attribute.Name a))
                            (DeleteAttributesInput.Attributes s)).
  { intros s. unfold DeleteAttributesInput.Validate. rewrite result_None.
    rewrite validateList_clean by apply Attribute_reportsErrors.
    rewrite required_clean, (allOf_iff _ _ _ Attribute_Validate_None).
    cbn. naive_solver. }
  split; [exact Hput|]. split; [exact Hdel|].
  split; [|split; [|split]].
  - intros s Hnil. unfold PutAttributesInput.Validate. by rewrite Hnil.
  - intros s Hnil. unfold DeleteAttributesInput.Validate. by rewrite Hnil.
  - intros s Hempty. apply Hput. rewrite Hempty. split; [eauto|].
    intros l a [= <-] Hin. by apply elem_of_nil in Hin.
  - intros s Hempty. apply Hdel. rewrite Hempty. split; [eauto|].
    intros l a [= <-] Hin. by apply elem_of_nil in Hin.
Qed.

(** ** Registration of a task definition *)

Lemma HostEntry_reportsErrors : reportsErrors HostEntry.Validate.
Proof. solve_reports. Qed.

Lemma HealthCheck_reportsErrors : reportsErrors HealthCheck.Validate.
Proof. solve_reports. Qed.

Lemma Device_reportsErrors : reportsErrors Device.Validate.
Proof. solve_reports. Qed.

Lemma Tmpfs_reportsErrors : reportsErrors Tmpfs.Validate.
Proof. solve_reports. Qed.

Lemma LinuxParameters_reportsErrors : reportsErrors LinuxParameters.Validate.
Proof. solve_reports. Qed.

Lemma LogConfiguration_reportsErrors :
  reportsErrors LogConfiguration.Validate.
Proof. solve_reports. Qed.

Lemma RepositoryCredentials_reportsErrors :
  reportsErrors RepositoryCredentials.Validate.
Proof. solve_reports. Qed.

Lemma Secret_reportsErrors : reportsErrors Secret.Validate.
Proof. solve_reports. Qed.

Lemma Ulimit_reportsErrors : reportsErrors Ulimit.Validate.
Proof. solve_reports. Qed.

Lemma ContainerDefinition_reportsErrors :
  reportsErrors ContainerDefinition.Validate.
Proof. solve_reports. Qed.

(** What the validators ask of a set of Linux parameters, of a container
    definition and of a task definition. *)
Definition completeLinuxParameters (lp : LinuxParameters.t) : Prop :=
  allOf (λ d, is_Some (Device.HostPath d)) (LinuxParameters.Devices lp)
  ∧ allOf (λ t, is_Some (Tmpfs.ContainerPath t) ∧ is_Some (Tmpfs.Size t))
      (LinuxParameters.Tmpfs lp).

Definition completeContainerDefinition (cd : ContainerDefinition.t) : Prop :=
  allOf (λ h, is_Some (HostEntry.Hostname h) ∧ is_Some (HostEntry.IpAddress h))
    (ContainerDefinition.ExtraHosts cd)
  ∧ ifSet (λ h, is_Some (HealthCheck.Command h))
      (ContainerDefinition.HealthCheck cd)
  ∧ ifSet completeLinuxParameters (ContainerDefinition.LinuxParameters cd)
  ∧ ifSet (λ c, is_Some (LogConfiguration.LogDriver c))
      (ContainerDefinition.LogConfiguration cd)
  ∧ ifSet (λ r, is_Some (RepositoryCredentials.CredentialsParameter r))
      (ContainerDefinition.RepositoryCredentials cd)
  ∧ allOf (λ x, is_Some (Secret.Name x) ∧ is_Some (Secret.ValueFrom x))
      (ContainerDefinition.Secrets cd)
  ∧ allOf (λ u, is_Some (Ulimit.HardLimit u) ∧ is_Some (Ulimit.Name u)
                ∧ is_Some (Ulimit.SoftLimit u))
      (ContainerDefinition.Ulimits cd).

Definition completeTaskDefinition (s : RegisterTaskDefinitionInput.t) : Prop :=
  is_Some (RegisterTaskDefinitionInput.ContainerDefinitions s)
  ∧ is_Some (RegisterTaskDefinitionInput.Family s)
  ∧ allOf completeContainerDefinition
      (RegisterTaskDefinitionInput.ContainerDefinitions s)
  ∧ allOf (λ t, Tag.Key t ≠ Some "") (RegisterTaskDefinitionInput.Tags s).

Lemma HostEntry_Validate_None h :
  HostEntry.Validate h = None
  ↔ is_Some (HostEntry.Hostname h) ∧ is_Some (HostEntry.IpAddress h).
Proof.
  unfold HostEntry.Validate. rewrite result_None, !required_clean. cbn.
  naive_solver.
Qed.

Lemma HealthCheck_Validate_None h :
  HealthCheck.Validate h = None ↔ is_Some (HealthCheck.Command h).
Proof.
  unfold HealthCheck.Validate. rewrite result_None, !required_clean. cbn.
  naive_solver.
Qed.

Lemma Device_Validate_None d :
  Device.Validate d = None ↔ is_Some (Device.HostPath d).
Proof.
  unfold Device.Validate. rewrite result_None, !required_clean. cbn.
  naive_solver.
Qed.

Lemma Tmpfs_Validate_None t :
  Tmpfs.Validate t = None
  ↔ is_Some (Tmpfs.ContainerPath t) ∧ is_Some (Tmpfs.Size t).
Proof.
  unfold Tmpfs.Validate. rewrite result_None, !required_clean. cbn.
  naive_solver.
Qed.

Lemma LogConfiguration_Validate_None c :
  LogConfiguration.Validate c = None ↔ is_Some (LogConfiguration.LogDriver c).
Proof.
  unfold LogConfiguration.Validate. rewrite result_None, !required_clean.
  cbn. naive_solver.
Qed.

Lemma RepositoryCredentials_Validate_None r :
  RepositoryCredentials.Validate r = None
  ↔ is_Some (RepositoryCredentials.CredentialsParameter r).
Proof.
  unfold RepositoryCredentials.Validate.
  rewrite result_None, !required_clean. cbn. naive_solver.
Qed.

Lemma Secret_Validate_None x :
  Secret.Validate x = None
  ↔ is_Some (Secret.Name x) ∧ is_Some (Secret.ValueFrom x).
Proof.
  unfold Secret.Validate. rewrite result_None, !required_clean. cbn.
  naive_solver.
Qed.

Lemma Ulimit_Validate_None u :
  Ulimit.Validate u = None
  ↔ is_Some (Ulimit.HardLimit u) ∧ is_Some (Ulimit.Name u)
    ∧ is_Some (Ulimit.SoftLimit u).
Proof.
  unfold Ulimit.Validate. rewrite result_None, !required_clean. cbn.
  naive_solver.
Qed.

Lemma LinuxParameters_Validate_None lp :
  LinuxParameters.Validate lp = None ↔ completeLinuxParameters lp.
Proof.
  unfold LinuxParameters.Validate, completeLinuxParameters.
  rewrite result_None.
  rewrite validateList_clean by apply Tmpfs_reportsErrors.
  rewrite validateList_clean by apply Device_reportsErrors.
  rewrite (allOf_iff _ _ _ Device_Validate_None).
  rewrite (allOf_iff _ _ _ Tmpfs_Validate_None). cbn. naive_solver.
Qed.

Lemma ContainerDefinition_Validate_None cd :
  ContainerDefinition.Validate cd = None ↔ completeContainerDefinition cd.
Proof.
  unfold ContainerDefinition.Validate, completeContainerDefinition.
  rewrite result_None.
  rewrite validateList_clean by apply Ulimit_reportsErrors.
  rewrite validateList_clean by apply Secret_reportsErrors.
  rewrite validateNested_clean by apply RepositoryCredentials_reportsErrors.
  rewrite validateNested_clean by apply LogConfiguration_reportsErrors.
  rewrite validateNested_clean by apply LinuxParameters_reportsErrors.
  rewrite validateNested_clean by apply HealthCheck_reportsErrors.
  rewrite validateList_clean by apply HostEntry_reportsErrors.
  rewrite (allOf_iff _ _ _ HostEntry_Validate_None).
  rewrite (ifSet_iff _ _ _ HealthCheck_Validate_None).
  rewrite (ifSet_iff _ _ _ LinuxParameters_Validate_None).
  rewrite (ifSet_iff _ _ _ LogConfiguration_Validate_None).
  rewrite (ifSet_iff _ _ _ RepositoryCredentials_Validate_None).
  rewrite (allOf_iff _ _ _ Secret_Validate_None).
  rewrite (allOf_iff _ _ _ Ulimit_Validate_None). cbn. naive_solver.
Qed.

Lemma RegisterTaskDefinitionInput_Validate_None s :
  RegisterTaskDefinitionInput.Validate s = None ↔ completeTaskDefinition s.
Proof.
  unfold RegisterTaskDefinitionInput.Validate, completeTaskDefinition.
  rewrite result_None.
  rewrite validateList_clean by apply Tag_reportsErrors.
  rewrite validateList_clean by apply ContainerDefinition_reportsErrors.
  rewrite !required_clean.
  rewrite (allOf_iff _ _ _ ContainerDefinition_Validate_None).
  rewrite (allOf_iff _ _ _ Tag_Validate_None). cbn. naive_solver.
Qed.

(** X10. [RegisterTaskDefinitionInput.Validate] returns nil exactly when the
    list of container definitions and the family are set, no non-nil tag has
    an empty key, and every non-nil container definition is complete: each
    extra host has its hostname and address, a health check has its command,
    a log configuration its driver, repository credentials their parameter,
    each secret its name and source, each ulimit its name and both limits,
    and, in the Linux parameters, each device its host path and each tmpfs
    its container path and size.  [ContainerDefinition.Validate] and
    [LinuxParameters.Validate] return nil exactly on the complete ones. *)
Theorem RegisterTaskDefinitionInput_Validate_nil_iff_complete :
  (∀ s, RegisterTaskDefinitionInput.Validate s = None
        ↔ completeTaskDefinition s)
  ∧ (∀ cd, ContainerDefinition.Validate cd = None
           ↔ completeContainerDefinition cd)
  ∧ (∀ lp, LinuxParameters.Validate lp = None ↔ completeLinuxParameters lp).
Proof.
  split; [exact RegisterTaskDefinitionInput_Validate_None|].
  split; [exact ContainerDefinition_Validate_None|].
  exact LinuxParameters_Validate_None.
Qed.

Lemma indexed_nonempty c name i : indexed (String c name) i ≠ "".
Proof. done. Qed.

(** X11. A device without host path, at index [j] of the devices of the
    Linux parameters of the container definition at index [i], makes
    [RegisterTaskDefinitionInput.Validate] return an error with the entry
    [ParamRequiredError] on [HostPath] under the nested context
    [ContainerDefinitions[i].LinuxParameters.Devices[j]].  Every entry of an
    error it returns has the context [RegisterTaskDefinitionInput]: the
    contexts of the nested validators are overwritten on the way up. *)
Theorem RegisterTaskDefinitionInput_Validate_reports_the_path
    (s : RegisterTaskDefinitionInput.t) cds i cd lp ds j d :
  RegisterTaskDefinitionInput.ContainerDefinitions s = Some cds →
  cds !! i = Some (Some cd) →
  ContainerDefinition.LinuxParameters cd = Some lp →
  LinuxParameters.Devices lp = Some ds →
  ds !! j = Some (Some d) →
  Device.HostPath d = None →
  ∃ err,
    RegisterTaskDefinitionInput.Validate s = Some err
    ∧ {| code := "ParamRequiredError"; field := "HostPath";
         context := "RegisterTaskDefinitionInput";
         nestedContext :=
           indexed "ContainerDefinitions" i +:+ "." +:+ "LinuxParameters"
           +:+ "." +:+ indexed "Devices" j |} ∈ errs err
    ∧ Context err = "RegisterTaskDefinitionInput"
    ∧ ∀ e, e ∈ errs err → context e = "RegisterTaskDefinitionInput".
Proof.
  intros Hcds Hi Hlp Hds Hj Hpath.
  set (e0 := {| code := "ParamRequiredError"; field := "HostPath";
                context := "Device"; nestedContext := "" |}).
  assert (Hd : Device.Validate d
               = Some {| Context := "Device"; errs := [e0] |}).
  { unfold Device.Validate. by rewrite Hpath. }
  set (e1 := AddNestedContext (indexed "Devices" j)
               (SetContext "LinuxParameters" e0)).
  assert (∃ errL, LinuxParameters.Validate lp = Some errL ∧ e1 ∈ errs errL)
    as (errL & HL & He1).
  { assert (Hin : e1 ∈ errs
       (validateList Device.Validate "Devices" (LinuxParameters.Devices lp)
          {| Context := "LinuxParameters"; errs := [] |})).
    { eapply (validateList_reports Device.Validate "Devices" _
                {| Context := "LinuxParameters"; errs := [] |});
        [exact Hds|exact Hj|exact Hd|by left]. }
    eexists. split.
    - unfold LinuxParameters.Validate. eapply result_reports.
      apply validateList_keeps. exact Hin.
    - apply validateList_keeps. exact Hin. }
  set (e2 := AddNestedContext "LinuxParameters"
               (SetContext "ContainerDefinition" e1)).
  assert (∃ errC, ContainerDefinition.Validate cd = Some errC
                  ∧ e2 ∈ errs errC)
    as (errC & HC & He2).
  { assert (Hin : e2 ∈ errs
       (validateNested LinuxParameters.Validate "LinuxParameters"
          (ContainerDefinition.LinuxParameters cd)
          (validateNested HealthCheck.Validate "HealthCheck"
             (ContainerDefinition.HealthCheck cd)
             (validateList HostEntry.Validate "ExtraHosts"
                (ContainerDefinition.ExtraHosts cd)
                {| Context := "ContainerDefinition"; errs := [] |})))).
    { pose proof (validateNested_reports LinuxParameters.Validate
                    "LinuxParameters" _
                    (validateNested HealthCheck.Validate "HealthCheck"
                       (ContainerDefinition.HealthCheck cd)
                       (validateList HostEntry.Validate "ExtraHosts"
                          (ContainerDefinition.ExtraHosts cd)
                          {| Context := "ContainerDefinition"; errs := [] |}))
                    _ _ _ Hlp HL He1) as Hin.
      by rewrite validateNested_Context, validateList_Context in Hin. }
    eexists. split.
    - unfold ContainerDefinition.Validate. eapply result_reports.
      do 2 apply validateList_keeps. do 2 apply validateNested_keeps.
      exact Hin.
    - do 2 apply validateList_keeps. do 2 apply validateNested_keeps.
      exact Hin. }
  set (e3 := AddNestedContext (indexed "ContainerDefinitions" i)
               (SetContext "RegisterTaskDefinitionInput" e2)).
  assert (Hin : e3 ∈ errs
     (validateList ContainerDefinition.Validate "ContainerDefinitions"
        (RegisterTaskDefinitionInput.ContainerDefinitions s)
        (required "Family" (RegisterTaskDefinitionInput.Family s)
           (required "ContainerDefinitions"
              (RegisterTaskDefinitionInput.ContainerDefinitions s)
              {| Context := "RegisterTaskDefinitionInput"; errs := [] |})))).
  { pose proof (validateList_reports ContainerDefinition.Validate
                  "ContainerDefinitions" _
                  (required "Family" (RegisterTaskDefinitionInput.Family s)
                     (required "ContainerDefinitions"
                        (RegisterTaskDefinitionInput.ContainerDefinitions s)
                        {| Context := "RegisterTaskDefinitionInput";
                           errs := [] |}))
                  _ _ _ _ _ Hcds Hi HC He2) as Hin.
    by rewrite !required_Context in Hin. }
  eexists. split; [|split; [|split]].
  - unfold RegisterTaskDefinitionInput.Validate. eapply result_reports.
    apply validateList_keeps. exact Hin.
  - cbn [errs].
    assert (Heq : e3 = {| code := "ParamRequiredError"; field := "HostPath";
                          context := "RegisterTaskDefinitionInput";
                          nestedContext :=
                            indexed "ContainerDefinitions" i +:+ "."
                            +:+ "LinuxParameters" +:+ "."
                            +:+ indexed "Devices" j |}).
    { unfold e3, e2, e1, e0, AddNestedContext, SetContext.
      cbn [code field context nestedContext].
      rewrite (decide_True (P := "" = "")) by done.
      rewrite (decide_False (P := indexed "Devices" j = ""))
        by apply indexed_nonempty.
      by rewrite decide_False by (by cbn). }
    rewrite <- Heq. apply validateList_keeps. exact Hin.
  - by rewrite !validateList_Context, !required_Context.
  - match goal with
    | |- ∀ e, e ∈ errs ?p → _ => assert (Hcarry : carryContext p)
    end.
    { apply validateList_carryContext, validateList_carryContext,
        required_carryContext, required_carryContext.
      intros e He. by apply elem_of_nil in He. }
    intros e He. rewrite (Hcarry e He).
    by rewrite !validateList_Context, !required_Context.
Qed.

(** ** Requests that carry a network configuration: what is checked *)

Lemma AwsVpcConfiguration_reportsErrors :
  reportsErrors AwsVpcConfiguration.Validate.
Proof. solve_reports. Qed.

Lemma NetworkConfiguration_reportsErrors :
  reportsErrors NetworkConfiguration.Validate.
Proof. solve_reports. Qed.

(** A network configuration, if set, with an [awsvpc] configuration, if set,
    that has its subnets. *)
Definition hasSubnets (fld : option NetworkConfiguration.t) : Prop :=
  ifSet (λ nc, ifSet (λ vpc, is_Some (AwsVpcConfiguration.Subnets vpc))
                 (NetworkConfiguration.AwsvpcConfiguration nc)) fld.

Lemma AwsVpcConfiguration_Validate_None vpc :
  AwsVpcConfiguration.Validate vpc = None
  ↔ is_Some (AwsVpcConfiguration.Subnets vpc).
Proof.
  unfold AwsVpcConfiguration.Validate. rewrite result_None, required_clean.
  cbn. naive_solver.
Qed.

Lemma NetworkConfiguration_Validate_None nc :
  NetworkConfiguration.Validate nc = None
  ↔ ifSet (λ vpc, is_Some (AwsVpcConfiguration.Subnets vpc))
      (NetworkConfiguration.AwsvpcConfiguration nc).
Proof.
  unfold NetworkConfiguration.Validate. rewrite result_None.
  rewrite validateNested_clean by apply AwsVpcConfiguration_reportsErrors.
  rewrite (ifSet_iff _ _ _ AwsVpcConfiguration_Validate_None). cbn.
  naive_solver.
Qed.

Lemma NetworkConfiguration_Validate_without_subnets nc vpc :
  NetworkConfiguration.AwsvpcConfiguration nc = Some vpc →
  AwsVpcConfiguration.Subnets vpc = None →
  NetworkConfiguration.Validate nc
  = Some {| Context := "NetworkConfiguration";
            errs := [{| code := "ParamRequiredError"; field := "Subnets";
                        context := "NetworkConfiguration";
                        nestedContext := "AwsvpcConfiguration" |}] |}.
Proof.
  destruct nc as [avpc], vpc as [ip groups subnets]. cbn.
  by intros -> ->.
Qed.

(** X15. The four requests that carry a network configuration validate it
    alike: [RunTaskInput], [StartTaskInput], [CreateServiceInput] and
    [UpdateServiceInput] return nil exactly when their own required members
    are set and the [awsvpc] configuration of the network configuration, if
    both are set, has its subnets (nil subnets are refused, an empty list
    passes).  For [RunTaskInput], missing subnets are reported as
    [ParamRequiredError] on [Subnets] under the nested context
    [NetworkConfiguration.AwsvpcConfiguration], in the context
    [RunTaskInput]. *)
Theorem network_configuration_is_validated_through_its_requests :
  (∀ s, RunTaskInput.Validate s = None
        ↔ is_Some (RunTaskInput.TaskDefinition s)
          ∧ hasSubnets (RunTaskInput.NetworkConfiguration s))
  ∧ (∀ s, StartTaskInput.Validate s = None
          ↔ is_Some (StartTaskInput.ContainerInstances s)
            ∧ is_Some (StartTaskInput.TaskDefinition s)
            ∧ hasSubnets (StartTaskInput.NetworkConfiguration s))
  ∧ (∀ s, CreateServiceInput.Validate s = None
          ↔ is_Some (CreateServiceInput.ServiceName s)
            ∧ is_Some (CreateServiceInput.TaskDefinition s)
            ∧ hasSubnets (CreateServiceInput.NetworkConfiguration s))
  ∧ (∀ s, UpdateServiceInput.Validate s = None
          ↔ is_Some (UpdateServiceInput.Service s)
            ∧ hasSubnets (UpdateServiceInput.NetworkConfiguration s))
  ∧ (∀ s nc vpc,
       RunTaskInput.NetworkConfiguration s = Some nc →
       NetworkConfiguration.AwsvpcConfiguration nc = Some vpc →
       AwsVpcConfiguration.Subnets vpc = None →
       ∃ err,
         RunTaskInput.Validate s = Some err
         ∧ Context err = "RunTaskInput"
         ∧ {| code := "ParamRequiredError"; field := "Subnets";
              context := "RunTaskInput";
              nestedContext := "NetworkConfiguration.AwsvpcConfiguration" |}
           ∈ errs err).
Proof.
  split; [|split; [|split; [|split]]].
  - intros s. unfold RunTaskInput.Validate, hasSubnets. rewrite result_None.
    rewrite validateNested_clean by apply NetworkConfiguration_reportsErrors.
    rewrite required_clean.
    rewrite (ifSet_iff _ _ _ NetworkConfiguration_Validate_None). cbn.
    naive_solver.
  - intros s. unfold StartTaskInput.Validate, hasSubnets. rewrite result_None.
    rewrite validateNested_clean by apply NetworkConfiguration_reportsErrors.
    rewrite !required_clean.
    rewrite (ifSet_iff _ _ _ NetworkConfiguration_Validate_None). cbn.
    naive_solver.
  - intros s. unfold CreateServiceInput.Validate, hasSubnets.
    rewrite result_None.
    rewrite validateNested_clean by apply NetworkConfiguration_reportsErrors.
    rewrite !required_clean.
    rewrite (ifSet_iff _ _ _ NetworkConfiguration_Validate_None). cbn.
    naive_solver.
  - intros s. unfold UpdateServiceInput.Validate, hasSubnets.
    rewrite result_None.
    rewrite validateNested_clean by apply NetworkConfiguration_reportsErrors.
    rewrite required_clean.
    rewrite (ifSet_iff _ _ _ NetworkConfiguration_Validate_None). cbn.
    naive_solver.
  - intros s nc vpc Hnc Hvpc Hsub.
    pose proof (NetworkConfiguration_Validate_without_subnets nc vpc Hvpc Hsub)
      as Hv.
    pose proof (validateNested_reports NetworkConfiguration.Validate
                  "NetworkConfiguration" _
                  (required "TaskDefinition" (RunTaskInput.TaskDefinition s)
                     {| Context := "RunTaskInput"; errs := [] |})
                  _ _ _ Hnc Hv (list_elem_of_here _ _)) as Hin.
    rewrite required_Context in Hin.
    eexists. split; [|split].
    + unfold RunTaskInput.Validate. eapply result_reports. exact Hin.
    + by rewrite validateNested_Context, required_Context.
    + exact Hin.
Qed.

(** ** The statements at concrete requests *)

Lemma SubmitTaskStateChangeInput_Validate_names_the_second_attachment :
  let s :=
    SubmitTaskStateChangeInput.SetAttachments
      (Some [None;
             Some {| AttachmentStateChange.AttachmentArn := Some "arn:eni-1";
                     AttachmentStateChange.Status := None |}])
      stoppedTaskReport in
  ∃ err,
    SubmitTaskStateChangeInput.Validate s = Some err
    ∧ Context err = "SubmitTaskStateChangeInput"
    ∧ NoDup (errs err)
    ∧ {| code := "ParamRequiredError"; field := "Status";
         context := "SubmitTaskStateChangeInput";
         nestedContext := "Attachments[1]" |} ∈ errs err.
Proof.
  intros s.
  edestruct (SubmitTaskStateChangeInput_Validate_names_each_missing_field s)
    as (Hctx & Hnodup & Helem & _); [reflexivity|vm_compute; reflexivity|].
  eexists. split; [vm_compute; reflexivity|]. split; [exact Hctx|].
  split; [exact Hnodup|].
  apply Helem. eexists 1, _, "Status". split; [reflexivity|].
  split; [right; split; reflexivity|]. vm_compute. reflexivity.
Defined.

Lemma RegisterTaskDefinitionInput_Validate_names_the_second_device :
  ∃ err,
    RegisterTaskDefinitionInput.Validate demoTaskDefinition = Some err
    ∧ {| code := "ParamRequiredError"; field := "HostPath";
         context := "RegisterTaskDefinitionInput";
         nestedContext :=
           "ContainerDefinitions[1].LinuxParameters.Devices[1]" |}
      ∈ errs err.
Proof.
  epose proof (RegisterTaskDefinitionInput_Validate_reports_the_path
                 demoTaskDefinition _ 1 demoContainerDefinition
                 demoLinuxParameters _ 1 _
                 eq_refl eq_refl eq_refl eq_refl eq_refl eq_refl)
    as (err & Hv & Hin & _).
  exists err. split; [exact Hv|exact Hin].
Defined.

End ECSValidation.

(** * Part IIc: the paging loops

    [ListClustersPagesWithContext], [ListContainerInstancesPagesWithContext],
    [ListServicesPagesWithContext],
    [ListTaskDefinitionFamiliesPagesWithContext],
    [ListTaskDefinitionsPagesWithContext] and [ListTasksPagesWithContext]
    of [api.go] run the same loop over a [request.Pagination] of the AWS
    SDK:

      cont := true
      for p.Next() && cont {
          cont = fn(page, !p.HasNextPage())
      }
      return p.Err()

    where [page] is [p.Page()], asserted to be a pointer to the output shape
    of the operation. *)

Module Paging.

(** What the loop does, in order: a call of [p.Next()] with its answer, or
    a call of [fn] with the page, the last-page flag and its answer. *)
Inductive Event (Output : Type) : Type :=
  | CallNext (more : bool)
  | CallFn (page : Output) (lastPage : bool) (cont : bool).
Arguments CallNext {Output} _.
Arguments CallFn {Output} _ _ _.

(** How a run ends: the function returns [p.Err()], leaving the state that
    [fn] captures and the calls made; or the type assertion on [p.Page()]
    panics; or the run is not over when the fuel is. *)
Inductive Run (Output Error Captured : Type) : Type :=
  | Returned (err : option Error) (captured : Captured)
      (trace : list (Event Output))
  | Panicked
  | OutOfFuel.
Arguments Returned {Output Error Captured} _ _ _.
Arguments Panicked {Output Error Captured}.
Arguments OutOfFuel {Output Error Captured}.

(** A paginator over the pages that are left, with the page it is at; it
    never fails. *)
Definition demoNext (p : list nat * option nat) : bool * (list nat * option nat) :=
  match p.1 with
  | [] => (false, ([], None))
  | page :: rest => (true, (rest, Some page))
  end.

Definition demoPage (p : list nat * option nat) : option nat := p.2.

Definition demoHasNextPage (p : list nat * option nat) : bool :=
  bool_decide (p.1 ≠ []).

Definition demoErr (p : list nat * option nat) : option unit := None.

(** A callback that collects the pages and asks for more while the page is
    below 2. *)
Definition demoFn (page : nat) (lastPage : bool) (seen : list nat)
  : bool * list nat :=
  (bool_decide (page < 2)%nat, (seen ++ [page])%list).

Section PagesWithContext.

(** The output shape of the operation, the errors, the state of the
    paginator, and the state that the callback captures. *)
Variable Output Error Pagination Captured : Type.

(** [p.Next()] may send a request: its answer and the paginator after it. *)
Variable Next : Pagination → bool * Pagination.
(** [p.Page()], if the assertion that it is an output of the operation
    holds. *)
Variable Page : Pagination → option Output.
Variable HasNextPage : Pagination → bool.
Variable Err : Pagination → option Error.
(** The callback with the state it captures. *)
Variable fn : Output → bool → Captured → bool * Captured.

(** The loop, entered with the paginator [p] and the flag [cont]. *)
Fixpoint pagesLoop (fuel : nat) (p : Pagination) (cont : bool)
    (captured : Captured) (trace : list (Event Output))
  : Run Output Error Captured :=
  match fuel with
  | 0 => OutOfFuel
  | S fuel =>
      let '(more, p) := Next p in
      let trace := (trace ++ [CallNext more])%list in
      if more && cont then
        match Page p with
        | None => Panicked
        | Some page =>
            let lastPage := negb (HasNextPage p) in
            let '(cont, captured) := fn page lastPage captured in
            pagesLoop fuel p cont captured
              (trace ++ [CallFn page lastPage cont])%list
        end
      else Returned (Err p) captured trace
  end.

(** [c.ListClustersPagesWithContext(ctx, input, fn, opts...)] and its five
    likes, on the paginator that they build. *)
Definition PagesWithContext (fuel : nat) (p : Pagination)
    (captured : Captured) : Run Output Error Captured :=
  pagesLoop fuel p true captured [].

(** The two calls of one turn of the loop. *)
Definition turn (x : Output * bool * bool) : list (Event Output) :=
  [CallNext true; CallFn x.1.1 x.1.2 x.2].

Lemma pagesLoop_shape fuel :
  ∀ p cont captured trace err captured' trace',
    pagesLoop fuel p cont captured trace = Returned err captured' trace' →
    ∃ turns more,
      trace' = (trace ++ flat_map turn turns ++ [CallNext more])%list
      ∧ (cont = false → turns = [])
      ∧ (∀ k x, turns !! k = Some x → (S k < length turns)%nat →
                x.2 = true)
      ∧ (more = false ∨ last (cont :: turns.*2) = Some false)
      ∧ err = Err (Nat.iter (S (length turns)) (λ q, (Next q).2) p).
Proof using Type.
  induction fuel as [|fuel IH];
    intros p cont captured trace err captured' trace' Hrun; [done|].
  cbn [pagesLoop] in Hrun.
  destruct (Next p) as [more p1] eqn:Hnext.
  destruct (more && cont) eqn:Hgo.
  - apply andb_true_iff in Hgo as [-> ->].
    destruct (Page p1) as [page|]; [|done].
    destruct (fn page (negb (HasNextPage p1)) captured) as [c captured1].
    apply IH in Hrun as (turns & more & -> & Hstop & Htrue & Hend & ->).
    exists ((page, negb (HasNextPage p1), c) :: turns), more.
    split; [cbn; by rewrite <- !app_assoc|].
    split; [done|]. split; [|split].
    + intros [|k] x Hk Hlen; cbn in Hk.
      * injection Hk as <-. cbn. destruct c; [done|].
        rewrite (Hstop eq_refl) in Hlen. cbn in Hlen. lia.
      * apply (Htrue k x Hk). cbn in Hlen. lia.
    + destruct Hend as [?|Hend]; [by left|]. right. exact Hend.
    + cbn [length]. rewrite (Nat.iter_succ_r (S (length turns))).
      cbv beta. by rewrite Hnext.
  - injection Hrun as <- <- <-. exists [], more.
    split; [done|]. split; [done|]. split; [by intros k x [=]|].
    split; [|cbn; by rewrite Hnext].
    apply andb_false_iff in Hgo as [->| ->]; [by left|by right].
Qed.

(** X12. When the paging loop returns, the calls it has made are turns of one
    [p.Next()] that answered true and one call of [fn], followed by one
    more [p.Next()].  [fn] answered true in every turn but the last, and
    the loop ended because the final [p.Next()] answered false or because
    [fn] answered false in the last turn: after [fn] has asked to stop,
    [p.Next()] is called once more, and [fn] never again.  The error
    returned is that of the paginator after these calls. *)
Theorem PagesWithContext_stops_one_Next_after_fn_says_so
    fuel p captured err captured' trace :
  PagesWithContext fuel p captured = Returned err captured' trace →
  ∃ turns more,
    trace = (flat_map turn turns ++ [CallNext more])%list
    ∧ (∀ k x, turns !! k = Some x → (S k < length turns)%nat → x.2 = true)
    ∧ (more = false ∨ ∃ page lastPage, last turns = Some (page, lastPage, false))
    ∧ err = Err (Nat.iter (S (length turns)) (λ q, (Next q).2) p).
Proof using Type.
  intros Hrun. apply pagesLoop_shape in Hrun
    as (turns & more & -> & _ & Htrue & Hend & ->).
  exists turns, more. split; [done|]. split; [exact Htrue|].
  split; [|done]. destruct Hend as [?|Hend]; [by left|]. right.
  destruct turns as [|x turns _] using rev_ind; [done|].
  rewrite fmap_app in Hend. cbn in Hend.
  rewrite app_comm_cons, last_snoc in Hend. injection Hend as Hx.
  destruct x as [[page lastPage] c]. cbn in Hx. subst c.
  exists page, lastPage. by rewrite last_snoc.
Qed.

Lemma pagesLoop_returns (pagesLeft : Pagination → nat) :
  (∀ p, (Next p).1 = true →
        (pagesLeft (Next p).2 < pagesLeft p)%nat
        ∧ is_Some (Page (Next p).2)) →
  ∀ fuel p cont captured trace,
    (pagesLeft p < fuel)%nat →
    ∃ err captured' trace',
      pagesLoop fuel p cont captured trace = Returned err captured' trace'
      ∧ (length trace' ≤ length trace + 2 * pagesLeft p + 1)%nat.
Proof using Type.
  intros Hleft. induction fuel as [|fuel IH];
    intros p cont captured trace Hfuel; [lia|].
  cbn [pagesLoop]. specialize (Hleft p).
  destruct (Next p) as [more p1]. cbn in Hleft.
  destruct (more && cont) eqn:Hgo.
  - apply andb_true_iff in Hgo as [-> ->].
    destruct (Hleft eq_refl) as [Hless [page ->]].
    destruct (fn page (negb (HasNextPage p1)) captured) as [c captured1].
    edestruct (IH p1 c captured1) as (err & captured' & trace' & -> & Hlen);
      [lia|].
    eexists _, _, _. split; [done|].
    rewrite !length_app in Hlen. cbn in Hlen. lia.
  - eexists _, _, _. split; [done|]. rewrite length_app. cbn. lia.
Qed.

(** X13. On a paginator that runs dry -- some count of the pages left goes
    down with every [p.Next()] that answers true -- and whose page after
    such an answer is an output of the operation, the paging loop neither
    panics nor runs on: given fuel above the count it returns, after at most
    one [p.Next()] and one [fn] per page left and one more [p.Next()]. *)
Theorem PagesWithContext_returns_when_the_pages_run_out
    (pagesLeft : Pagination → nat) fuel p captured :
  (∀ q, (Next q).1 = true →
        (pagesLeft (Next q).2 < pagesLeft q)%nat
        ∧ is_Some (Page (Next q).2)) →
  (pagesLeft p < fuel)%nat →
  ∃ err captured' trace,
    PagesWithContext fuel p captured = Returned err captured' trace
    ∧ (length trace ≤ 2 * pagesLeft p + 1)%nat.
Proof using Type.
  intros Hleft Hfuel.
  destruct (pagesLoop_returns pagesLeft Hleft fuel p true captured [] Hfuel)
    as (err & captured' & trace & Hrun & Hlen).
  by exists err, captured', trace.
Qed.

End PagesWithContext.

Lemma PagesWithContext_fetches_the_page_after_the_stop :
  PagesWithContext nat unit (list nat * option nat) (list nat)
    demoNext demoPage demoHasNextPage demoErr demoFn 5 ([1; 2; 3], None) []
  = Returned None [1; 2]
      [CallNext true; CallFn 1 false true;
       CallNext true; CallFn 2 false false; CallNext true]
  ∧ ∃ turns more,
      [CallNext true; CallFn 1 false true;
       CallNext true; CallFn 2 false false; CallNext true]
      = (flat_map (turn nat) turns ++ [CallNext more])%list
      ∧ (more = false
         ∨ ∃ page lastPage, last turns = Some (page, lastPage, false)).
Proof.
  split; [reflexivity|].
  destruct (PagesWithContext_stops_one_Next_after_fn_says_so nat unit
              (list nat * option nat) (list nat)
              demoNext demoPage demoHasNextPage demoErr demoFn
              5 ([1; 2; 3], None) [] None [1; 2] _ eq_refl)
    as (turns & more & Htrace & _ & Hend & _).
  by exists turns, more.
Defined.

Lemma PagesWithContext_returns_on_three_pages :
  ∃ err captured' trace,
    PagesWithContext nat unit (list nat * option nat) (list nat)
      demoNext demoPage demoHasNextPage demoErr
      (λ page lastPage seen, (true, (seen ++ [page])%list))
      4 ([1; 2; 3], None) []
    = Returned err captured' trace
    ∧ (length trace ≤ 7)%nat.
Proof.
  apply (PagesWithContext_returns_when_the_pages_run_out nat unit
           (list nat * option nat) (list nat)
           demoNext demoPage demoHasNextPage demoErr
           (λ page lastPage seen, (true, (seen ++ [page])%list))
           (λ q, length q.1) 4 ([1; 2; 3], None) []).
  - intros [[|page rest] cur]; cbn; [done|]. intros _. split; [lia|eauto].
  - cbn. lia.
Defined.

End Paging.

(** * Part III: the reconciliation rules of the specification

    The task engine, its dependency resolver and its event pipeline are not
    among the source files at hand.  The definitions of this part follow the
    specification's sections 3 and 4. *)

(** ** Containers and their status *)

Module ContainerStateMachine.

(** Modelled from the spec: the container lifecycle states of section 4.1,
    [NONE → PULLED → CREATED → RUNNING → STOPPED]; the container state
    machine is not in the sources. *)
Inductive ContainerStatus : Type :=
  | NONE | PULLED | CREATED | RUNNING | STOPPED.

#[global] Instance ContainerStatus_eq_dec : EqDecision ContainerStatus.
Proof. solve_decision. Defined.

(** Modelled from the spec: the position of a status in the total order
    [NONE < PULLED < CREATED < RUNNING < STOPPED] of sections 3 and 8. *)
Definition statusRank (s : ContainerStatus) : nat :=
  match s with
  | NONE => 0 | PULLED => 1 | CREATED => 2 | RUNNING => 3 | STOPPED => 4
  end.

Definition statusLe (a b : ContainerStatus) : Prop :=
  (statusRank a ≤ statusRank b)%nat.
Definition statusLt (a b : ContainerStatus) : Prop :=
  (statusRank a < statusRank b)%nat.

#[global] Instance statusLe_dec a b : Decision (statusLe a b).
Proof. unfold statusLe. apply _. Defined.
#[global] Instance statusLt_dec a b : Decision (statusLt a b).
Proof. unfold statusLt. apply _. Defined.

(** Modelled from the spec: the dependency conditions of sections 3 and
    4.2. *)
Inductive Condition : Type := START | COMPLETE | SUCCESS | HEALTHY.

(** Modelled from the spec: the health-check status of a container
    (section 3). *)
Inductive HealthStatus : Type :=
  | HEALTH_UNKNOWN | HEALTH_HEALTHY | HEALTH_UNHEALTHY.

#[global] Instance HealthStatus_eq_dec : EqDecision HealthStatus.
Proof. solve_decision. Defined.

(** Modelled from the spec: one declared dependency edge,
    [{containerName, condition}] (section 4.2). *)
Record DependsOn : Type := {
  ContainerName : string;
  DependencyCondition : Condition
}.

(** Modelled from the spec: the Container of section 3 (identity, the three
    statuses, health, exit code, dependency list and the task resources it
    requires); the declared image, command and limits play no part in the
    rules below and are left out. *)
Record Container : Type := {
  Name : string;
  RuntimeID : option string;
  Essential : bool;
  DesiredStatus : ContainerStatus;
  KnownStatus : ContainerStatus;
  AppliedStatus : ContainerStatus;
  Health : HealthStatus;
  ExitCode : option Z;
  Dependencies : list DependsOn;
  ResourceDependencies : list string
}.

(** Modelled from the spec: a container state-change notification of the
    runtime's event stream (section 6): the status observed and, when the
    container exited, its exit code. *)
Record RuntimeEvent : Type := {
  eventStatus : ContainerStatus;
  eventExitCode : option Z
}.

Definition setKnownStatus (c : Container) (s : ContainerStatus)
    (exit : option Z) : Container :=
  {| Name := Name c; RuntimeID := RuntimeID c; Essential := Essential c;
     DesiredStatus := DesiredStatus c; KnownStatus := s;
     AppliedStatus := AppliedStatus c; Health := Health c;
     ExitCode := match exit with Some _ => exit | None => ExitCode c end;
     Dependencies := Dependencies c;
     ResourceDependencies := ResourceDependencies c |}.

(** Modelled from the spec: the update of [KnownStatus] from a runtime event
    (section 3, invariants): only a forward move is accepted; an event that
    reports the known status again or an earlier one is discarded, and the
    container stays as it is. *)
Definition applyRuntimeEvent (c : Container) (ev : RuntimeEvent) : Container :=
  if decide (statusLt (KnownStatus c) (eventStatus ev))
  then setKnownStatus c (eventStatus ev) (eventExitCode ev)
  else c.

(** The events of a run, applied in the order of their delivery. *)
Definition applyRuntimeEvents (c : Container) (evs : list RuntimeEvent)
  : Container :=
  foldl applyRuntimeEvent c evs.

(** The [KnownStatus] values a container goes through: the one it starts
    with, then the one after each event. *)
Fixpoint knownStatusTrace (c : Container) (evs : list RuntimeEvent)
  : list ContainerStatus :=
  match evs with
  | [] => [KnownStatus c]
  | ev :: rest => KnownStatus c :: knownStatusTrace (applyRuntimeEvent c ev) rest
  end.

(** The latest status among the known one and those the events report. *)
Definition latestRank (c : Container) (evs : list RuntimeEvent) : nat :=
  foldr (λ ev r, statusRank (eventStatus ev) `max` r)
        (statusRank (KnownStatus c)) evs.

(** Non-decreasing sequences of statuses. *)
Fixpoint nonDecreasing (l : list ContainerStatus) : Prop :=
  match l with
  | [] => True
  | a :: rest =>
      match rest with
      | [] => True
      | b :: _ => statusLe a b
      end ∧ nonDecreasing rest
  end.

(** *** Monotonicity *)

Lemma applyRuntimeEvent_rank (c : Container) (ev : RuntimeEvent) :
  statusRank (KnownStatus (applyRuntimeEvent c ev))
  = statusRank (KnownStatus c) `max` statusRank (eventStatus ev).
Proof.
  unfold applyRuntimeEvent, statusLt. case_decide; cbn; lia.
Qed.

Lemma statusRank_inj a b : statusRank a = statusRank b → a = b.
Proof. by destruct a, b. Qed.

Lemma knownStatusTrace_head c evs :
  ∃ rest, knownStatusTrace c evs = KnownStatus c :: rest.
Proof. destruct evs; cbn; eauto. Qed.

Lemma knownStatusTrace_nonDecreasing evs :
  ∀ c, nonDecreasing (knownStatusTrace c evs).
Proof.
  induction evs as [|ev rest IH]; intros c; cbn; [done|].
  split; [|apply IH].
  destruct (knownStatusTrace_head (applyRuntimeEvent c ev) rest) as [l ->].
  unfold statusLe. rewrite applyRuntimeEvent_rank. lia.
Qed.

Lemma foldr_max_init (evs : list RuntimeEvent) (a b : nat) :
  foldr (λ ev r, statusRank (eventStatus ev) `max` r) (a `max` b) evs
  = b `max` foldr (λ ev r, statusRank (eventStatus ev) `max` r) a evs.
Proof. induction evs as [|e r IH]; cbn; [lia|]. rewrite IH. lia. Qed.

Lemma applyRuntimeEvents_rank evs :
  ∀ c, statusRank (KnownStatus (applyRuntimeEvents c evs)) = latestRank c evs.
Proof.
  unfold applyRuntimeEvents, latestRank.
  induction evs as [|ev rest IH]; intros c; cbn; [done|].
  by rewrite IH, applyRuntimeEvent_rank, foldr_max_init.
Qed.

Lemma latestRank_Permutation c evs evs' :
  evs ≡ₚ evs' → latestRank c evs = latestRank c evs'.
Proof.
  unfold latestRank. induction 1; cbn; [done|congruence|lia|congruence].
Qed.

(** A container that is RUNNING hears of its creation late, then of its
    exit, then of its start again. *)
Example late_events_are_discarded :
  let c := {| Name := "web"; RuntimeID := Some "0a1b"; Essential := true;
              DesiredStatus := RUNNING; KnownStatus := RUNNING;
              AppliedStatus := NONE; Health := HEALTH_UNKNOWN;
              ExitCode := None; Dependencies := [];
              ResourceDependencies := [] |} in
  knownStatusTrace c
    [{| eventStatus := CREATED; eventExitCode := None |};
     {| eventStatus := STOPPED; eventExitCode := Some 1%Z |};
     {| eventStatus := RUNNING; eventExitCode := None |}]
  = [RUNNING; RUNNING; STOPPED; STOPPED].
Proof. reflexivity. Qed.

(** C1. The statuses form the total order
    [NONE < PULLED < CREATED < RUNNING < STOPPED]; whatever events arrive and
    in whatever order, the [KnownStatus] values a container goes through
    never decrease; an event that reports a status strictly earlier than the
    known one leaves the container, and so its [KnownStatus], unchanged; an
    event that reports a later one is taken; and the status reached does not
    depend on the order of delivery. *)
Theorem KnownStatus_never_regresses :
  (statusLt NONE PULLED ∧ statusLt PULLED CREATED
   ∧ statusLt CREATED RUNNING ∧ statusLt RUNNING STOPPED
   ∧ (∀ a b, statusLe a b ∨ statusLe b a)
   ∧ (∀ a b, statusLe a b → statusLe b a → a = b)
   ∧ (∀ a b c, statusLe a b → statusLe b c → statusLe a c))
  ∧ (∀ c evs, nonDecreasing (knownStatusTrace c evs))
  ∧ (∀ c ev, statusLt (eventStatus ev) (KnownStatus c) →
             applyRuntimeEvent c ev = c)
  ∧ (∀ c ev, statusLt (KnownStatus c) (eventStatus ev) →
             KnownStatus (applyRuntimeEvent c ev) = eventStatus ev)
  ∧ (∀ c evs evs', evs ≡ₚ evs' →
       KnownStatus (applyRuntimeEvents c evs)
       = KnownStatus (applyRuntimeEvents c evs')).
Proof.
  split; [|split; [|split; [|split]]].
  - unfold statusLt, statusLe. cbn. repeat split; try lia.
    intros a b Hab Hba. apply statusRank_inj. lia.
  - intros c evs. apply knownStatusTrace_nonDecreasing.
  - intros c ev Hlate. unfold applyRuntimeEvent.
    case_decide as Hfwd; [|done]. unfold statusLt in *. lia.
  - intros c ev Hfwd. unfold applyRuntimeEvent.
    by rewrite decide_True.
  - intros c evs evs' Hperm. apply statusRank_inj.
    rewrite !applyRuntimeEvents_rank. by apply latestRank_Permutation.
Qed.

End ContainerStateMachine.

(** ** The dependency graph resolver *)

Module DependencyGraph.
Import ContainerStateMachine.

(** Modelled from the spec: the small state machine of a task resource
    (volume, secret, credential), [NONE → CREATED → REMOVED] (section 3); the
    task resources are not in the sources. *)
Inductive ResourceStatus : Type :=
  | RESOURCE_NONE | RESOURCE_CREATED | RESOURCE_REMOVED.

#[global] Instance ResourceStatus_eq_dec : EqDecision ResourceStatus.
Proof. solve_decision. Defined.

(** Modelled from the spec: a task resource, by its name and the state it
    has reached (section 3). *)
Record TaskResource : Type := {
  ResourceName : string;
  ResourceKnownStatus : ResourceStatus
}.

(** Modelled from the spec: the task-level lifecycle states (section 2, item
    2); the task state machine is not in the sources. *)
Inductive TaskStatus : Type :=
  | TASK_NONE | TASK_CREATED | TASK_RUNNING | TASK_STOPPED.

(** Modelled from the spec: the error of the resolver's result
    [(bool, error)] (section 4.2): a dependency that cannot be looked up.
    Waiting for a dependency is not an error (section 4.3). *)
Inductive ResolveError : Type :=
  | UnknownContainer (name : string)
  | UnknownResource (name : string).

(** Modelled from the spec: "look up the dependency" (section 4.2): the
    first container, or resource, of the task with the name. *)
Definition lookupContainer (name : string) (taskContainers : list Container)
  : option Container :=
  List.find (λ c, bool_decide (Name c = name)) taskContainers.

Definition lookupResource (name : string) (taskResources : list TaskResource)
  : option TaskResource :=
  List.find (λ r, bool_decide (ResourceName r = name)) taskResources.

(** Modelled from the spec: the comparison of a dependency's current state
    with the minimum state its condition requires (section 4.2): START
    requires RUNNING or later, COMPLETE requires STOPPED, SUCCESS requires
    STOPPED with exit code 0, HEALTHY requires health-check status HEALTHY.
    The resolver is not in the sources. *)
Definition conditionMet (cond : Condition) (dep : Container) : bool :=
  match cond with
  | START => bool_decide (statusLe RUNNING (KnownStatus dep))
  | COMPLETE => bool_decide (KnownStatus dep = STOPPED)
  | SUCCESS =>
      bool_decide (KnownStatus dep = STOPPED)
      && bool_decide (ExitCode dep = Some 0%Z)
  | HEALTHY => bool_decide (Health dep = HEALTH_HEALTHY)
  end.

(** Modelled from the spec: the loop over the declared edges (section 4.2,
    "for each declared edge, look up the dependency's current state and
    compare"). *)
Fixpoint edgesResolved (edges : list DependsOn)
    (taskContainers : list Container) : bool * option ResolveError :=
  match edges with
  | [] => (true, None)
  | edge :: rest =>
      match lookupContainer (ContainerName edge) taskContainers with
      | None => (false, Some (UnknownContainer (ContainerName edge)))
      | Some dep =>
          if conditionMet (DependencyCondition edge) dep
          then edgesResolved rest taskContainers
          else (false, None)
      end
  end.

(** Modelled from the spec: the task-resource dependencies (section 4.2, "a
    volume must be CREATED before a container can start"). *)
Fixpoint resourcesResolved (names : list string)
    (taskResources : list TaskResource) : bool * option ResolveError :=
  match names with
  | [] => (true, None)
  | name :: rest =>
      match lookupResource name taskResources with
      | None => (false, Some (UnknownResource name))
      | Some res =>
          if decide (ResourceKnownStatus res = RESOURCE_CREATED)
          then resourcesResolved rest taskResources
          else (false, None)
      end
  end.

(** Modelled from the spec: the resolver's contract
    [dependenciesAreResolved(container, taskContainers, taskKnownStatus,
    taskResources) -> (bool, error)] of section 4.2: all edges and all
    resource dependencies at once.  The algorithm of that section does not
    consult [taskKnownStatus]. *)
Definition dependenciesAreResolved (container : Container)
    (taskContainers : list Container) (taskKnownStatus : TaskStatus)
    (taskResources : list TaskResource) : bool * option ResolveError :=
  match edgesResolved (Dependencies container) taskContainers with
  | (true, _) =>
      resourcesResolved (ResourceDependencies container) taskResources
  | unresolved => unresolved
  end.

(** The required minimum state of each condition, in the words of the
    claim. *)
Definition requiredState (cond : Condition) (dep : Container) : Prop :=
  match cond with
  | START => KnownStatus dep = RUNNING ∨ KnownStatus dep = STOPPED
  | COMPLETE => KnownStatus dep = STOPPED
  | SUCCESS => KnownStatus dep = STOPPED ∧ ExitCode dep = Some 0%Z
  | HEALTHY => Health dep = HEALTH_HEALTHY
  end.

Definition edgeSatisfied (taskContainers : list Container) (edge : DependsOn)
  : Prop :=
  ∃ dep, lookupContainer (ContainerName edge) taskContainers = Some dep
         ∧ requiredState (DependencyCondition edge) dep.

Definition resourceSatisfied (taskResources : list TaskResource)
    (name : string) : Prop :=
  ∃ res, lookupResource name taskResources = Some res
         ∧ ResourceKnownStatus res = RESOURCE_CREATED.

(** *** Validation of the dependency graph *)

Definition dependencyNames (c : Container) : list string :=
  map ContainerName (Dependencies c).

(** A container can take its place in the order once none of the containers
    it depends on is still waiting for its own. *)
Definition canBeOrdered (unresolved : list Container) (c : Container) : bool :=
  forallb (λ name, bool_decide (name ∉ map Name unresolved))
          (dependencyNames c).

(** Modelled from the spec: the topological sort over the declared edges
    that detects cycles at task-registration time (section 4.2).  Each round
    moves the containers that can be ordered out of [unresolved]; a round
    that moves none has found a cycle.  The validation is not in the
    sources. *)
Fixpoint topologicalSort (rounds : nat) (unresolved : list Container)
    (order : list string) : option (list string) :=
  match unresolved with
  | [] => Some order
  | _ :: _ =>
      match rounds with
      | 0 => None
      | S rounds' =>
          match filter (λ c, canBeOrdered unresolved c) unresolved with
          | [] => None
          | next =>
              topologicalSort rounds'
                (filter (λ c, ¬ canBeOrdered unresolved c) unresolved)
                (order ++ map Name next)
          end
      end
  end.

(** Modelled from the spec: the validation of the dependency graph at
    registration (sections 4.2 and 4.4).  Every round but the last orders at
    least one container, so as many rounds as there are containers are
    enough. *)
Definition validDependencies (containers : list Container) : bool :=
  bool_decide (is_Some (topologicalSort (length containers) containers [])).

(** A declared edge, from the name of a container to the name of a container
    it depends on; a cycle is a non-empty path of edges from a name back to
    itself. *)
Definition dependsOnName (containers : list Container) (a b : string) : Prop :=
  ∃ c, c ∈ containers ∧ Name c = a ∧ b ∈ dependencyNames c.

Definition hasCycle (containers : list Container) : Prop :=
  ∃ a, tc (dependsOnName containers) a a.

(** A task of two containers: [web] starts once [db] is healthy and the
    volume [data] is created. *)
Definition dbContainer (known : ContainerStatus) (health : HealthStatus)
  : Container :=
  {| Name := "db"; RuntimeID := Some "0a1b"; Essential := true;
     DesiredStatus := RUNNING; KnownStatus := known; AppliedStatus := NONE;
     Health := health; ExitCode := None; Dependencies := [];
     ResourceDependencies := [] |}.

Definition webContainer : Container :=
  {| Name := "web"; RuntimeID := None; Essential := true;
     DesiredStatus := RUNNING; KnownStatus := CREATED; AppliedStatus := NONE;
     Health := HEALTH_UNKNOWN; ExitCode := None;
     Dependencies := [{| ContainerName := "db";
                         DependencyCondition := HEALTHY |}];
     ResourceDependencies := ["data"] |}.

Definition dataVolume (status : ResourceStatus) : TaskResource :=
  {| ResourceName := "data"; ResourceKnownStatus := status |}.

(** *** The resolver is the conjunction over all dependencies *)

Lemma conditionMet_requiredState cond dep :
  conditionMet cond dep = true ↔ requiredState cond dep.
Proof.
  destruct cond; cbn.
  - rewrite bool_decide_eq_true. unfold statusLe.
    destruct (KnownStatus dep); cbn; split; intros H;
      first [lia | by auto | by destruct H].
  - by rewrite bool_decide_eq_true.
  - by rewrite andb_true_iff, !bool_decide_eq_true.
  - by rewrite bool_decide_eq_true.
Qed.

Lemma edgesResolved_true edges taskContainers :
  (edgesResolved edges taskContainers).1 = true
  ↔ Forall (edgeSatisfied taskContainers) edges.
Proof.
  induction edges as [|edge rest IH]; cbn.
  - split; [constructor|done].
  - rewrite Forall_cons, <- IH. unfold edgeSatisfied at 1.
    destruct (lookupContainer (ContainerName edge) taskContainers)
      as [dep|]; cbn.
    + destruct (conditionMet (DependencyCondition edge) dep) eqn:Hmet.
      * apply conditionMet_requiredState in Hmet. naive_solver.
      * cbn. split; [done|]. intros [(d & [= <-] & Hreq) _].
        apply conditionMet_requiredState in Hreq. congruence.
    + split; [done|]. by intros [(d & [=] & _) _].
Qed.

Lemma resourcesResolved_true names taskResources :
  (resourcesResolved names taskResources).1 = true
  ↔ Forall (resourceSatisfied taskResources) names.
Proof.
  induction names as [|name rest IH]; cbn.
  - split; [constructor|done].
  - rewrite Forall_cons, <- IH. unfold resourceSatisfied at 1.
    destruct (lookupResource name taskResources) as [res|]; cbn.
    + case_decide as Hcreated; [naive_solver|].
      cbn. split; [done|]. by intros [(r & [= <-] & Hst) _].
    + split; [done|]. by intros [(r & [=] & _) _].
Qed.

Lemma resolved_without_error_edges edges taskContainers :
  (edgesResolved edges taskContainers).1 = true →
  (edgesResolved edges taskContainers).2 = None.
Proof.
  induction edges as [|edge rest IH]; cbn; [done|].
  destruct (lookupContainer _ _); [|done].
  by destruct (conditionMet _ _).
Qed.

Lemma resolved_without_error_resources names taskResources :
  (resourcesResolved names taskResources).1 = true →
  (resourcesResolved names taskResources).2 = None.
Proof.
  induction names as [|name rest IH]; cbn; [done|].
  destruct (lookupResource _ _); [|done].
  by case_decide.
Qed.

(** C4. [dependenciesAreResolved] answers true exactly when every declared
    dependency edge finds its dependency in the state its condition requires
    (START: RUNNING or STOPPED; COMPLETE: STOPPED; SUCCESS: STOPPED with exit
    code 0; HEALTHY: health status HEALTHY) and every task resource the
    container depends on is CREATED; a true answer comes with no error. *)
Theorem dependenciesAreResolved_iff_all_satisfied
    (container : Container) (taskContainers : list Container)
    (taskKnownStatus : TaskStatus) (taskResources : list TaskResource) :
  ((dependenciesAreResolved container taskContainers taskKnownStatus
      taskResources).1 = true
   ↔ Forall (edgeSatisfied taskContainers) (Dependencies container)
     ∧ Forall (resourceSatisfied taskResources)
         (ResourceDependencies container))
  ∧ ((dependenciesAreResolved container taskContainers taskKnownStatus
        taskResources).1 = true →
     (dependenciesAreResolved container taskContainers taskKnownStatus
        taskResources).2 = None).
Proof.
  unfold dependenciesAreResolved.
  rewrite <- edgesResolved_true, <- resourcesResolved_true.
  destruct (edgesResolved (Dependencies container) taskContainers)
    as [[|] err] eqn:Hedges; cbn.
  - split; [naive_solver|]. apply resolved_without_error_resources.
  - split; [naive_solver|done].
Qed.

Example web_waits_for_healthy_db_and_volume :
  dependenciesAreResolved webContainer
    [webContainer; dbContainer RUNNING HEALTH_HEALTHY] TASK_CREATED
    [dataVolume RESOURCE_CREATED] = (true, None)
  ∧ dependenciesAreResolved webContainer
      [webContainer; dbContainer RUNNING HEALTH_UNHEALTHY] TASK_CREATED
      [dataVolume RESOURCE_CREATED] = (false, None)
  ∧ dependenciesAreResolved webContainer
      [webContainer; dbContainer RUNNING HEALTH_HEALTHY] TASK_CREATED
      [dataVolume RESOURCE_NONE] = (false, None)
  ∧ dependenciesAreResolved webContainer [webContainer] TASK_CREATED
      [dataVolume RESOURCE_CREATED] = (false, Some (UnknownContainer "db")).
Proof. repeat split. Qed.

(** *** A cycle defeats the topological sort *)

Section Cycle.
Variable containers : list Container.

(** A container on a cycle that depends on a name on a cycle. *)
Definition stuck (c : Container) : Prop :=
  c ∈ containers
  ∧ ∃ b, b ∈ dependencyNames c ∧ tc (dependsOnName containers) b b.

Lemma on_cycle_stuck a :
  tc (dependsOnName containers) a a → ∃ c, stuck c ∧ Name c = a.
Proof.
  intros Hcycle. inversion Hcycle as [? ? Hedge|? b ? Hedge Hback]; subst.
  - destruct Hedge as (c & Hin & Hname & Hdep).
    exists c. split; [|done]. split; [done|]. eauto.
  - destruct Hedge as (c & Hin & Hname & Hdep).
    exists c. split; [|done]. split; [done|]. exists b. split; [done|].
    eapply tc_r; [exact Hback|]. exists c. eauto.
Qed.

Lemma stuck_cannot_be_ordered unresolved c :
  (∀ c', stuck c' → c' ∈ unresolved) →
  stuck c → canBeOrdered unresolved c = false.
Proof.
  intros Hinv (Hin & b & Hdep & Hcycle).
  destruct (on_cycle_stuck b Hcycle) as (cb & Hstuck & Hname).
  apply not_true_is_false. unfold canBeOrdered.
  rewrite forallb_forall. intros Hall.
  apply list_elem_of_In in Hdep. specialize (Hall b Hdep).
  apply bool_decide_eq_true in Hall. apply Hall.
  apply list_elem_of_fmap. exists cb. split; [done|]. by apply Hinv.
Qed.

Lemma topologicalSort_round rounds unresolved order :
  unresolved ≠ [] →
  topologicalSort (S rounds) unresolved order
  = match filter (λ c, canBeOrdered unresolved c) unresolved with
    | [] => None
    | next =>
        topologicalSort rounds
          (filter (λ c, ¬ canBeOrdered unresolved c) unresolved)
          (order ++ map Name next)
    end.
Proof. by destruct unresolved. Qed.

Lemma topologicalSort_stuck rounds :
  ∀ unresolved order,
    (∃ c, stuck c) →
    (∀ c, stuck c → c ∈ unresolved) →
    topologicalSort rounds unresolved order = None.
Proof.
  induction rounds as [|rounds IH]; intros unresolved order [c0 Hc0] Hinv.
  - destruct unresolved; [|done].
    specialize (Hinv c0 Hc0). by apply elem_of_nil in Hinv.
  - rewrite topologicalSort_round.
    2:{ intros ->. specialize (Hinv c0 Hc0). by apply elem_of_nil in Hinv. }
    destruct (filter (λ c, canBeOrdered unresolved c) unresolved); [done|].
    apply IH; [eauto|].
    intros c1 Hc1. apply list_elem_of_filter. split; [|by apply Hinv].
    rewrite (stuck_cannot_be_ordered unresolved c1 Hinv Hc1). by intros [].
Qed.

Lemma hasCycle_not_valid :
  hasCycle containers → validDependencies containers = false.
Proof.
  intros [a Hcycle]. unfold validDependencies.
  destruct (on_cycle_stuck a Hcycle) as (c & Hstuck & _).
  rewrite topologicalSort_stuck; [|eauto|by intros c' [Hin _]].
  apply bool_decide_eq_false. by intros [? [=]].
Qed.

(** *** Without a cycle the sort succeeds *)

(** In a finite, non-empty set of names in which every name has a successor,
    some name reaches itself. *)
Lemma finite_successors_cycle (n : nat) :
  ∀ (names : list string) (R : relation string),
    (length names ≤ n)%nat →
    names ≠ [] →
    (∀ a, a ∈ names → ∃ b, b ∈ names ∧ R a b) →
    ∃ a, tc R a a.
Proof.
  induction n as [|n IH]; intros names R Hlen Hne Hsucc.
  - destruct names; [done|cbn in Hlen; lia].
  - destruct names as [|a rest]; [done|].
    destruct (Hsucc a) as (c & Hc & Hac); [left|].
    destruct (decide (c = a)) as [->|Hca]; [exists a; by apply tc_once|].
    set (names' := filter (λ x, x ≠ a) rest).
    set (R' := λ x y, R x y ∨ (R x a ∧ R a y)).
    assert (Hin' : ∀ x, x ∈ a :: rest → x ≠ a → x ∈ names').
    { intros x Hx Hxa. apply list_elem_of_filter. split; [done|].
      by apply elem_of_cons in Hx as [->|Hx]. }
    destruct (IH names' R') as [x Hx].
    + pose proof (length_filter (λ x, x ≠ a) rest). cbn in Hlen.
      unfold names'. lia.
    + intros Hnil. specialize (Hin' c Hc Hca). rewrite Hnil in Hin'.
      by apply elem_of_nil in Hin'.
    + intros x [Hxa Hx]%list_elem_of_filter.
      destruct (Hsucc x) as (y & Hy & Hxy); [by right|].
      destruct (decide (y = a)) as [->|Hya].
      * exists c. split; [by apply Hin'|]. right. done.
      * exists y. split; [by apply Hin'|]. by left.
    + exists x. clear -Hx.
      assert (Hsub : ∀ y z, tc R' y z → tc R y z); [|by apply Hsub].
      clear x Hx. intros y z Hyz.
      induction Hyz as [y z [Hyz|[Hya Haz]]|y m z [Hym|[Hya Ham]] _ IHtc].
      * by apply tc_once.
      * eapply tc_l; [exact Hya|]. by apply tc_once.
      * eapply tc_l; [exact Hym|exact IHtc].
      * eapply tc_l; [exact Hya|]. eapply tc_l; [exact Ham|exact IHtc].
Qed.

Lemma canBeOrdered_false unresolved c :
  canBeOrdered unresolved c = false →
  ∃ b, b ∈ dependencyNames c ∧ b ∈ map Name unresolved.
Proof.
  unfold canBeOrdered. induction (dependencyNames c) as [|d ds IH]; cbn;
    [done|].
  intros [Hd|Hds]%andb_false_iff.
  - exists d. split; [left|]. apply bool_decide_eq_false in Hd.
    by apply dec_stable in Hd.
  - destruct (IH Hds) as (b & Hb & Hin). exists b. split; [by right|done].
Qed.

Lemma topologicalSort_None_cycle rounds :
  ∀ unresolved order,
    (length unresolved ≤ rounds)%nat →
    unresolved ⊆ containers →
    topologicalSort rounds unresolved order = None →
    hasCycle containers.
Proof.
  induction rounds as [|rounds IH]; intros unresolved order Hlen Hsub Hnone.
  - destruct unresolved; [done|cbn in Hlen; lia].
  - destruct unresolved as [|u rest] eqn:Hu; [done|].
    rewrite <- Hu in *. rewrite topologicalSort_round in Hnone
      by (rewrite Hu; done).
    destruct (filter (λ c, canBeOrdered unresolved c) unresolved)
      as [|c0 next] eqn:Hnext.
    + (* a round that orders nothing: every name waits for a name *)
      apply (finite_successors_cycle (length (map Name unresolved))
               (map Name unresolved)); [done|by rewrite Hu|].
      intros a (c & -> & Hc)%list_elem_of_fmap.
      assert (Hblocked : canBeOrdered unresolved c = false).
      { apply not_true_is_false. intros Hready.
        assert (Hin : c ∈ filter (λ c, canBeOrdered unresolved c) unresolved).
        { apply list_elem_of_filter. split; [by rewrite Hready|done]. }
        rewrite Hnext in Hin. by apply elem_of_nil in Hin. }
      destruct (canBeOrdered_false _ _ Hblocked) as (b & Hdep & Hb).
      exists b. split; [done|]. exists c. split; [by apply Hsub|done].
    + eapply IH; [| |exact Hnone].
      * assert (Hsplit := filter_app_complement
                            (λ c, canBeOrdered unresolved c) unresolved).
        apply Permutation_length in Hsplit.
        rewrite length_app, Hnext in Hsplit. cbn in Hsplit. lia.
      * intros c [_ Hc]%list_elem_of_filter. by apply Hsub.
Qed.

(** The validation accepts exactly the graphs without a cycle. *)
Lemma validDependencies_iff_acyclic :
  validDependencies containers = true ↔ ¬ hasCycle containers.
Proof.
  split.
  - intros Hvalid Hcycle. rewrite hasCycle_not_valid in Hvalid; done.
  - intros Hacyclic. unfold validDependencies. apply bool_decide_eq_true.
    destruct (topologicalSort (length containers) containers [])
      as [order|] eqn:Hsort; [by eexists|].
    exfalso. apply Hacyclic.
    by eapply topologicalSort_None_cycle; [| |exact Hsort].
Qed.

End Cycle.

End DependencyGraph.

(** ** The task engine *)

Module TaskEngine.
Import ContainerStateMachine DependencyGraph.

(** Modelled from the spec: the Task of section 3: its id, its containers in
    definition order, its statuses and its resources.  The task model is not
    in the sources. *)
Record Task : Type := {
  Arn : string;
  Containers : list Container;
  TaskDesiredStatus : TaskStatus;
  TaskKnownStatus : TaskStatus;
  Resources : list TaskResource
}.

(** Modelled from the spec: the operations of the container runtime client
    that act on a container (section 6), named by the container they are
    issued for. *)
Inductive RuntimeOperation : Type :=
  | PullImage (container : string)
  | CreateContainer (container : string)
  | StartContainer (container : string)
  | StopContainer (container : string)
  | RemoveContainer (container : string).

(** Modelled from the spec: how a runtime operation ended, "a typed result
    or an error" (section 6): the handle of the container, where the
    operation returns one, or the reason of the failure. *)
Inductive OperationResult : Type :=
  | Succeeded (runtimeId : option string)
  | Failed (reason : string).

(** Modelled from the spec: what reaches the engine (sections 4.4 and 5): a
    desired-state message (task spec with its desired status, sequence
    number), a runtime event for a container handle, or the completion of a
    runtime operation issued for a task. *)
Inductive EngineInput : Type :=
  | DesiredStateMessage (task : Task) (seqnum : Z)
  | RuntimeEventMessage (runtimeId : string) (ev : RuntimeEvent)
  | OperationCompleted (arn : string) (op : RuntimeOperation)
      (result : OperationResult).

(** Modelled from the spec: the fatal validation error that rejects a task
    with a cyclic dependency graph (sections 4.2 and 7). *)
Inductive EngineError : Type :=
  | CyclicDependencies (arn : string).

(** Modelled from the spec: what one step of a Task Manager (section 4.3)
    hands back to the engine: its new state, the runtime operations it
    issues, the container handles it has learned (runtime-id, container
    name), and whether the task may now be purged from the index. *)
Record ManagerStep (ManagedTask : Type) : Type := {
  manager : ManagedTask;
  operations : list RuntimeOperation;
  handles : list (string * string);
  purge : bool
}.
Arguments manager {ManagedTask} _.
Arguments operations {ManagedTask} _.
Arguments handles {ManagedTask} _.
Arguments purge {ManagedTask} _.

Definition container (op : RuntimeOperation) : string :=
  match op with
  | PullImage c | CreateContainer c | StartContainer c
  | StopContainer c | RemoveContainer c => c
  end.

Definition newContainer (name : string) (deps : list DependsOn) : Container :=
  {| Name := name; RuntimeID := None; Essential := true;
     DesiredStatus := RUNNING; KnownStatus := NONE; AppliedStatus := NONE;
     Health := HEALTH_UNKNOWN; ExitCode := None;
     Dependencies := deps; ResourceDependencies := [] |}.

Definition newTask (arn : string) (containers : list Container) : Task :=
  {| Arn := arn; Containers := containers;
     TaskDesiredStatus := TASK_RUNNING; TaskKnownStatus := TASK_NONE;
     Resources := [] |}.

(** [web] starts after [db], and [db] after [web]. *)
Definition cyclicTask : Task :=
  newTask "task/cyclic"
    [newContainer "web" [{| ContainerName := "db";
                            DependencyCondition := START |}];
     newContainer "db" [{| ContainerName := "web";
                           DependencyCondition := START |}]].

(** [web] starts after [db]. *)
Definition orderedTask : Task :=
  newTask "task/ordered"
    [newContainer "web" [{| ContainerName := "db";
                            DependencyCondition := START |}];
     newContainer "db" []].

(** A Task Manager reduced to what the engine sees of it, on which the
    routing can be run: it keeps the task it was started with, pulls the
    image of every container when started, and records the handle a
    completed operation returns under the operation's container. *)
Definition demoStart (t : Task) : ManagerStep Task :=
  {| manager := t;
     operations := map (λ c, PullImage (Name c)) (Containers t);
     handles := []; purge := false |}.

Definition demoOnDesiredState (m t : Task) : ManagerStep Task :=
  {| manager := t; operations := []; handles := []; purge := false |}.

Definition demoOnRuntimeEvent (m : Task) (c : string) (ev : RuntimeEvent)
  : ManagerStep Task :=
  {| manager := m; operations := []; handles := []; purge := false |}.

Definition demoOnCompletion (m : Task) (op : RuntimeOperation)
    (result : OperationResult) : ManagerStep Task :=
  {| manager := m; operations := [];
     handles := match result with
                | Succeeded (Some runtimeId) => [(runtimeId, container op)]
                | _ => []
                end;
     purge := false |}.

(** A container as the resolver sees it from another container: without its
    own edges. *)
Definition withoutEdges (c : Container) : Container :=
  {| Name := Name c; RuntimeID := RuntimeID c; Essential := Essential c;
     DesiredStatus := DesiredStatus c; KnownStatus := KnownStatus c;
     AppliedStatus := AppliedStatus c; Health := Health c;
     ExitCode := ExitCode c; Dependencies := [];
     ResourceDependencies := ResourceDependencies c |}.

Section Engine.

(** The Task Manager of section 4.3, by its interface: its state and the
    steps it can be asked to take. *)
Variable ManagedTask : Type.

(** Create and start a manager; forward a desired-state delta, a runtime
    event for one of the task's containers, the completion of an
    operation. *)
Variable startManager : Task → ManagerStep ManagedTask.
Variable onDesiredState : ManagedTask → Task → ManagerStep ManagedTask.
Variable onRuntimeEvent :
  ManagedTask → string → RuntimeEvent → ManagerStep ManagedTask.
Variable onCompletion :
  ManagedTask → RuntimeOperation → OperationResult → ManagerStep ManagedTask.

(** Modelled from the spec: the engine's index (section 4.4): task id to
    Task Manager, and container runtime-id to (task id, container name). *)
Record Engine : Type := {
  managers : gmap string ManagedTask;
  owners : gmap string (string * string)
}.

(** One step of the engine: its new index, the runtime operations issued,
    each with the id of the task it is issued for, and the error reported. *)
Record EngineStep : Type := {
  engine : Engine;
  issued : list (string * RuntimeOperation);
  failure : option EngineError
}.

Definition unchanged (eng : Engine) : EngineStep :=
  {| engine := eng; issued := []; failure := None |}.

Definition recordHandles (arn : string) (hs : list (string * string))
    (m : gmap string (string * string)) : gmap string (string * string) :=
  foldr (λ h acc, <[h.1 := (arn, h.2)]> acc) m hs.

(** Modelled from the spec: the engine takes in what the manager of task
    [arn] did (sections 4.3 and 4.4): it keeps the manager's new state,
    indexes the container handles it learned and passes its operations on to
    the runtime; or, when the manager says the task is done with, purges the
    task from the index. *)
Definition absorb (arn : string) (eng : Engine)
    (step : ManagerStep ManagedTask) : EngineStep :=
  {| engine :=
       if purge step then
         {| managers := delete arn (managers eng);
            owners := filter (λ kv, kv.2.1 ≠ arn) (owners eng) |}
       else
         {| managers := <[arn := manager step]> (managers eng);
            owners := recordHandles arn (handles step) (owners eng) |};
     issued := map (λ op, (arn, op)) (operations step);
     failure := None |}.

(** Modelled from the spec: the routing of section 4.4.  A desired-state
    message for an unknown task has its dependency graph validated before a
    manager is created and started, and a cycle rejects the task; for a known
    task the message is forwarded to its manager.  A runtime event is
    forwarded to the manager of the task that owns the handle. *)
Definition handle (eng : Engine) (input : EngineInput) : EngineStep :=
  match input with
  | DesiredStateMessage task _ =>
      match managers eng !! Arn task with
      | None =>
          if validDependencies (Containers task)
          then absorb (Arn task) eng (startManager task)
          else {| engine := eng; issued := [];
                  failure := Some (CyclicDependencies (Arn task)) |}
      | Some m => absorb (Arn task) eng (onDesiredState m task)
      end
  | RuntimeEventMessage runtimeId ev =>
      match owners eng !! runtimeId with
      | Some (arn, container) =>
          match managers eng !! arn with
          | Some m => absorb arn eng (onRuntimeEvent m container ev)
          | None => unchanged eng
          end
      | None => unchanged eng
      end
  | OperationCompleted arn op result =>
      match managers eng !! arn with
      | Some m => absorb arn eng (onCompletion m op result)
      | None => unchanged eng
      end
  end.

(** A run of the engine over a sequence of inputs: the index it ends with
    and all the operations issued on the way. *)
Fixpoint run (eng : Engine) (inputs : list EngineInput)
  : Engine * list (string * RuntimeOperation) :=
  match inputs with
  | [] => (eng, [])
  | input :: rest =>
      let step := handle eng input in
      let '(final, ops) := run (engine step) rest in
      (final, (issued step ++ ops)%list)
  end.

(** Task [arn] is unknown to the engine: it has no manager and owns no
    container handle. *)
Definition unknownTask (arn : string) (eng : Engine) : Prop :=
  managers eng !! arn = None
  ∧ ∀ runtimeId owner container,
      owners eng !! runtimeId = Some (owner, container) → owner ≠ arn.

(** *** A cyclic task never reaches the runtime *)

Lemma recordHandles_owner arn hs m runtimeId owner c :
  recordHandles arn hs m !! runtimeId = Some (owner, c) →
  owner = arn ∨ m !! runtimeId = Some (owner, c).
Proof.
  induction hs as [|h hs IH]; cbn; [auto|].
  rewrite lookup_insert. case_decide as Hkey; [|exact IH].
  intros Heq. left. by simplify_eq.
Qed.

Lemma absorb_other target arn eng step :
  arn ≠ target →
  unknownTask target eng →
  unknownTask target (engine (absorb arn eng step))
  ∧ ∀ op, (target, op) ∉ issued (absorb arn eng step).
Proof.
  intros Hne [Hman Hown]. split; [split|].
  - unfold absorb. cbn. destruct (purge step); cbn.
    + by rewrite lookup_delete_ne.
    + by rewrite lookup_insert_ne.
  - intros runtimeId owner c. unfold absorb. cbn.
    destruct (purge step); cbn.
    + intros [Hlook _]%map_lookup_filter_Some. by eapply Hown.
    + intros [->|Hlook]%recordHandles_owner; [done|]. by eapply Hown.
  - intros op. unfold absorb. cbn.
    intros (o & Heq & _)%list_elem_of_fmap. by simplify_eq.
Qed.

Lemma handle_keeps_unknown target eng input :
  unknownTask target eng →
  (∀ t s, input = DesiredStateMessage t s → Arn t = target →
          hasCycle (Containers t)) →
  unknownTask target (engine (handle eng input))
  ∧ ∀ op, (target, op) ∉ issued (handle eng input).
Proof.
  intros Hunknown Hcyclic.
  assert (Hstay : unknownTask target eng
                  ∧ ∀ op : RuntimeOperation, (target, op) ∉ @nil (string * RuntimeOperation)).
  { split; [done|]. intros op Hin. by apply elem_of_nil in Hin. }
  destruct input as [task seqnum|runtimeId ev|arn op result]; cbn.
  - destruct (decide (Arn task = target)) as [Heq|Hne].
    + destruct Hunknown as [Hman Hown]. rewrite Heq, Hman.
      rewrite hasCycle_not_valid by eauto. done.
    + destruct (managers eng !! Arn task);
        [by apply absorb_other|].
      destruct (validDependencies (Containers task));
        [by apply absorb_other|done].
  - destruct (owners eng !! runtimeId) as [[arn c]|] eqn:Hown; [|done].
    destruct (managers eng !! arn) eqn:Hman; [|done].
    apply absorb_other; [|done]. destruct Hunknown as [_ Hothers].
    by eapply Hothers.
  - destruct (managers eng !! arn) eqn:Hman; [|done].
    apply absorb_other; [|done]. intros ->.
    destruct Hunknown as [Hnone _]. congruence.
Qed.

Lemma run_keeps_unknown target inputs :
  ∀ eng,
    unknownTask target eng →
    (∀ t s, DesiredStateMessage t s ∈ inputs → Arn t = target →
            hasCycle (Containers t)) →
    unknownTask target (run eng inputs).1
    ∧ ∀ op, (target, op) ∉ (run eng inputs).2.
Proof.
  induction inputs as [|input rest IH]; intros eng Hunknown Hcyclic; cbn.
  - split; [done|]. intros op Hin. by apply elem_of_nil in Hin.
  - destruct (handle_keeps_unknown target eng input Hunknown) as [Hnext Hops].
    { intros t s -> Heq. apply (Hcyclic t s); [left|done]. }
    destruct (IH (engine (handle eng input)) Hnext) as [Hfinal Hrest].
    { intros t s Hin. apply (Hcyclic t s). by right. }
    destruct (run (engine (handle eng input)) rest) as [final ops]. cbn in *.
    split; [done|]. intros op [Hin|Hin]%elem_of_app.
    + by eapply Hops.
    + by eapply Hrest.
Qed.

Lemma lookupContainer_withoutEdges name taskContainers :
  lookupContainer name (map withoutEdges taskContainers)
  = withoutEdges <$> lookupContainer name taskContainers.
Proof.
  unfold lookupContainer.
  induction taskContainers as [|c rest IH]; cbn; [done|].
  case_bool_decide; [done|]. apply IH.
Qed.

Lemma edgesResolved_withoutEdges edges taskContainers :
  edgesResolved edges (map withoutEdges taskContainers)
  = edgesResolved edges taskContainers.
Proof.
  induction edges as [|edge rest IH]; cbn; [done|].
  rewrite lookupContainer_withoutEdges.
  destruct (lookupContainer (ContainerName edge) taskContainers) as [dep|];
    cbn; [|done].
  replace (conditionMet (DependencyCondition edge) (withoutEdges dep))
    with (conditionMet (DependencyCondition edge) dep)
    by (by destruct (DependencyCondition edge)).
  by rewrite IH.
Qed.

(** A task without a cycle is registered: its manager is created and
    started. *)
Lemma acyclic_task_is_registered (task : Task) (seqnum : Z) (eng : Engine) :
  ¬ hasCycle (Containers task) →
  managers eng !! Arn task = None →
  handle eng (DesiredStateMessage task seqnum)
  = absorb (Arn task) eng (startManager task).
Proof.
  intros Hacyclic Hnew. cbn. rewrite Hnew.
  apply validDependencies_iff_acyclic in Hacyclic. by rewrite Hacyclic.
Qed.

(** C3. A desired-state message for a task the engine does not know, whose
    declared dependency edges form a cycle, is answered with the fatal
    validation error; the engine's index stays as it was and no runtime
    operation is issued.  As long as every desired-state message for that
    task id carries a cyclic graph, whatever else the engine receives and in
    whatever order, the task stays unknown and no runtime operation is ever
    issued for it.  The graph is validated at registration and nowhere else:
    a message for a known task is forwarded to its manager as it is, and the
    resolver's answer for a container does not depend on the edges of the
    other containers, so it cannot tell a cyclic graph from another. *)
Theorem cyclic_task_is_rejected_at_registration
    (task : Task) (seqnum : Z) (eng : Engine) :
  hasCycle (Containers task) →
  unknownTask (Arn task) eng →
  handle eng (DesiredStateMessage task seqnum)
  = {| engine := eng; issued := [];
       failure := Some (CyclicDependencies (Arn task)) |}
  ∧ (∀ inputs,
       (∀ t s, DesiredStateMessage t s ∈ inputs → Arn t = Arn task →
               hasCycle (Containers t)) →
       unknownTask (Arn task) (run eng inputs).1
       ∧ ∀ op, (Arn task, op) ∉ (run eng inputs).2)
  ∧ (∀ eng' m t s,
       managers eng' !! Arn t = Some m →
       handle eng' (DesiredStateMessage t s)
       = absorb (Arn t) eng' (onDesiredState m t))
  ∧ (∀ c taskContainers taskKnownStatus taskResources,
       dependenciesAreResolved c (map withoutEdges taskContainers)
         taskKnownStatus taskResources
       = dependenciesAreResolved c taskContainers taskKnownStatus
           taskResources).
Proof.
  intros Hcycle Hunknown. split; [|split; [|split]].
  - cbn. destruct Hunknown as [-> _].
    by rewrite hasCycle_not_valid.
  - intros inputs Hcyclic. by apply run_keeps_unknown.
  - intros eng' m t s Hknown. cbn. by rewrite Hknown.
  - intros c taskContainers taskKnownStatus taskResources.
    unfold dependenciesAreResolved. by rewrite edgesResolved_withoutEdges.
Qed.

End Engine.

(** *** The engine on a cyclic and on an ordered task *)

Lemma cyclicTask_hasCycle : hasCycle (Containers cyclicTask).
Proof.
  exists "web". eapply tc_l; [|apply tc_once].
  - eexists. split; [left|]. split; [reflexivity|]. left.
  - eexists. split; [right; left|]. split; [reflexivity|]. left.
Qed.

Lemma orderedTask_valid : validDependencies (Containers orderedTask) = true.
Proof. vm_compute. reflexivity. Qed.

Lemma cyclic_task_is_rejected_at_registration_run :
  let eng0 : Engine Task := {| managers := ∅; owners := ∅ |} in
  let inputs := [DesiredStateMessage cyclicTask 1;
                 DesiredStateMessage orderedTask 2;
                 OperationCompleted "task/ordered" (CreateContainer "db")
                   (Succeeded (Some "c0ffee"));
                 RuntimeEventMessage "c0ffee"
                   {| eventStatus := RUNNING; eventExitCode := None |};
                 DesiredStateMessage cyclicTask 3] in
  handle Task demoStart demoOnDesiredState demoOnRuntimeEvent
    demoOnCompletion eng0 (DesiredStateMessage cyclicTask 1)
  = {| engine := eng0; issued := [];
       failure := Some (CyclicDependencies "task/cyclic") |}
  ∧ (run Task demoStart demoOnDesiredState demoOnRuntimeEvent
       demoOnCompletion eng0 inputs).2
    = [("task/ordered", PullImage "web"); ("task/ordered", PullImage "db")]
  ∧ ∀ op, ("task/cyclic", op)
          ∉ (run Task demoStart demoOnDesiredState demoOnRuntimeEvent
               demoOnCompletion eng0 inputs).2.
Proof.
  intros eng0 inputs.
  assert (Hunknown : unknownTask Task (Arn cyclicTask) eng0).
  { split; [apply lookup_empty|]. intros r o c. unfold eng0. cbn.
    by rewrite lookup_empty. }
  destruct (cyclic_task_is_rejected_at_registration Task demoStart
              demoOnDesiredState demoOnRuntimeEvent demoOnCompletion
              cyclicTask 1 eng0 cyclicTask_hasCycle Hunknown)
    as (Hrejected & Hrun & _).
  split; [exact Hrejected|]. split; [vm_compute; reflexivity|].
  apply Hrun. intros t s Hin Harn. unfold inputs in Hin.
  repeat (apply elem_of_cons in Hin as [Heq|Hin];
          [first [discriminate Heq
                 | injection Heq as -> _; first [discriminate Harn
                                                | apply cyclicTask_hasCycle]]
          |]).
  by apply elem_of_nil in Hin.
Defined.

End TaskEngine.

(** ** The state-change event pipeline *)

Module EventPipeline.

(** Modelled from the spec: the State Change Event of section 3: task id,
    optional container name, optional attachment id, new status, optional
    reason and exit code, timestamp.  The event pipeline is not in the
    sources. *)
Record StateChangeEvent : Type := {
  TaskArn : string;
  EventContainer : option string;
  EventAttachment : option string;
  NewStatus : string;
  EventReason : option string;
  EventExitCode : option Z;
  Timestamp : Z
}.

#[global] Instance StateChangeEvent_eq_dec : EqDecision StateChangeEvent.
Proof. solve_decision. Defined.

(** Modelled from the spec: the entity an event is about (section 4.5): a
    task, a task and one of its containers, or a task and its attachment. *)
Inductive Entity : Type :=
  | TaskEntity (task : string)
  | ContainerEntity (task container : string)
  | AttachmentEntity (task attachment : string).

#[global] Instance Entity_eq_dec : EqDecision Entity.
Proof. solve_decision. Defined.

Definition entityOf (ev : StateChangeEvent) : Entity :=
  match EventContainer ev, EventAttachment ev with
  | Some c, _ => ContainerEntity (TaskArn ev) c
  | None, Some a => AttachmentEntity (TaskArn ev) a
  | None, None => TaskEntity (TaskArn ev)
  end.

(** Modelled from the spec: the pipeline between the Task Managers and the
    Status Sender (sections 4.5 and 4.6): the events queued for sending, in
    the order they were generated, and the batches in flight. *)
Record Pipeline : Type := {
  queued : list StateChangeEvent;
  inFlight : list (list StateChangeEvent)
}.

(** Modelled from the spec: the deduplication rule of section 4.5.  A new
    event takes the place of the event queued for the same entity, if there
    is one that has not been sent; events in flight are left alone. *)
Definition enqueue (p : Pipeline) (ev : StateChangeEvent) : Pipeline :=
  {| queued :=
       filter (λ old, entityOf old ≠ entityOf ev) (queued p) ++ [ev];
     inFlight := inFlight p |}.

(** Modelled from the spec: the batching rule of section 4.5.  The sender
    takes the oldest queued event and, with it, every queued event of the
    same task, as one outbound message, which is then in flight. *)
Definition sendNext (p : Pipeline)
  : option (list StateChangeEvent * Pipeline) :=
  match queued p with
  | [] => None
  | ev :: _ =>
      let batch := filter (λ e, TaskArn e = TaskArn ev) (queued p) in
      Some (batch,
            {| queued := filter (λ e, ¬ TaskArn e = TaskArn ev) (queued p);
               inFlight := inFlight p ++ [batch] |})
  end.

(** Modelled from the spec: the acknowledgement of section 4.6: the batch in
    flight for the task is delivered and forgotten. *)
Definition acknowledge (task : string) (p : Pipeline) : Pipeline :=
  {| queued := queued p;
     inFlight :=
       filter (λ batch, ¬ Exists (λ e, TaskArn e = task) batch) (inFlight p) |}.

(** Modelled from the spec: the Status Sender's loop (section 4.6) working
    the queue off: the messages it sends, at most [n] of them. *)
Fixpoint drain (n : nat) (p : Pipeline) : list (list StateChangeEvent) :=
  match n with
  | 0 => []
  | S n' =>
      match sendNext p with
      | None => []
      | Some (batch, p') => batch :: drain n' p'
      end
  end.

(** Every message takes at least one event off the queue, so as many
    messages as there are queued events empty it. *)
Definition transmitted (p : Pipeline) : list StateChangeEvent :=
  concat (drain (length (queued p)) p).

(** The pipeline after a sequence of events came in, with no send in
    between. *)
Definition enqueueAll (p : Pipeline) (evs : list StateChangeEvent)
  : Pipeline :=
  foldl enqueue p evs.

(** The events of a list that are about a given entity. *)
Definition about (entity : Entity) (evs : list StateChangeEvent)
  : list StateChangeEvent :=
  filter (λ e, entityOf e = entity) evs.

(** Three status changes of container [web] of task [t1], in quick
    succession. *)
Definition webChange (status : string) (at_ : Z) : StateChangeEvent :=
  {| TaskArn := "t1"; EventContainer := Some "web"; EventAttachment := None;
     NewStatus := status; EventReason := None; EventExitCode := None;
     Timestamp := at_ |}.

Definition emptyPipeline : Pipeline := {| queued := []; inFlight := [] |}.

(** *** Superseding, not accumulating *)

Lemma about_enqueue_same p ev :
  about (entityOf ev) (queued (enqueue p ev)) = [ev].
Proof.
  unfold about, enqueue. cbn. rewrite filter_app.
  rewrite (filter_cons_True _ ev []) by done. rewrite filter_nil.
  replace (filter _ (filter _ (queued p))) with (@nil StateChangeEvent);
    [done|].
  symmetry. induction (queued p) as [|old rest IH]; [done|].
  rewrite filter_cons. case_decide as Hne; [|exact IH].
  rewrite filter_cons_False by done. exact IH.
Qed.

Lemma about_enqueue_other p ev entity :
  entity ≠ entityOf ev →
  about entity (queued (enqueue p ev)) = about entity (queued p).
Proof.
  intros Hne. unfold about, enqueue. cbn. rewrite filter_app.
  rewrite (filter_cons_False _ ev []) by done.
  rewrite filter_nil, app_nil_r.
  induction (queued p) as [|old rest IH]; [done|].
  rewrite !filter_cons. case_decide as Hold.
  - rewrite filter_cons. case_decide as Hent; [by rewrite IH|done].
  - case_decide as Hent; [|done]. congruence.
Qed.

Lemma drain_Permutation n :
  ∀ p, (length (queued p) ≤ n)%nat → concat (drain n p) ≡ₚ queued p.
Proof.
  induction n as [|n IH]; intros p Hlen.
  - cbn. destruct (queued p); [done|cbn in Hlen; lia].
  - cbn. unfold sendNext.
    destruct (queued p) as [|ev rest] eqn:Hq; [done|].
    cbn [concat]. rewrite IH.
    + cbn [queued]. apply filter_app_complement.
    + cbn [queued]. rewrite filter_cons_False by (intros Hn; by apply Hn).
      pose proof (length_filter (λ e, ¬ TaskArn e = TaskArn ev) rest).
      cbn in Hlen. lia.
Qed.

Lemma transmitted_Permutation p : transmitted p ≡ₚ queued p.
Proof. by apply drain_Permutation. Qed.

Lemma about_singleton_Permutation entity evs evs' ev :
  evs ≡ₚ evs' → about entity evs' = [ev] → about entity evs = [ev].
Proof.
  intros Hperm Hone. apply Permutation_singleton_r.
  rewrite <- Hone. unfold about. by rewrite Hperm.
Qed.

Lemma about_enqueueAll_last evs :
  ∀ p latest,
    about (entityOf latest) (queued (enqueueAll p (evs ++ [latest])))
    = [latest].
Proof.
  intros p latest. unfold enqueueAll. rewrite foldl_app. cbn.
  apply about_enqueue_same.
Qed.

(** C5. When an event comes in for an entity (a task, a container of a
    task, an attachment of a task) that has an earlier event queued and not
    yet sent, the new event takes the earlier one's place: the queue then
    holds, for that entity, the new event only, and the events queued for
    other entities are as before.  After any sequence of events for one
    entity came in with no send in between, the one event for that entity in
    the queue, and the one event for it among everything the sender then
    transmits, is the latest. *)
Theorem newer_event_supersedes_queued_one
    (p : Pipeline) (earlier newer : StateChangeEvent) :
  earlier ∈ queued p →
  entityOf earlier = entityOf newer →
  about (entityOf newer) (queued (enqueue p newer)) = [newer]
  ∧ (earlier ≠ newer → earlier ∉ queued (enqueue p newer))
  ∧ (∀ entity, entity ≠ entityOf newer →
       about entity (queued (enqueue p newer)) = about entity (queued p))
  ∧ (∀ changes latest,
       (∀ e, e ∈ changes → entityOf e = entityOf latest) →
       about (entityOf latest)
         (queued (enqueueAll p (changes ++ [latest]))) = [latest]
       ∧ about (entityOf latest)
           (transmitted (enqueueAll p (changes ++ [latest]))) = [latest]
       ∧ (∀ e, e ∈ changes → e ≠ latest →
               e ∉ transmitted (enqueueAll p (changes ++ [latest])))).
Proof.
  intros Hqueued Hsame. split; [apply about_enqueue_same|].
  split; [|split].
  - intros Hne Hin.
    assert (Habout : earlier ∈ about (entityOf newer)
                                 (queued (enqueue p newer))).
    { apply list_elem_of_filter. done. }
    rewrite about_enqueue_same in Habout.
    apply list_elem_of_singleton in Habout. done.
  - intros entity Hne. by apply about_enqueue_other.
  - intros changes latest Hone.
    assert (Hsent : about (entityOf latest)
                      (transmitted (enqueueAll p (changes ++ [latest])))
                    = [latest]).
    { eapply about_singleton_Permutation;
        [apply transmitted_Permutation|apply about_enqueueAll_last]. }
    split; [apply about_enqueueAll_last|]. split; [exact Hsent|].
    intros e Hin Hne Hout.
    assert (Habout : e ∈ about (entityOf latest)
                           (transmitted (enqueueAll p (changes ++ [latest])))).
    { apply list_elem_of_filter. split; [by apply Hone|done]. }
    rewrite Hsent in Habout. by apply list_elem_of_singleton in Habout.
Qed.

Lemma three_rapid_changes_send_the_latest :
  let p := enqueue emptyPipeline (webChange "PULLED" 100) in
  queued (enqueue p (webChange "CREATED" 101)) = [webChange "CREATED" 101]
  ∧ (webChange "PULLED" 100 ∉ queued (enqueue p (webChange "CREATED" 101)))
  ∧ transmitted (enqueueAll p [webChange "CREATED" 101;
                               webChange "RUNNING" 102])
    = [webChange "RUNNING" 102].
Proof.
  intros p.
  destruct (newer_event_supersedes_queued_one p (webChange "PULLED" 100)
              (webChange "CREATED" 101)) as (_ & Hgone & _ & _).
  - left.
  - reflexivity.
  - split; [reflexivity|]. split; [by apply Hgone|].
    vm_compute. reflexivity.
Defined.

End EventPipeline.
